(** * qa-director: credential detection, redaction and the role registry

  A shallow embedding of
    - the environment-variable pass ([detectEnvVars], [isLikelySelector],
      [isCommonTestData], [generateEnvVarName], [replaceWithEnvVars],
      [escapeRegex], [deduplicateEnvVars]), and
    - the role registry of [src/core/config.ts] ([loadConfig],
      [saveConfig], [addRole], [removeRole]), run by a process that keeps
      the first import of the transpiled configuration,
  with the properties the specification states about them, and of
    - the rest of the detection module ([extractEnvVarNames],
      [validateEnvVars]) and [validateRoleName] of the login command,
    - the rest of the registry ([updateConfig], [getRoles], [getRole],
      [configExists]), and
    - the environment files ([createEnvFiles], [updateEnvFiles] of
      [src/core/config.ts], [removeRoleEnvVars] of the eject command),
  with further properties read off the code.

  Text is a list of 8-bit characters, read as ASCII: the case mappings
  [toLowerCase] and [toUpperCase] are those of the letters A-Z / a-z and
  white space is the ASCII white space, which is what the JavaScript
  methods and patterns do on code units below 128. *)

From Stdlib Require Import Ascii String Sorted.
From stdpp Require Import base option list gmap strings.

Set Default Proof Using "Type".
Local Open Scope list_scope.

(** ** Text *)

Module Text.

Abbreviation text := (list ascii).

(** A string literal of the source, as text. *)
Definition str (s : string) : text := list_ascii_of_string s.

Definition ord (c : ascii) : nat := nat_of_ascii c.

Definition isUpper (c : ascii) : bool := (65 <=? ord c) && (ord c <=? 90).
Definition isLower (c : ascii) : bool := (97 <=? ord c) && (ord c <=? 122).
Definition isDigit (c : ascii) : bool := (48 <=? ord c) && (ord c <=? 57).

Definition lowerChar (c : ascii) : ascii :=
  if isUpper c then ascii_of_nat (ord c + 32) else c.
Definition upperChar (c : ascii) : ascii :=
  if isLower c then ascii_of_nat (ord c - 32) else c.

(** [String.prototype.toLowerCase] / [toUpperCase]. *)
Definition toLowerCase (t : text) : text := map lowerChar t.
Definition toUpperCase (t : text) : text := map upperChar t.

Definition eqc (a b : ascii) : bool := bool_decide (a = b).

(** [t.startsWith(p)] *)
Fixpoint startsWith (p t : text) : bool :=
  match p, t with
  | [], _ => true
  | a :: p', b :: t' => eqc a b && startsWith p' t'
  | _ :: _, [] => false
  end.

(** [t.includes(p)] *)
Fixpoint includes (p t : text) : bool :=
  startsWith p t ||
  match t with
  | [] => false
  | _ :: t' => includes p t'
  end.

End Text.
Import Text.

(** ** Regular expressions

  The fragment of the JavaScript pattern language that the source uses,
  with the backtracking semantics of the language definition: a matcher
  takes a state and a continuation and tries its alternatives in priority
  order.  Quantifiers occur in the source only on single-character
  classes, so [Star] carries a class. *)

Module Regex.

Definition cclass := ascii -> bool.

Inductive regex : Type :=
| Eps
| Chr (c : ascii)
| Cls (f : cclass)
| Seq (r1 r2 : regex)
| Alt (r1 r2 : regex)
| Star (greedy : bool) (f : cclass)
| Grp (n : nat) (r : regex)
| Bref (n : nat)
| Bol
| Eol.

(** [pos] is the index of [rest] in the subject string. *)
Record mstate := MState {
  pos : nat;
  rest : text;
  caps : gmap nat text
}.

Definition cont := mstate -> option mstate.

Fixpoint starGreedy (f : cclass) (k : cont) (p : nat) (cs : gmap nat text)
    (s : text) : option mstate :=
  match s with
  | c :: s' =>
      if f c then
        match starGreedy f k (S p) cs s' with
        | Some e => Some e
        | None => k (MState p s cs)
        end
      else k (MState p s cs)
  | [] => k (MState p [] cs)
  end.

Fixpoint starLazy (f : cclass) (k : cont) (p : nat) (cs : gmap nat text)
    (s : text) : option mstate :=
  match k (MState p s cs) with
  | Some e => Some e
  | None =>
      match s with
      | c :: s' => if f c then starLazy f k (S p) cs s' else None
      | [] => None
      end
  end.

Fixpoint m (r : regex) (st : mstate) (k : cont) : option mstate :=
  match r with
  | Eps => k st
  | Chr c =>
      match rest st with
      | x :: s' => if eqc x c then k (MState (S (pos st)) s' (caps st)) else None
      | [] => None
      end
  | Cls f =>
      match rest st with
      | x :: s' => if f x then k (MState (S (pos st)) s' (caps st)) else None
      | [] => None
      end
  | Seq r1 r2 => m r1 st (fun st' => m r2 st' k)
  | Alt r1 r2 =>
      match m r1 st k with
      | Some e => Some e
      | None => m r2 st k
      end
  | Star true f => starGreedy f k (pos st) (caps st) (rest st)
  | Star false f => starLazy f k (pos st) (caps st) (rest st)
  | Grp n r =>
      m r st (fun st' =>
        k (MState (pos st') (rest st')
             (<[n := take (pos st' - pos st) (rest st)]> (caps st'))))
  | Bref n =>
      match caps st !! n with
      | None => k st
      | Some t =>
          if startsWith t (rest st)
          then k (MState (pos st + length t) (drop (length t) (rest st)) (caps st))
          else None
      end
  | Bol => if Nat.eqb (pos st) 0 then k st else None
  | Eol => match rest st with [] => k st | _ :: _ => None end
  end.

(** The match attempt at one index, and the search for the first index at
    which it succeeds: the result is the index of the match and the state
    at its end. *)
Definition matchAt (r : regex) (p : nat) (s : text) : option mstate :=
  m r (MState p s ∅) Some.

Fixpoint search (r : regex) (p : nat) (s : text) : option (nat * mstate) :=
  match matchAt r p s with
  | Some e => Some (p, e)
  | None =>
      match s with
      | [] => None
      | _ :: s' => search r (S p) s'
      end
  end.

(** [r.test(s)] for a pattern without the global flag. *)
Definition test (r : regex) (s : text) : bool :=
  match search r 0 s with Some _ => true | None => false end.

(** A lower bound on the number of characters a match consumes. *)
Fixpoint minlen (r : regex) : nat :=
  match r with
  | Chr _ | Cls _ => 1
  | Seq r1 r2 => minlen r1 + minlen r2
  | Alt r1 r2 => Nat.min (minlen r1) (minlen r2)
  | Grp _ r => minlen r
  | Eps | Star _ _ | Bref _ | Bol | Eol => 0
  end.

(** The successive results of [exec] on a pattern with the global flag,
    from [lastIndex] [p] on: index of the match and state at its end.
    [None] stands for a sequence that does not end within [fuel] calls. *)
Fixpoint allMatches (fuel : nat) (r : regex) (p : nat) (s : text)
    : option (list (nat * mstate)) :=
  match fuel with
  | 0 => None
  | S fuel' =>
      match search r p s with
      | None => Some []
      | Some (i, e) => cons (i, e) <$> allMatches fuel' r (pos e) (rest e)
      end
  end.

(** [advances n st st']: [st'] lies at least [n] characters further in the
    same subject. *)
Definition advances (n : nat) (st st' : mstate) : Prop :=
  exists u, rest st = u ++ rest st' /\ pos st' = pos st + length u /\ n <= length u.

(** Pattern building blocks. *)
Fixpoint lit (t : text) : regex :=
  match t with
  | [] => Eps
  | c :: t' => Seq (Chr c) (lit t')
  end.

Fixpoint seqs (rs : list regex) : regex :=
  match rs with
  | [] => Eps
  | r :: rs' => Seq r (seqs rs')
  end.

Definition Plus (f : cclass) : regex := Seq (Cls f) (Star true f).

(** Literal text under the [i] flag: characters are compared after
    canonicalization to upper case. *)
Fixpoint liti (t : text) : regex :=
  match t with
  | [] => Eps
  | c :: t' => Seq (Cls (fun x => eqc (upperChar x) (upperChar c))) (liti t')
  end.

(** Character classes of the source patterns. *)
Definition oneOf (t : text) : cclass := fun c => bool_decide (c ∈ t).
Definition noneOf (t : text) : cclass := fun c => negb (oneOf t c).
Definition anyChar : cclass := fun _ => true.                 (* [\s\S] *)
Definition dot : cclass := noneOf [ascii_of_nat 10; ascii_of_nat 13].
Definition space : cclass :=                                   (* \s *)
  fun c => ((9 <=? ord c) && (ord c <=? 13)) || (ord c =? 32).
Definition alpha : cclass := fun c => isUpper c || isLower c.  (* [a-zA-Z] *)
Definition alnum : cclass := fun c => alpha c || isDigit c.    (* [a-zA-Z0-9] *)

End Regex.
Import Regex.

(** ** Environment-variable detection *)

Module EnvVars.

Inductive EnvVarType := email | password.

#[global] Instance EnvVarType_eq_dec : EqDecision EnvVarType.
Proof. solve_decision. Defined.

Record EnvVar := mkEnvVar {
  name : text;
  value : text;
  type : EnvVarType
}.

#[global] Instance EnvVar_eq_dec : EqDecision EnvVar.
Proof. solve_decision. Defined.

Record FillPattern := mkFillPattern {
  pattern : regex;
  ptype : EnvVarType
}.

Definition sq : ascii := "'"%char.
Definition dq : ascii := "034"%char.
Definition bq : ascii := "`"%char.

(** The three quote characters (single, double, backtick): the class the
    source patterns write between brackets, and its complement.  In the
    comments below [Q] stands for that class and [^Q] for its complement. *)
Definition quote : cclass := oneOf [sq; dq; bq].
Definition notQuote : cclass := noneOf [sq; dq; bq].

(** The part of both field patterns before the field name:
    [\.getByRole\(] [Q] [textbox] [Q] [,\s*\{\s*name:\s*] [Q]. *)
Definition locatorHead : list regex :=
  [ lit (str ".getByRole("); Cls quote; lit (str "textbox"); Cls quote;
    Chr ","; Star true space; Chr "{"; Star true space; lit (str "name:");
    Star true space; Cls quote ].

(** The part after the field name: [Q\s*\}\)], the lazy [[\s\S]*?], then
    [\.fill\(Q], group 2 [[^Q]+], and [Q\)]. *)
Definition locatorTail : list regex :=
  [ Cls quote; Star true space; lit (str "})"); Star false anyChar;
    lit (str ".fill("); Cls quote; Grp 2 (Plus notQuote); Cls quote; Chr ")" ].

(** Group 1 of the first pattern: [[^Q]*], then [[eE]mail|[uU]sername|[uU]ser]
    in a non-capturing group, then [[^Q]*]. *)
Definition emailName : regex :=
  Grp 1 (seqs [ Star true notQuote;
                Alt (Seq (Cls (oneOf (str "eE"))) (lit (str "mail")))
                  (Alt (Seq (Cls (oneOf (str "uU"))) (lit (str "sername")))
                       (Seq (Cls (oneOf (str "uU"))) (lit (str "ser"))));
                Star true notQuote ]).

(** Group 1 of the second pattern: [[^Q]*], then [[pP]assword], then [[^Q]*]. *)
Definition passwordName : regex :=
  Grp 1 (seqs [ Star true notQuote;
                Seq (Cls (oneOf (str "pP"))) (lit (str "assword"));
                Star true notQuote ]).

Definition emailPattern : regex :=
  seqs (locatorHead ++ emailName :: locatorTail).
Definition passwordPattern : regex :=
  seqs (locatorHead ++ passwordName :: locatorTail).

Definition fillPatterns : list FillPattern :=
  [ mkFillPattern emailPattern email;
    mkFillPattern passwordPattern password ].

(** [isLikelySelector]: the eight patterns, in the order of the source. *)
Definition selectorPatterns : list regex :=
  [ seqs [Bol; Chr "#"; Cls alpha];                 (* ^#[a-zA-Z] *)
    seqs [Bol; Chr "."; Cls alpha];                 (* ^\.[a-zA-Z] *)
    seqs [Bol; Chr "["; Star true dot; Chr "]"; Eol];   (* ^\[ . star \]$ *)
    seqs [Bol; Cls alpha; Star true alnum; Eol];    (* ^[a-zA-Z] [a-zA-Z0-9] star $ *)
    liti (str "data-testid");                       (* these four with flag i *)
    liti (str "data-cy");
    liti (str "class=");
    liti (str "id=") ].

Definition isLikelySelector (value : text) : bool :=
  existsb (fun pattern => test pattern value) selectorPatterns.

Definition commonTestData : list text :=
  map str [ "test"; "demo"; "sample"; "example"; "placeholder"; "lorem";
            "ipsum"; "john"; "jane"; "doe"; "admin"; "user"; "guest";
            "test123"; "password123" ]%string.

Definition isCommonTestData (value : text) : bool :=
  let lowerValue := toLowerCase value in
  existsb (fun data => includes data lowerValue) commonTestData.

(** [generateEnvVarName]: an absent or empty role name is falsy and gives
    the prefix USER; an absent field context makes the first disjunct
    undefined, hence false.  The [default] branch of the switch cannot be
    reached with a value of [EnvVarType]. *)
Definition rolePrefixOf (roleName : option text) : text :=
  match roleName with
  | Some (c :: r) => toUpperCase (c :: r)
  | Some [] | None => str "USER"
  end.

Definition generateEnvVarName (value : text) (type : EnvVarType)
    (fieldContext : option text) (roleName : option text) : text :=
  let rolePrefix := rolePrefixOf roleName in
  let adminContext :=
    match fieldContext with
    | Some fc => includes (str "admin") (toLowerCase fc)
    | None => false
    end || includes (str "admin") (toLowerCase value) in
  match type with
  | email =>
      if adminContext then str "QA_ADMIN_EMAIL"
      else str "QA_" ++ rolePrefix ++ str "_EMAIL"
  | password =>
      if adminContext then str "QA_ADMIN_PASSWORD"
      else str "QA_" ++ rolePrefix ++ str "_PASSWORD"
  end.

(** [deduplicateEnvVars]: one step of the [forEach], on the two sets and
    the output list. *)
Definition dedupStep (st : gset text * gset text * list EnvVar) (envVar : EnvVar)
    : gset text * gset text * list EnvVar :=
  let '(seenNames, seenValues, uniqueVars) := st in
  if bool_decide (name envVar ∉ seenNames) && bool_decide (value envVar ∉ seenValues)
  then ({[name envVar]} ∪ seenNames, {[value envVar]} ∪ seenValues,
        uniqueVars ++ [envVar])
  else st.

Definition deduplicateEnvVars (envVars : list EnvVar) : list EnvVar :=
  (foldl dedupStep (∅, ∅, []) envVars).2.

(** The body of the [while] loop for one match: the variable it pushes, if
    any.  [match[1]] and [match[2]] are the captures; an undefined
    [match[2]] would be tested as the text undefined, a bare identifier,
    and skipped. *)
Definition fillStep (type : EnvVarType) (roleName : option text) (e : mstate)
    : option EnvVar :=
  let fieldContext := caps e !! 1 in
  match caps e !! 2 with
  | None => None
  | Some value =>
      if isLikelySelector value || isCommonTestData value then None
      else Some (mkEnvVar (generateEnvVarName value type fieldContext roleName)
                   value type)
  end.

(** [while ((match = pattern.exec(playwrightCode)) !== null)] for a global
    pattern: [p] is [lastIndex] and [s] the text from there on.  The loop
    is bounded by [fuel]; [None] stands for a loop that does not end. *)
Fixpoint fillLoop (fuel : nat) (fp : FillPattern) (roleName : option text)
    (p : nat) (s : text) (envVars : list EnvVar) : option (list EnvVar) :=
  match fuel with
  | 0 => None
  | S fuel' =>
      match search (pattern fp) p s with
      | None => Some envVars
      | Some (_, e) =>
          fillLoop fuel' fp roleName (pos e) (rest e)
            (envVars ++ option_list (fillStep (ptype fp) roleName e))
      end
  end.

Fixpoint forEachPattern (fps : list FillPattern) (playwrightCode : text)
    (roleName : option text) (envVars : list EnvVar) : option (list EnvVar) :=
  match fps with
  | [] => Some envVars
  | fp :: fps' =>
      envVars' ← fillLoop (S (length playwrightCode)) fp roleName 0
                   playwrightCode envVars;
      forEachPattern fps' playwrightCode roleName envVars'
  end.

Definition detectEnvVars (playwrightCode : text) (roleName : option text)
    : option (list EnvVar) :=
  deduplicateEnvVars <$> forEachPattern fillPatterns playwrightCode roleName [].

(** ** Replacement *)

(** [GetSubstitution]: the expansion of the dollar patterns of a replacement
    template.  [captures] lists the capturing groups 1, 2, ... of the
    pattern, [None] for a group that did not take part in the match.  The
    patterns are: dollar dollar, dollar ampersand, dollar backtick, dollar
    single-quote, and dollar followed by one or two digits; a two-digit
    index beyond the number of groups is read as a one-digit index followed
    by a digit, and an index that names no group stays as it is written.
    There are no named groups, so dollar less-than is plain text. *)
Definition captureText (captures : list (option text)) (index : nat) : option text :=
  if (1 <=? index) && (index <=? length captures)
  then Some (default [] (mjoin (captures !! (index - 1))))
  else None.

Definition digitValue (c : ascii) : nat := ord c - 48.

Fixpoint getSubstitution (matched subject : text) (position : nat)
    (captures : list (option text)) (template : text) : text :=
  let go := getSubstitution matched subject position captures in
  match template with
  | [] => []
  | c :: t1 =>
      if negb (eqc c "$") then c :: go t1 else
      match t1 with
      | [] => [c]
      | d :: t2 =>
          if eqc d "$" then "$"%char :: go t2
          else if eqc d "&" then matched ++ go t2
          else if eqc d bq then take position subject ++ go t2
          else if eqc d sq then drop (position + length matched) subject ++ go t2
          else if isDigit d then
            let one :=
              match captureText captures (digitValue d) with
              | Some t => t ++ go t2
              | None => c :: d :: go t2
              end in
            match t2 with
            | d' :: t3 =>
                if isDigit d' then
                  match captureText captures (10 * digitValue d + digitValue d') with
                  | Some t => t ++ go t3
                  | None => if length captures <? 10 * digitValue d + digitValue d'
                            then one else c :: d :: d' :: go t3
                  end
                else one
            | [] => one
            end
          else c :: go t1
      end
  end.

(** [String.prototype.replace] with a global pattern of [groups] capturing
    groups and a replacement template.  [p] is [lastIndex], [s] the subject
    from there on; the unmatched text between two matches is copied, and an
    empty match advances [lastIndex] by one.  [None] stands for a loop that
    does not end within [fuel] rounds. *)
Fixpoint replaceLoop (fuel : nat) (r : regex) (groups : nat) (template : text)
    (subject : text) (p : nat) (s : text) : option text :=
  match fuel with
  | 0 => None
  | S fuel' =>
      match search r p s with
      | None => Some s
      | Some (position, e) =>
          let skipped := take (position - p) s in
          let matched := take (pos e - position) (drop (position - p) s) in
          let captures := (fun i => caps e !! i) <$> seq 1 groups in
          let replacement :=
            getSubstitution matched subject position captures template in
          if pos e =? position then
            match rest e with
            | [] => Some (skipped ++ replacement)
            | c :: s' =>
                (fun t => skipped ++ replacement ++ c :: t) <$>
                  replaceLoop fuel' r groups template subject (S position) s'
            end
          else
            (fun t => skipped ++ replacement ++ t) <$>
              replaceLoop fuel' r groups template subject (pos e) (rest e)
      end
  end.

Definition replaceGlobal (r : regex) (groups : nat) (template subject : text)
    : option text :=
  replaceLoop (S (length subject)) r groups template subject 0 subject.

(** The pattern syntax characters: the class of [escapeRegex]. *)
Definition syntaxChars : text := str ".*+?^${}()|[]\".

(** [escapeRegex]: every syntax character is replaced by a backslash and
    itself (the template is backslash, dollar, ampersand). *)
Definition escapeRegex (string : text) : option text :=
  replaceGlobal (Cls (oneOf syntaxChars)) 0 (str "\$&") string.

(** The reading of a pattern text by the [RegExp] constructor, for a text
    made of atoms: a backslash followed by a syntax character is that
    character, a dot is the wildcard, any other non-syntax character is
    itself.  Other syntax characters (quantifiers, groups, classes,
    anchors, alternation) and other escapes are outside this fragment. *)
Fixpoint parseAtoms (source : text) : option regex :=
  match source with
  | [] => Some Eps
  | c :: t1 =>
      if eqc c "\" then
        match t1 with
        | d :: t2 =>
            if oneOf syntaxChars d then Seq (Chr d) <$> parseAtoms t2 else None
        | [] => None
        end
      else if eqc c "." then Seq (Cls dot) <$> parseAtoms t1
      else if oneOf syntaxChars c then None
      else Seq (Chr c) <$> parseAtoms t1
  end.

(** [new RegExp(...)] on the template of [replaceWithEnvVars]: group 1 on
    the class of the three quote characters, the escaped value, and a
    backreference to group 1; flag g. *)
Definition quotedRegExp (escapedValue : text) : option regex :=
  body ← parseAtoms escapedValue;
  Some (seqs [Grp 1 (Cls quote); body; Bref 1]).

Definition replaceStep (processedCode : text) (envVar : EnvVar) : option text :=
  escapedValue ← escapeRegex (value envVar);
  regex ← quotedRegExp escapedValue;
  replaceGlobal regex 1 (str "process.env." ++ name envVar) processedCode.

Fixpoint replaceWithEnvVars (code : text) (envVars : list EnvVar) : option text :=
  match envVars with
  | [] => Some code
  | envVar :: envVars' =>
      processedCode ← replaceStep code envVar;
      replaceWithEnvVars processedCode envVars'
  end.

(** ** Vocabulary of the statements *)

(** [seenIn kept e]: the name or the value of [e] occurs in [kept]. *)
Definition seenIn (kept : list EnvVar) (e : EnvVar) : Prop :=
  name e ∈ map name kept \/ value e ∈ map value kept.

(** The two sets of [deduplicateEnvVars] hold the names and the values of
    the entries kept so far. *)
Definition dedupInv (st : gset text * gset text * list EnvVar) : Prop :=
  st.1.1 = list_to_set (map name st.2) /\ st.1.2 = list_to_set (map value st.2).

(** [t.toLowerCase().includes("admin")] *)
Definition mentionsAdmin (t : text) : bool :=
  includes (str "admin") (toLowerCase t).

(** The variables one pattern pushes, from the matches of that pattern. *)
Definition pushes (type : EnvVarType) (roleName : option text)
    (ms : list (nat * mstate)) : list EnvVar :=
  omap (fun im => fillStep type roleName im.2) ms.

(** [producedAt code role e i st]: one of the two patterns matches [code]
    at index [i] with final state [st], and the loop body pushes [e] for
    that match. *)
Definition producedAt (playwrightCode : text) (roleName : option text)
    (e : EnvVar) (i : nat) (st : mstate) : Prop :=
  exists fp ms,
    fp ∈ fillPatterns /\
    allMatches (S (length playwrightCode)) (pattern fp) 0 playwrightCode = Some ms /\
    (i, st) ∈ ms /\
    fillStep (ptype fp) roleName st = Some e.

(** The order the specification asks of the output: an entry that comes
    earlier in the output was matched earlier in the transcript. *)
Definition firstMatchOrder (playwrightCode : text) (roleName : option text)
    (out : list EnvVar) : Prop :=
  forall j1 j2 e1 e2,
    j1 < j2 -> out !! j1 = Some e1 -> out !! j2 = Some e2 ->
    exists i1 st1 i2 st2,
      producedAt playwrightCode roleName e1 i1 st1 /\
      producedAt playwrightCode roleName e2 i2 st2 /\
      i1 < i2.

Definition adminName (n : text) : Prop :=
  n = str "QA_ADMIN_EMAIL" \/ n = str "QA_ADMIN_PASSWORD".

(** ** Transcripts as tokens

    A transcript seen as code interleaved with tokens: string literals
    delimited by one quote character, and references to the process
    environment.  A segment is a token and the code that follows it, up to
    the next token. *)

Inductive token :=
| Quoted (q : ascii) (s : text)
| EnvRef (n : text).

#[global] Instance token_eq_dec : EqDecision token.
Proof. solve_decision. Defined.

Definition segment : Type := token * text.

(** The replacement template of [replaceWithEnvVars] for a name. *)
Definition reference (n : text) : text := str "process.env." ++ n.

Definition renderToken (t : token) : text :=
  match t with
  | Quoted q s => q :: s ++ [q]
  | EnvRef n => reference n
  end.

Definition renderSegments (segs : list segment) : text :=
  flat_map (fun sg => renderToken sg.1 ++ sg.2) segs.

Definition render (c0 : text) (segs : list segment) : text :=
  c0 ++ renderSegments segs.

(** A literal whose content is the value of a listed variable becomes the
    reference to the first such variable; any other token stays. *)
Definition redactToken (envVars : list EnvVar) (t : token) : token :=
  match t with
  | Quoted q s =>
      match List.find (fun e => bool_decide (value e = s)) envVars with
      | Some e => EnvRef (name e)
      | None => t
      end
  | EnvRef n => t
  end.

Definition redact (envVars : list EnvVar) (segs : list segment) : list segment :=
  map (fun sg => (redactToken envVars sg.1, sg.2)) segs.

Definition quoteFree (t : text) : bool := forallb notQuote t.

Definition wfToken (t : token) : bool :=
  match t with
  | Quoted q s => quote q && quoteFree s
  | EnvRef n => quoteFree n
  end.

Definition wfSegment (sg : segment) : bool := wfToken sg.1 && quoteFree sg.2.

(** Code and literal contents hold no quote character, and literals are
    delimited by a quote character. *)
Definition wfTranscript (c0 : text) (segs : list segment) : bool :=
  quoteFree c0 && forallb wfSegment segs.

(** What the rewriting needs of a variable, in a transcript: value and
    name hold no quote character, the name holds no dollar sign, the value
    does not contain the text of a reference prefix, and the value is not
    the code that follows a token. *)
Definition redactable (segs : list segment) (e : EnvVar) : bool :=
  quoteFree (value e) && quoteFree (name e) &&
  negb (includes (str "$") (name e)) &&
  negb (includes (str "process.env.") (value e)) &&
  forallb (fun sg : segment => negb (bool_decide (sg.2 = value e))) segs.

Definition isQuotedWith (v : text) (t : token) : bool :=
  match t with
  | Quoted _ s => bool_decide (s = v)
  | EnvRef _ => false
  end.

Definition isEnvRef (n : text) (t : token) : bool :=
  match t with
  | Quoted _ _ => false
  | EnvRef n' => bool_decide (n' = n)
  end.

Definition countTokens (f : token -> bool) (segs : list segment) : nat :=
  length (List.filter (fun sg : segment => f sg.1) segs).

(** ** Occurrences in a text *)

Fixpoint countOcc (p t : text) : nat :=
  (if startsWith p t then 1 else 0) +
  match t with
  | [] => 0
  | _ :: t' => countOcc p t'
  end.

(** Occurrences of [v] between two equal quote characters. *)
Definition quotedOcc (v t : text) : nat :=
  countOcc (sq :: v ++ [sq]) t + countOcc (dq :: v ++ [dq]) t +
  countOcc (bq :: v ++ [bq]) t.

(** The round trip as the specification states it, for a text and a list
    of variables: the rewriting returns, no value remains between quotes,
    and each reference occurs as often as its value occurred between
    quotes. *)
Definition roundTrip (code : text) (envVars : list EnvVar) : Prop :=
  exists out,
    replaceWithEnvVars code envVars = Some out /\
    forall e, e ∈ envVars ->
      quotedOcc (value e) out = 0 /\
      countOcc (reference (name e)) out = quotedOcc (value e) code.

(** The hypotheses of that statement: the list is de-duplicated, no value
    holds a quote character, and every occurrence of a value in the text
    lies between two equal quote characters. *)
Definition roundTripInput (code : text) (envVars : list EnvVar) : Prop :=
  deduplicateEnvVars envVars = envVars /\
  forall e, e ∈ envVars ->
    quoteFree (value e) = true /\
    countOcc (value e) code = quotedOcc (value e) code.

(** The pattern of [replaceWithEnvVars] for a value, once the escaped value
    is read back. *)
Definition quotedPattern (v : text) : regex :=
  seqs [Grp 1 (Cls quote); lit v; Bref 1].

(** [escapeRegex] on one character. *)
Definition escapeChar (c : ascii) : text :=
  if oneOf syntaxChars c then ["\"%char; c] else [c].

(** ** Texts by their quote characters

    Every text is, in one way, quote-free text followed by pieces: a quote
    character and the quote-free text after it. *)

Abbreviation piece := (ascii * text)%type.

Definition renderPieces (ps : list piece) : text :=
  flat_map (fun pc : piece => pc.1 :: pc.2) ps.

Fixpoint splitQuotes (t : text) : text * list piece :=
  match t with
  | [] => ([], [])
  | c :: t' =>
      let '(g, ps) := splitQuotes t' in
      if quote c then ([], (c, g) :: ps) else (c :: g, ps)
  end.

Definition wfPiece (pc : piece) : bool := quote pc.1 && quoteFree pc.2.

(** What a quote character of the text belongs to: the literal of a listed
    variable (its opening quote character, the value, and the closing
    quote character, equal to the opening one), or nothing but itself; and
    a reference that the rewriting has put in for a literal.  An item is a
    mark and the quote-free text after it. *)
Inductive mark :=
| Lit (q : ascii) (e : EnvVar)
| Ref (n : text)
| Quo (q : ascii).

Abbreviation item := (mark * text)%type.

Definition renderMark (m : mark) : text :=
  match m with
  | Lit q e => q :: value e ++ [q]
  | Ref n => reference n
  | Quo q => [q]
  end.

Definition renderItems (items : list item) : text :=
  flat_map (fun it : item => renderMark it.1 ++ it.2) items.

(** The first listed variable with a given value. *)
Definition valueOf (envVars : list EnvVar) (g : text) : option EnvVar :=
  List.find (fun e => bool_decide (value e = g)) envVars.

(** The literals of listed values, from left to right: two pieces with the
    same quote character, the first followed by a listed value, are a
    literal; the text after the second piece follows the literal. *)
Fixpoint markPieces (envVars : list EnvVar) (ps : list piece) : list item :=
  match ps with
  | [] => []
  | (q, g) :: rest =>
      match rest with
      | (q', g') :: rest' =>
          match (if eqc q q' then valueOf envVars g else None) with
          | Some e => (Lit q e, g') :: markPieces envVars rest'
          | None => (Quo q, g) :: markPieces envVars rest
          end
      | [] => [(Quo q, g)]
      end
  end.

(** What one round of [replaceWithEnvVars] does to the items: a literal
    with the value of the variable becomes the reference to its name. *)
Definition redactMark (e0 : EnvVar) (m : mark) : mark :=
  match m with
  | Lit q e => if bool_decide (value e = value e0) then Ref (name e0) else m
  | Ref _ | Quo _ => m
  end.

Definition redactItems (e0 : EnvVar) (items : list item) : list item :=
  map (fun it : item => (redactMark e0 it.1, it.2)) items.

(** All rounds: every literal becomes the reference to its variable. *)
Definition referMark (m : mark) : mark :=
  match m with
  | Lit q e => Ref (name e)
  | Ref _ | Quo _ => m
  end.

Definition wfMark (m : mark) : bool :=
  match m with
  | Lit q e => quote q && quoteFree (value e)
  | Ref n => quoteFree n
  | Quo q => quote q
  end.

Definition wfItem (it : item) : bool := wfMark it.1 && quoteFree it.2.

(** The quote character a mark ends with, and whether a list of items
    starts with a given quote character. *)
Definition closing (m : mark) : option ascii :=
  match m with
  | Lit q _ | Quo q => Some q
  | Ref _ => None
  end.

Definition opens (q : ascii) (items : list item) : bool :=
  match items with
  | (Lit q' _, _) :: _ | (Quo q', _) :: _ => eqc q q'
  | (Ref _, _) :: _ | [] => false
  end.

(** [v] stands between two equal quote characters in marked literals
    only. *)
Fixpoint noWindow (v : text) (items : list item) : bool :=
  match items with
  | [] => true
  | (m, g) :: rest =>
      match closing m with
      | Some q => negb (bool_decide (g = v) && opens q rest)
      | None => true
      end && noWindow v rest
  end.

Definition isLitAt (q : ascii) (v : text) (m : mark) : bool :=
  match m with
  | Lit q' e => eqc q q' && bool_decide (value e = v)
  | Ref _ | Quo _ => false
  end.

Definition isLitOf (v : text) (m : mark) : bool :=
  match m with
  | Lit _ e => bool_decide (value e = v)
  | Ref _ | Quo _ => false
  end.

Definition countMarks (f : mark -> bool) (items : list item) : nat :=
  length (List.filter (fun it : item => f it.1) items).

(** ** Occurrences

    A text as the quoted occurrences of listed values and what lies
    between them: an occurrence is the quote character, the variable and
    the text up to the next occurrence. *)
Abbreviation occurrence := (ascii * EnvVar * text)%type.

Definition withLiterals (c0 : text) (os : list occurrence) : text :=
  c0 ++ flat_map (fun o : occurrence =>
                    (o.1.1 :: value o.1.2 ++ [o.1.1]) ++ o.2) os.

Definition withReferences (c0 : text) (os : list occurrence) : text :=
  c0 ++ flat_map (fun o : occurrence => reference (name o.1.2) ++ o.2) os.

Definition isOccurrenceOf (e : EnvVar) (o : occurrence) : bool :=
  bool_decide (o.1.2 = e).

Fixpoint occurrencesOf (items : list item) : text * list occurrence :=
  match items with
  | [] => ([], [])
  | (m, g) :: rest =>
      let '(t, os) := occurrencesOf rest in
      match m with
      | Lit q e => ([], (q, e, g ++ t) :: os)
      | Ref _ | Quo _ => (renderMark m ++ g ++ t, os)
      end
  end.

(** ** Sample transcripts *)

Definition nl : text := [ascii_of_nat 10].

(** Email field first, then password field, as Playwright codegen writes
    them. *)
Definition loginTranscript : text :=
  str "await page.getByRole('textbox', { name: 'Email' }).fill('alice@example.com');" ++ nl ++
  str "await page.getByRole('textbox', { name: 'Password' }).fill('s3cr3t!');" ++ nl.

Definition loginRedacted : text :=
  str "await page.getByRole('textbox', { name: 'Email' }).fill(process.env.QA_USER_EMAIL);" ++ nl ++
  str "await page.getByRole('textbox', { name: 'Password' }).fill(process.env.QA_USER_PASSWORD);" ++ nl.

Definition loginPasswordRedacted : text :=
  str "await page.getByRole('textbox', { name: 'Email' }).fill('alice@example.com');" ++ nl ++
  str "await page.getByRole('textbox', { name: 'Password' }).fill(process.env.QA_USER_PASSWORD);" ++ nl.

(** Password field first, then email field. *)
Definition passwordFirst : text :=
  str "await page.getByRole('textbox', { name: 'Password' }).fill('s3cr3t!');" ++ nl ++
  str "await page.getByRole('textbox', { name: 'Email' }).fill('alice@corp.io');" ++ nl.

(** The recorded login as tokens. *)
Definition loginCode0 : text := str "await page.getByRole(".
Definition loginSegments : list segment :=
  [ (Quoted sq (str "textbox"), str ", { name: ");
    (Quoted sq (str "Email"), str " }).fill(");
    (Quoted sq (str "alice@example.com"), str ");" ++ nl ++ str "await page.getByRole(");
    (Quoted sq (str "textbox"), str ", { name: ");
    (Quoted sq (str "Password"), str " }).fill(");
    (Quoted sq (str "s3cr3t!"), str ");" ++ nl) ].

(** A value between quotes twice, the two occurrences sharing a quote. *)
Definition sharedQuote : text := str "'a'a'".
Definition varA : EnvVar := mkEnvVar (str "A") (str "a") password.

(** A recorded password field, and what role [$&] makes of it: the name
    holds a replacement pattern. *)
Definition passwordTranscript : text :=
  str "await page.getByRole('textbox', { name: 'Password' }).fill('pw1!');" ++ nl.
Definition dollarVar : EnvVar :=
  mkEnvVar (str "QA_$&_PASSWORD") (str "pw1!") password.
(** A name that holds the value between quote characters. *)
Definition quoteVar : EnvVar :=
  mkEnvVar (str "QA_'pw1!'_PASSWORD") (str "pw1!") password.
Definition passwordUnredacted : text :=
  str "await page.getByRole('textbox', { name: 'Password' }).fill(process.env.QA_'pw1!'_PASSWORD);" ++ nl.

(** A value that is the reference to another variable. *)
Definition nestedQuotes : text := str "''x''".
Definition varX : EnvVar := mkEnvVar (str "N1") (str "x") password.
Definition varRef : EnvVar := mkEnvVar (str "N2") (str "process.env.N1") email.

Definition aliceExample : EnvVar :=
  mkEnvVar (str "QA_USER_EMAIL") (str "alice@example.com") email.
Definition secretUser : EnvVar :=
  mkEnvVar (str "QA_USER_PASSWORD") (str "s3cr3t!") password.
Definition aliceCorp (n : string) : EnvVar :=
  mkEnvVar (str n) (str "alice@corp.io") email.
Definition secretAs (n : string) : EnvVar :=
  mkEnvVar (str n) (str "s3cr3t!") password.

End EnvVars.
Import EnvVars.

(** ** The role registry ([src/core/config.ts]) *)

Module Config.

Record Role := mkRole {
  name : text;
  storagePath : text;
  testMatch : option (list text);
  envVars : option (list text);
  folder : option text
}.

Record GithubActions := mkGithubActions {
  ga_enabled : bool;
  ga_path : text
}.

Record Setup := mkSetup {
  setup_path : text;
  setup_enabled : bool;
  projectName : option text
}.

Record QADirectorConfig := mkConfig {
  baseURL : text;
  testDir : text;
  roles : list Role;
  authDir : text;
  githubActions : GithubActions;
  setup : Setup;
  envDir : text;
  playwrightConfig : text
}.

Definition setRoles (config : QADirectorConfig) (rs : list Role) : QADirectorConfig :=
  mkConfig (baseURL config) (testDir config) rs (authDir config)
    (githubActions config) (setup config) (envDir config)
    (playwrightConfig config).

(** The configuration document on disk, by what [loadConfig] makes of it:
    no file; a file that does not transpile, so that the import is not
    reached; a file that transpiles but whose import throws or whose
    default export fails the schema; or a file holding a configuration.  A
    document written by [saveConfig] holds the configuration that was
    saved. *)
Inductive ConfigFile :=
| NoFile
| Unbuildable
| Invalid
| Document (config : QADirectorConfig).

(** A process of the program: the document on disk, and the entry of the
    transpiled module in the module map of the process.  [loadTSConfig]
    writes the transpiled module to one fixed path and imports it from
    there, and an import of a path that was imported before gives the
    module of the first import again.  [imported] is empty until the first
    import and then holds what that import gave, once the schema is
    applied: a configuration or none. *)
Record Process := mkProcess {
  file : ConfigFile;
  imported : option (option QADirectorConfig)
}.

(** A process that has not imported the configuration yet. *)
Definition start (f : ConfigFile) : Process := mkProcess f None.

Inductive Result (A : Type) :=
| Ok (a : A)
| Throw (message : text).
Arguments Ok {A} a.
Arguments Throw {A} message.

(** Asynchronous functions of the module: a computation on the process
    that returns or throws. *)
Definition Async (A : Type) : Type := Process -> Result A * Process.

Definition ret {A} (a : A) : Async A := fun fs => (Ok a, fs).
Definition throw {A} (message : text) : Async A := fun fs => (Throw message, fs).
Definition await {A B} (c : Async A) (k : A -> Async B) : Async B :=
  fun fs =>
    match c fs with
    | (Ok a, fs') => k a fs'
    | (Throw message, fs') => (Throw message, fs')
    end.

Notation "'let/a' x := c 'in' k" := (await c (fun x => k))
  (at level 10, x name, c at level 100, k at level 200, only parsing).

(** The import of [loadTSConfig] followed by the schema of [loadConfig]:
    [onDisk] is what the document on disk gives.  It is what the call
    returns only when the process has not imported the module before;
    otherwise the call returns what the first import gave. *)
Definition importConfig (onDisk : option QADirectorConfig)
    : Async (option QADirectorConfig) :=
  fun p =>
    match imported p with
    | Some first => (Ok first, p)
    | None => (Ok onDisk, mkProcess (file p) (Some onDisk))
    end.

(** [loadConfig] returns null when the file is absent, and also (after
    printing the error) when an exception is caught. *)
Definition loadConfig : Async (option QADirectorConfig) :=
  fun p =>
    match file p with
    | NoFile => (Ok None, p)
    | Unbuildable => (Ok None, p)
    | Invalid => importConfig None p
    | Document config => importConfig (Some config) p
    end.

Definition saveConfig (config : QADirectorConfig) : Async unit :=
  fun p => (Ok tt, mkProcess (Document config) (imported p)).

Definition notFound : text :=
  str "No qa-director.config.ts found. Run `qa-director init` first.".

Definition nameIsNot (roleName : text) (r : Role) : bool :=
  bool_decide (name r <> roleName).

Definition addRole (role : Role) : Async unit :=
  let/a config := loadConfig in
  match config with
  | None => throw notFound
  | Some config =>
      (* Remove existing role with same name *)
      let roles1 := List.filter (nameIsNot (name role)) (roles config) in
      let roles2 := roles1 ++ [role] in
      saveConfig (setRoles config roles2)
  end.

Definition removeRole (roleName : text) : Async unit :=
  let/a config := loadConfig in
  match config with
  | None => throw notFound
  | Some config =>
      saveConfig (setRoles config (List.filter (nameIsNot roleName) (roles config)))
  end.

(** Vocabulary of the statements about the registry. *)
Definition nameIs (roleName : text) (r : Role) : bool :=
  bool_decide (name r = roleName).

(** The configuration after [addRole role] on a document holding [config]. *)
Definition added (config : QADirectorConfig) (role : Role) : QADirectorConfig :=
  setRoles config (List.filter (nameIsNot (name role)) (roles config) ++ [role]).

(** A later run of the program: a new process on the file as it is. *)
Definition newProcess : Async unit := fun p => (Ok tt, start (file p)).

(** The process after a first load of [config]: the module map holds it. *)
Definition holding (f : ConfigFile) (config : QADirectorConfig) : Process :=
  mkProcess f (Some (Some config)).

Definition sampleConfig : QADirectorConfig :=
  mkConfig (str "http://localhost:3000") (str "e2e")
    [ mkRole (str "admin") (str "auth/admin.json") None None None;
      mkRole (str "user") (str "auth/old.json") None None None ]
    (str "auth") (mkGithubActions false (str ".github/workflows/e2e.yml"))
    (mkSetup (str "e2e/auth.setup.ts") true None) (str ".env.qa")
    (str "playwright.config.ts").

End Config.

(** ** Further functions of the detection module and of its callers *)

Module EnvVarsExtra.

Definition extractEnvVarNames (envVars : list EnvVar) : list text :=
  map name envVars.

(** [validateEnvVars]: a text is truthy when it is not empty; the type, one
    of two non-empty constants, always is. *)
Record Validated := mkValidated {
  valid : list EnvVar;
  invalid : list EnvVar
}.

Definition truthy (t : text) : bool :=
  match t with
  | [] => false
  | _ :: _ => true
  end.

Definition validateStep (acc : Validated) (envVar : EnvVar) : Validated :=
  if truthy (name envVar) && truthy (value envVar)
  then mkValidated (valid acc ++ [envVar]) (invalid acc)
  else mkValidated (valid acc) (invalid acc ++ [envVar]).

Definition validateEnvVars (envVars : list EnvVar) : Validated :=
  foldl validateStep (mkValidated [] []) envVars.

(** [validateRoleName] of the login command: the pattern is a letter
    followed by letters, digits, underscores and hyphens, anchored at both
    ends. *)
Definition roleChar : cclass :=
  fun c => alnum c || eqc c "_" || eqc c "-".

Definition roleNamePattern : regex :=
  seqs [Bol; Cls alpha; Star true roleChar; Eol].

Definition validateRoleName (roleName : text) : bool :=
  test roleNamePattern roleName.

(** Vocabulary: a letter followed by letters and digits. *)
Definition bareIdentifier (t : text) : bool :=
  match t with
  | [] => false
  | c :: t' => alpha c && forallb alnum t'
  end.

(** A character that is neither a quote character nor a dollar sign. *)
Definition safeChar (c : ascii) : bool := notQuote c && negb (eqc "$" c).

(** The test of [validateEnvVars]. *)
Definition wellFormed (e : EnvVar) : bool := truthy (name e) && truthy (value e).

(** The four names [generateEnvVarName] can give for a role. *)
Definition possibleNames (roleName : option text) : list text :=
  [ str "QA_ADMIN_EMAIL"; str "QA_ADMIN_PASSWORD";
    str "QA_" ++ rolePrefixOf roleName ++ str "_EMAIL";
    str "QA_" ++ rolePrefixOf roleName ++ str "_PASSWORD" ].

(** A transcript that locates its fields by label. *)
Definition labelTranscript : text :=
  str "await page.getByLabel('Password').fill('s3cr3t!');" ++ nl.

End EnvVarsExtra.

(** ** Further functions of the role registry *)

Module Registry.
Import Config.

(** [getRoles]: the roles of the configuration, or the empty list. *)
Definition getRoles : Async (list Role) :=
  let/a config := loadConfig in
  ret (match config with
       | Some config => roles config
       | None => []
       end).

(** [getRole]: the first role of that name, or null. *)
Definition getRole (roleName : text) : Async (option Role) :=
  let/a config := loadConfig in
  ret (match config with
       | Some config => List.find (nameIs roleName) (roles config)
       | None => None
       end).

Definition configExists : Async bool :=
  fun p =>
    (Ok (match file p with
         | NoFile => false
         | Unbuildable | Invalid | Document _ => true
         end), p).

(** [Partial<QADirectorConfig>]: each field may be absent. *)
Record PartialConfig := mkPartial {
  p_baseURL : option text;
  p_testDir : option text;
  p_roles : option (list Role);
  p_authDir : option text;
  p_githubActions : option GithubActions;
  p_setup : option Setup;
  p_envDir : option text;
  p_playwrightConfig : option text
}.

(** The spread of [current] and then [updates] into one object. *)
Definition spread (current : QADirectorConfig) (updates : PartialConfig)
    : QADirectorConfig :=
  mkConfig
    (default (baseURL current) (p_baseURL updates))
    (default (testDir current) (p_testDir updates))
    (default (roles current) (p_roles updates))
    (default (authDir current) (p_authDir updates))
    (default (githubActions current) (p_githubActions updates))
    (default (setup current) (p_setup updates))
    (default (envDir current) (p_envDir updates))
    (default (playwrightConfig current) (p_playwrightConfig updates)).

Definition updateConfig (updates : PartialConfig) : Async unit :=
  let/a current := loadConfig in
  match current with
  | None => throw notFound
  | Some current => saveConfig (spread current updates)
  end.

(** The configuration after [removeRole roleName] on a document. *)
Definition removed (config : QADirectorConfig) (roleName : text)
    : QADirectorConfig :=
  setRoles config (List.filter (nameIsNot roleName) (roles config)).

(** A file from which no configuration can be loaded. *)
Definition unusable (f : ConfigFile) : Prop :=
  f = NoFile \/ f = Unbuildable \/ f = Invalid.

End Registry.

(** ** Environment files ([updateEnvFiles], [createEnvFiles] of the file
    helpers, [removeRoleEnvVars] of the eject command)

    The file system is a finite map from paths to contents; reading a path
    that is absent fails. *)

Module Files.
Import Config.

Abbreviation FileSystem := (gmap text text).

Definition examplePathOf (config : QADirectorConfig) : text :=
  envDir config ++ str ".example".

Definition envHeader : text := str "# QA Director Environment Variables" ++ nl.

(** The contents both files get when one of them cannot be read. *)
Definition envTemplate : text :=
  envHeader ++ str "ANTHROPIC_API_KEY=your_anthropic_api_key_here" ++ nl.

(** [a || b] on texts: the empty text is falsy. *)
Definition orElse (a : option text) (b : text) : text :=
  match a with
  | Some (c :: t) => c :: t
  | Some [] | None => b
  end.

Definition createEnvFiles (config : QADirectorConfig) (apiKey : option text)
    (fs : FileSystem) : FileSystem :=
  let envPath := envDir config in
  let examplePath := examplePathOf config in
  let envContent :=
    envHeader ++ str "ANTHROPIC_API_KEY=" ++
    orElse apiKey (str "your_anthropic_api_key_here") ++ nl in
  let exampleContent := envTemplate in
  <[examplePath := exampleContent]> (<[envPath := envContent]> fs).

Definition placeholderFor (envVar : text) : text :=
  str "your_" ++ toLowerCase envVar ++ str "_here".

(** The [try] block: both files are read, and if either read fails both
    contents start from the template. *)
Definition readEnvFiles (config : QADirectorConfig) (fs : FileSystem)
    : text * text :=
  match fs !! envDir config, fs !! examplePathOf config with
  | Some envContent, Some exampleContent => (envContent, exampleContent)
  | _, _ => (envTemplate, envTemplate)
  end.

(** One round of the [for] loop of [updateEnvFiles].  [actualValues] is a
    record of its own members only: a name that is also a member every
    object inherits is looked up as absent here. *)
Definition envFilesStep (actualValues : option (gmap text text))
    (st : text * text) (envVar : text) : text * text :=
  let '(envContent, exampleContent) := st in
  let actualValue := actualValues ≫= (fun values => values !! envVar) in
  let envLine := envVar ++ str "=" ++ orElse actualValue (placeholderFor envVar) ++ nl in
  let exampleLine := envVar ++ str "=" ++ placeholderFor envVar ++ nl in
  (if includes envVar envContent then envContent else envContent ++ envLine,
   if includes envVar exampleContent then exampleContent
   else exampleContent ++ exampleLine).

Definition updateEnvFiles (config : QADirectorConfig) (envVars : list text)
    (actualValues : option (gmap text text)) (fs : FileSystem) : FileSystem :=
  let '(envContent, exampleContent) :=
    foldl (envFilesStep actualValues) (readEnvFiles config fs) envVars in
  <[examplePathOf config := exampleContent]> (<[envDir config := envContent]> fs).

(** [content.split("\n")] and [lines.join("\n")]. *)
Fixpoint splitOn (sep : ascii) (t : text) : list text :=
  match t with
  | [] => [[]]
  | c :: t' =>
      if eqc c sep then [] :: splitOn sep t'
      else match splitOn sep t' with
           | l :: ls => (c :: l) :: ls
           | [] => [[c]]
           end
  end.

Fixpoint joinWith (sep : ascii) (ls : list text) : text :=
  match ls with
  | [] => []
  | [l] => l
  | l :: ls' => l ++ sep :: joinWith sep ls'
  end.

Definition newline : ascii := ascii_of_nat 10.

(** [line.trim()]: white space is removed at both ends (the ASCII white
    space, as for all text here). *)
Fixpoint trimStart (t : text) : text :=
  match t with
  | [] => []
  | c :: t' => if space c then trimStart t' else t
  end.

Definition trim (t : text) : text := rev (trimStart (rev (trimStart t))).

(** The filter of [removeRoleEnvVars]: a line is kept unless its trimmed
    text starts with the variable name and an equals sign. *)
Definition keepsLine (envVar : text) (line : text) : bool :=
  negb (startsWith (envVar ++ str "=") (trim line)).

(** One round of the inner [for] loop, on the content and the flag. *)
Definition removeStep (st : text * bool) (envVar : text) : text * bool :=
  let '(content, modified) := st in
  let lines := splitOn newline content in
  let filteredLines := List.filter (keepsLine envVar) lines in
  if length filteredLines =? length lines then (content, modified)
  else (joinWith newline filteredLines, true).

(** One round of the outer loop: a file that does not exist is skipped, a
    file that was not modified is not written. *)
Definition removeFromFile (envVars : list text) (fs : FileSystem)
    (filePath : text) : FileSystem :=
  match fs !! filePath with
  | None => fs
  | Some content =>
      let '(content', modified) := foldl removeStep (content, false) envVars in
      if modified then <[filePath := content']> fs else fs
  end.

Definition removeRoleEnvVars (config : QADirectorConfig) (role : Role)
    (fs : FileSystem) : FileSystem :=
  match envVars role with
  | None | Some [] => fs
  | Some (v :: vs) =>
      foldl (removeFromFile (v :: vs)) fs [envDir config; examplePathOf config]
  end.

(** Vocabulary: the lines that survive the removal of a list of
    variables. *)
Definition keepsAll (envVars : list text) (line : text) : bool :=
  forallb (fun envVar => keepsLine envVar line) envVars.

Definition withoutLines (envVars : list text) (content : text) : text :=
  joinWith newline (List.filter (keepsAll envVars) (splitOn newline content)).

(** A text that is empty or ends with a line feed. *)
Definition endsLines (content : text) : Prop :=
  content = [] \/ exists c, content = c ++ [newline].

(** A line without a line feed that the removal of the given variables
    rejects. *)
Definition ownLine (envVars : list text) (line : text) : Prop :=
  (newline ∉ line) /\ keepsAll envVars line = false.

(** A name that [updateEnvFiles] adds to a content and
    [removeRoleEnvVars] finds again: it does not occur in the content, has
    no white space in front and holds no line feed. *)
Definition freshName (content : text) (envVar : text) : Prop :=
  includes envVar content = false /\ trimStart envVar = envVar /\
  newline ∉ envVar.

End Files.

(** ** Proof automation *)

(** Case analysis on the 256 characters. *)
Ltac ascii_cases c :=
  destruct c as [[] [] [] [] [] [] [] []]; vm_compute; try reflexivity;
  try discriminate.

(** * Properties *)

(** ** The role registry *)

Module ConfigFacts.
Import Config.

Lemma filter_nameIsNot_idem n (l : list Role) :
  List.filter (nameIsNot n) (List.filter (nameIsNot n) l) = List.filter (nameIsNot n) l.
Proof.
  induction l as [|r l IH]; simpl; [done|].
  destruct (nameIsNot n r) eqn:E; simpl; [rewrite E|]; by rewrite ?IH.
Qed.

Lemma filter_nameIs_nameIsNot n (l : list Role) :
  List.filter (nameIs n) (List.filter (nameIsNot n) l) = [].
Proof.
  induction l as [|r l IH]; simpl; [done|].
  unfold nameIsNot, nameIs in *.
  destruct (decide (name r = n)) as [Heq|Hne].
  - rewrite bool_decide_eq_false_2 by (intros H; by apply H). done.
  - rewrite bool_decide_eq_true_2 by done. simpl.
    rewrite bool_decide_eq_false_2 by done. done.
Qed.

Lemma filter_nameIsNot_absent n (l : list Role) :
  n ∉ map name l -> List.filter (nameIsNot n) l = l.
Proof.
  induction l as [|r l IH]; simpl; [done|].
  intros Hn. apply not_elem_of_cons in Hn as [Hr Hl].
  unfold nameIsNot at 1. rewrite bool_decide_eq_true_2 by done.
  by rewrite IH.
Qed.

Lemma setRoles_same config : setRoles config (roles config) = config.
Proof. by destruct config. Qed.

Lemma addRole_start config role :
  addRole role (start (Document config))
  = (Ok tt, holding (Document (added config role)) config).
Proof. reflexivity. Qed.

(** A process that holds a configuration in its module map works from
    that configuration, whatever the document holds. *)
Lemma addRole_holding config first role :
  addRole role (holding (Document config) first)
  = (Ok tt, holding (Document (added first role)) first).
Proof. reflexivity. Qed.

Lemma added_only_one config role :
  List.filter (nameIs (name role)) (roles (added config role)) = [role].
Proof.
  unfold added. simpl. rewrite List.filter_app, filter_nameIs_nameIsNot. simpl.
  unfold nameIs. by rewrite bool_decide_eq_true_2.
Qed.

Lemma added_twice config role role' :
  name role' = name role ->
  added (added config role) role' = added config role'.
Proof.
  intros Hn. unfold added. simpl. rewrite Hn. f_equal.
  rewrite List.filter_app, filter_nameIsNot_idem. simpl.
  unfold nameIsNot at 2. rewrite bool_decide_eq_false_2 by (intros H; by apply H).
  by rewrite app_nil_r.
Qed.

(** C5. [addRole] on an existing configuration succeeds and leaves exactly
    one role with the name of the supplied role, that role itself.  Adding
    a second role of the same name afterwards (say with another storage
    path), in the same process or in a later one, again leaves exactly one
    role of that name, the second one, and the list is as long as after
    the first call. *)
Theorem addRole_upsert (config : QADirectorConfig) (role role' : Role) :
  name role' = name role ->
  addRole role (start (Document config))
    = (Ok tt, holding (Document (added config role)) config) /\
  List.filter (nameIs (name role)) (roles (added config role)) = [role] /\
  (let/a _ := addRole role in addRole role') (start (Document config))
    = (Ok tt, holding (Document (added config role')) config) /\
  (let/a _ := addRole role in let/a _ := newProcess in addRole role')
    (start (Document config))
    = (Ok tt, holding (Document (added config role')) (added config role)) /\
  List.filter (nameIs (name role)) (roles (added config role')) = [role'] /\
  length (roles (added config role')) = length (roles (added config role)).
Proof.
  intros Hn. split; [apply addRole_start|].
  split; [apply added_only_one|].
  split; [|split].
  - unfold await. by rewrite addRole_start, addRole_holding.
  - unfold await. rewrite addRole_start. cbn [newProcess holding file].
    by rewrite addRole_start, added_twice.
  - split.
    + rewrite <- Hn. apply added_only_one.
    + unfold added. simpl. rewrite Hn, !length_app. done.
Qed.

Lemma addRole_upsert_witness :
  let r1 := mkRole (str "user") (str "auth/user-1.json") None None None in
  let r2 := mkRole (str "user") (str "auth/user-2.json") None None None in
  (let/a _ := addRole r1 in addRole r2) (start (Document sampleConfig))
    = (Ok tt, holding (Document (added sampleConfig r2)) sampleConfig) /\
  List.filter (nameIs (str "user")) (roles (added sampleConfig r2)) = [r2] /\
  length (roles (added sampleConfig r2)) = 2.
Proof.
  intros r1 r2.
  destruct (addRole_upsert sampleConfig r1 r2 eq_refl) as (_ & _ & H3 & _ & H4 & _).
  split; [exact H3|]. split; [exact H4|]. reflexivity.
Defined.



(** C9. Without a configuration document both [addRole] and [removeRole]
    throw the configuration-not-found error to the caller, and nothing is
    written: there is still no document afterwards.  This holds in every
    process, whatever it imported before. *)
Theorem registry_needs_configuration (role : Role) (roleName : text)
    (first : option (option QADirectorConfig)) :
  addRole role (mkProcess NoFile first)
    = (Throw notFound, mkProcess NoFile first) /\
  removeRole roleName (mkProcess NoFile first)
    = (Throw notFound, mkProcess NoFile first).
Proof. split; reflexivity. Qed.

End ConfigFacts.

(** ** De-duplication *)

Module DedupFacts.

Lemma dedupStep_seen st e :
  dedupInv st -> seenIn st.2 e -> dedupStep st e = st.
Proof.
  destruct st as [[sn sv] u]. intros [Hn Hv] Hs. simpl in *. subst sn sv.
  unfold dedupStep.
  destruct Hs as [H|H].
  - rewrite (bool_decide_eq_false_2 (name e ∉ _)); [done|].
    intros Hc. apply Hc. by apply elem_of_list_to_set.
  - rewrite (bool_decide_eq_false_2 (value e ∉ _)), andb_false_r; [done|].
    intros Hc. apply Hc. by apply elem_of_list_to_set.
Qed.

Lemma dedupStep_fresh st e :
  dedupInv st -> ¬ seenIn st.2 e ->
  dedupStep st e = ({[name e]} ∪ st.1.1, {[value e]} ∪ st.1.2, st.2 ++ [e]).
Proof.
  destruct st as [[sn sv] u]. intros [Hn Hv] Hs. simpl in *. subst sn sv.
  unfold dedupStep, seenIn in *.
  rewrite !bool_decide_eq_true_2; [done| |].
  - intros Hc. apply Hs. right. by apply elem_of_list_to_set in Hc.
  - intros Hc. apply Hs. left. by apply elem_of_list_to_set in Hc.
Qed.

Lemma dedupStep_inv st e : dedupInv st -> dedupInv (dedupStep st e).
Proof.
  intros Hi. destruct (decide (seenIn st.2 e)) as [Hs|Hs].
  - by rewrite dedupStep_seen.
  - rewrite dedupStep_fresh by done. destruct Hi as [Hn Hv].
    split; simpl; rewrite map_app, list_to_set_app_L; simpl.
    + by rewrite Hn, union_empty_r_L, (comm_L (∪)).
    + by rewrite Hv, union_empty_r_L, (comm_L (∪)).
Qed.

Lemma foldl_dedup_inv l st : dedupInv st -> dedupInv (foldl dedupStep st l).
Proof.
  revert st. induction l as [|e l IH]; intros st Hi; simpl; [done|].
  apply IH. by apply dedupStep_inv.
Qed.

Lemma dedup_state_inv l : dedupInv (foldl dedupStep (∅, ∅, []) l).
Proof. apply foldl_dedup_inv. split; reflexivity. Qed.

Lemma dedup_snoc_seen l e :
  seenIn (deduplicateEnvVars l) e ->
  deduplicateEnvVars (l ++ [e]) = deduplicateEnvVars l.
Proof.
  intros Hs. unfold deduplicateEnvVars in *. rewrite foldl_app. simpl.
  rewrite dedupStep_seen; auto using dedup_state_inv.
Qed.

Lemma dedup_snoc_fresh l e :
  ¬ seenIn (deduplicateEnvVars l) e ->
  deduplicateEnvVars (l ++ [e]) = deduplicateEnvVars l ++ [e].
Proof.
  intros Hs. unfold deduplicateEnvVars in *. rewrite foldl_app. simpl.
  rewrite dedupStep_fresh; auto using dedup_state_inv.
Qed.

Lemma dedup_sublist l : sublist (deduplicateEnvVars l) l.
Proof.
  induction l as [|e l IH] using rev_ind; [constructor|].
  destruct (decide (seenIn (deduplicateEnvVars l) e)) as [Hs|Hs].
  - rewrite dedup_snoc_seen by done. by apply sublist_inserts_r.
  - rewrite dedup_snoc_fresh by done. by apply sublist_app.
Qed.

Lemma dedup_NoDup l :
  NoDup (map name (deduplicateEnvVars l)) /\
  NoDup (map value (deduplicateEnvVars l)).
Proof.
  induction l as [|e l [IHn IHv]] using rev_ind; [split; constructor|].
  destruct (decide (seenIn (deduplicateEnvVars l) e)) as [Hs|Hs].
  - by rewrite dedup_snoc_seen.
  - rewrite dedup_snoc_fresh by done. rewrite !map_app. simpl.
    split; apply NoDup_app; (split; [done|]); (split; [|apply NoDup_singleton]);
      intros x Hx Hx'; apply list_elem_of_singleton in Hx'; subst x;
      apply Hs; [by left|by right].
Qed.

Lemma dedup_fixed l :
  NoDup (map name l) -> NoDup (map value l) -> deduplicateEnvVars l = l.
Proof.
  induction l as [|e l IH] using rev_ind; [done|].
  rewrite !map_app. simpl. intros Hn Hv.
  apply NoDup_app in Hn as (Hn1 & Hn2 & _).
  apply NoDup_app in Hv as (Hv1 & Hv2 & _).
  rewrite dedup_snoc_fresh; rewrite IH by done; [done|].
  intros [H|H].
  - apply (Hn2 _ H). by apply list_elem_of_singleton.
  - apply (Hv2 _ H). by apply list_elem_of_singleton.
Qed.

(** C3. [deduplicateEnvVars] returns a subsequence of its input in which
    the first occurrence of any name or value wins: the entry that follows
    a list [envVars] is kept exactly when neither its name nor its value
    occurs among the entries kept from [envVars]; if either occurs it is
    dropped, whatever its other field is. *)
Theorem deduplicateEnvVars_first_wins (envVars : list EnvVar) (envVar : EnvVar) :
  sublist (deduplicateEnvVars envVars) envVars /\
  deduplicateEnvVars [] = [] /\
  (seenIn (deduplicateEnvVars envVars) envVar ->
     deduplicateEnvVars (envVars ++ [envVar]) = deduplicateEnvVars envVars) /\
  (¬ seenIn (deduplicateEnvVars envVars) envVar ->
     deduplicateEnvVars (envVars ++ [envVar])
       = deduplicateEnvVars envVars ++ [envVar]).
Proof.
  split; [apply dedup_sublist|]. split; [reflexivity|].
  split; [apply dedup_snoc_seen|apply dedup_snoc_fresh].
Qed.

Lemma deduplicateEnvVars_first_wins_witness :
  let a := mkEnvVar (str "QA_USER_EMAIL") (str "bob@corp.io") email in
  let b := mkEnvVar (str "QA_USER_PASSWORD") (str "hunter2!") password in
  let c := mkEnvVar (str "QA_ADMIN_PASSWORD") (str "hunter2!") password in
  deduplicateEnvVars ([a; b] ++ [c]) = deduplicateEnvVars [a; b] /\
  deduplicateEnvVars ([a] ++ [b]) = deduplicateEnvVars [a] ++ [b].
Proof.
  intros a b c. split.
  - apply (deduplicateEnvVars_first_wins [a; b] c).
    right. vm_compute. apply list_elem_of_In. simpl. auto.
  - apply (deduplicateEnvVars_first_wins [a] b).
    vm_compute. intros [H|H]; apply list_elem_of_In in H; simpl in H;
      destruct H as [H|[]]; discriminate H.
Defined.

(** C7. [deduplicateEnvVars] is idempotent. *)
Theorem deduplicateEnvVars_idempotent (envVars : list EnvVar) :
  deduplicateEnvVars (deduplicateEnvVars envVars) = deduplicateEnvVars envVars.
Proof. apply dedup_fixed; apply dedup_NoDup. Qed.

End DedupFacts.

(** ** The matcher *)

Module RegexFacts.

Lemma eqc_true a b : eqc a b = true <-> a = b.
Proof. unfold eqc. apply bool_decide_eq_true. Qed.

Lemma eqc_refl a : eqc a a = true.
Proof. by apply eqc_true. Qed.

Lemma eqc_sym a b : eqc a b = eqc b a.
Proof. unfold eqc. apply bool_decide_ext. split; congruence. Qed.

Lemma startsWith_app p t : startsWith p (p ++ t) = true.
Proof. induction p as [|a p IH]; simpl; [done|]. by rewrite eqc_refl. Qed.

Lemma startsWith_spec p t :
  startsWith p t = true <-> exists u, t = p ++ u.
Proof.
  split.
  - revert t. induction p as [|a p IH]; intros t H; simpl in *; [by exists t|].
    destruct t as [|b t]; [done|].
    apply andb_true_iff in H as [Hab Hp]. apply eqc_true in Hab as ->.
    destruct (IH _ Hp) as [u ->]. by exists u.
  - intros [u ->]. apply startsWith_app.
Qed.

Lemma startsWith_drop p t :
  startsWith p t = true -> t = p ++ drop (length p) t.
Proof.
  intros H. apply startsWith_spec in H as [u ->].
  by rewrite drop_app_length.
Qed.

Lemma advances_refl st : advances 0 st st.
Proof. exists []. simpl. repeat split; lia. Qed.

Lemma advances_trans n1 n2 st1 st2 st3 :
  advances n1 st1 st2 -> advances n2 st2 st3 -> advances (n1 + n2) st1 st3.
Proof.
  intros (u & Hu & Hp & Hn) (v & Hv & Hq & Hm). exists (u ++ v).
  rewrite length_app, <- app_assoc, <- Hv. repeat split; [done|lia|lia].
Qed.

Lemma advances_weaken n n' st st' : n' <= n -> advances n st st' -> advances n' st st'.
Proof. intros Hle (u & Hu & Hp & Hn). exists u. repeat split; [done|done|lia]. Qed.

Lemma starGreedy_cont f k e : forall s p cs,
  starGreedy f k p cs s = Some e ->
  exists u s', s = u ++ s' /\ k (MState (p + length u) s' cs) = Some e.
Proof.
  induction s as [|c s IH]; intros p cs H; simpl in H.
  - exists [], []. simpl. by rewrite Nat.add_0_r.
  - destruct (f c).
    + destruct (starGreedy f k (S p) cs s) as [e'|] eqn:E.
      * injection H as ->. destruct (IH _ _ E) as (u & s' & -> & Hk).
        exists (c :: u), s'. split; [done|]. simpl.
        by replace (p + S (length u)) with (S p + length u) by lia.
      * exists [], (c :: s). simpl. by rewrite Nat.add_0_r.
    + exists [], (c :: s). simpl. by rewrite Nat.add_0_r.
Qed.

Lemma starLazy_cont f k e : forall s p cs,
  starLazy f k p cs s = Some e ->
  exists u s', s = u ++ s' /\ k (MState (p + length u) s' cs) = Some e.
Proof.
  induction s as [|c s IH]; intros p cs H; simpl in H.
  - destruct (k (MState p [] cs)) as [e'|] eqn:E; [|done].
    exists [], []. simpl. by rewrite Nat.add_0_r, E.
  - destruct (k (MState p (c :: s) cs)) as [e'|] eqn:E.
    + exists [], (c :: s). simpl. by rewrite Nat.add_0_r, E.
    + destruct (f c); [|done].
      destruct (IH _ _ H) as (u & s' & -> & Hk).
      exists (c :: u), s'. split; [done|]. simpl.
      by replace (p + S (length u)) with (S p + length u) by lia.
Qed.

(** A successful match has called its continuation on a state further in
    the subject, by at least [minlen r] characters. *)
Lemma m_cont r : forall st k e,
  m r st k = Some e ->
  exists st', advances (minlen r) st st' /\ k st' = Some e.
Proof.
  induction r as [|c|f|r1 IH1 r2 IH2|r1 IH1 r2 IH2|g f|n r IH|n| |];
    intros st k e H; simpl in H.
  - exists st. split; [apply advances_refl|done].
  - destruct (rest st) as [|x s'] eqn:Hr; [done|].
    destruct (eqc x c); [|done].
    eexists. split; [|exact H]. exists [x]. simpl. rewrite Hr.
    repeat split; lia.
  - destruct (rest st) as [|x s'] eqn:Hr; [done|].
    destruct (f x); [|done].
    eexists. split; [|exact H]. exists [x]. simpl. rewrite Hr.
    repeat split; lia.
  - apply IH1 in H as (st1 & H1 & H). apply IH2 in H as (st2 & H2 & H).
    exists st2. split; [|done]. simpl. by eapply advances_trans.
  - simpl. destruct (m r1 st k) as [e'|] eqn:E.
    + injection H as ->. apply IH1 in E as (st' & Ha & Hk).
      exists st'. split; [|done]. eapply advances_weaken; [|exact Ha]. lia.
    + apply IH2 in H as (st' & Ha & Hk).
      exists st'. split; [|done]. eapply advances_weaken; [|exact Ha]. lia.
  - assert (exists u s', rest st = u ++ s' /\
              k (MState (pos st + length u) s' (caps st)) = Some e)
      as (u & s' & Hu & Hk).
    { destruct g; [by apply (starGreedy_cont f)|by apply (starLazy_cont f)]. }
    eexists. split; [|exact Hk]. exists u. simpl. repeat split; [done|lia].
  - apply IH in H as (st' & Ha & Hk).
    eexists. split; [|exact Hk]. exact Ha.
  - destruct (caps st !! n) as [t|].
    + destruct (startsWith t (rest st)) eqn:Hs; [|done].
      eexists. split; [|exact H]. exists t. simpl.
      repeat split; [by apply startsWith_drop|lia].
    + exists st. split; [apply advances_refl|done].
  - destruct (pos st =? 0)%nat; [|done].
    exists st. split; [apply advances_refl|done].
  - destruct (rest st) eqn:Hr; [|done].
    exists st. split; [apply advances_refl|done].
Qed.

Lemma matchAt_advances r p s e :
  matchAt r p s = Some e ->
  exists u, s = u ++ rest e /\ pos e = p + length u /\ minlen r <= length u.
Proof.
  intros H. apply m_cont in H as (st' & Ha & Hk). injection Hk as ->.
  exact Ha.
Qed.

Lemma search_spec r : forall s p i e,
  search r p s = Some (i, e) ->
  exists skipped u,
    s = skipped ++ u ++ rest e /\ i = p + length skipped /\
    pos e = i + length u /\ minlen r <= length u.
Proof.
  induction s as [|c s IH]; intros p i e H; simpl in H.
  - destruct (matchAt r p []) as [e'|] eqn:E; [|done].
    injection H as <- ->. apply matchAt_advances in E as (u & Hu & Hp & Hn).
    exists [], u. simpl. repeat split; [done|lia|lia|done].
  - destruct (matchAt r p (c :: s)) as [e'|] eqn:E.
    + injection H as <- ->. apply matchAt_advances in E as (u & Hu & Hp & Hn).
      exists [], u. simpl. repeat split; [done|lia|lia|done].
    + apply IH in H as (skipped & u & -> & -> & Hp & Hn).
      exists (c :: skipped), u. simpl. repeat split; [lia|lia|done].
Qed.

(** With a pattern that cannot match the empty text, the sequence of
    matches ends, and the indices of the matches increase. *)
Lemma allMatches_total r : 1 <= minlen r ->
  forall fuel s p, length s < fuel ->
  exists ms, allMatches fuel r p s = Some ms /\
             Forall (fun im => p <= im.1) ms /\
             StronglySorted lt (map fst ms).
Proof.
  intros Hmin. induction fuel as [|fuel IH]; intros s p Hf; [lia|].
  simpl. destruct (search r p s) as [[i e]|] eqn:E.
  - apply search_spec in E as (skipped & u & Hs & Hi & Hp & Hn).
    assert (length (rest e) < fuel) as Hlt.
    { apply (f_equal length) in Hs. rewrite !length_app in Hs. lia. }
    destruct (IH (rest e) (pos e) Hlt) as (ms & -> & Hge & Hsorted).
    exists ((i, e) :: ms). simpl. split; [done|]. split.
    + constructor; [simpl; lia|].
      eapply Forall_impl; [exact Hge|]. simpl. intros; lia.
    + constructor; [done|].
      apply List.Forall_map. eapply Forall_impl; [exact Hge|]. simpl. intros; lia.
  - exists []. repeat split; constructor.
Qed.

End RegexFacts.

(** ** Naming *)

Module NamingFacts.

Lemma generateEnvVarName_admin_context value type fc roleName :
  mentionsAdmin fc = true ->
  generateEnvVarName value type (Some fc) roleName
    = match type with
      | email => str "QA_ADMIN_EMAIL"
      | password => str "QA_ADMIN_PASSWORD"
      end.
Proof.
  unfold mentionsAdmin, generateEnvVarName. intros ->. by destruct type.
Qed.

Lemma generateEnvVarName_admin_value value type fieldContext roleName :
  mentionsAdmin value = true ->
  generateEnvVarName value type fieldContext roleName
    = match type with
      | email => str "QA_ADMIN_EMAIL"
      | password => str "QA_ADMIN_PASSWORD"
      end.
Proof.
  unfold mentionsAdmin, generateEnvVarName. intros ->.
  rewrite orb_true_r. by destruct type.
Qed.

Lemma generateEnvVarName_plain value type fieldContext roleName :
  mentionsAdmin value = false ->
  (forall fc, fieldContext = Some fc -> mentionsAdmin fc = false) ->
  generateEnvVarName value type fieldContext roleName
    = match type with
      | email => str "QA_" ++ rolePrefixOf roleName ++ str "_EMAIL"
      | password => str "QA_" ++ rolePrefixOf roleName ++ str "_PASSWORD"
      end.
Proof.
  unfold mentionsAdmin, generateEnvVarName, rolePrefixOf. intros -> Hfc.
  destruct fieldContext as [fc|]; [rewrite (Hfc fc eq_refl)|]; by destruct type.
Qed.

(** C6. The name is a function of value, kind, field context and role
    name.  With role checkout and kind email, a value and a field context
    that do not contain admin (in any letter case) give QA_CHECKOUT_EMAIL;
    a value or a field context that contains admin gives QA_ADMIN_EMAIL for
    kind email and QA_ADMIN_PASSWORD for kind password, whatever the role
    name. *)
Theorem generateEnvVarName_checkout_and_admin (value : text)
    (fieldContext : option text) :
  (mentionsAdmin value = false ->
   (forall fc, fieldContext = Some fc -> mentionsAdmin fc = false) ->
   generateEnvVarName value email fieldContext (Some (str "checkout"))
     = str "QA_CHECKOUT_EMAIL") /\
  (mentionsAdmin value = true \/
   (exists fc, fieldContext = Some fc /\ mentionsAdmin fc = true) ->
   forall roleName,
     generateEnvVarName value email fieldContext roleName = str "QA_ADMIN_EMAIL" /\
     generateEnvVarName value password fieldContext roleName
       = str "QA_ADMIN_PASSWORD").
Proof.
  split.
  - intros Hv Hfc. by rewrite generateEnvVarName_plain.
  - intros [Hv|(fc & -> & Hfc)] roleName.
    + by rewrite !generateEnvVarName_admin_value.
    + by rewrite !generateEnvVarName_admin_context.
Qed.

Lemma generateEnvVarName_checkout_and_admin_witness :
  generateEnvVarName (str "bob@corp.io") email (Some (str "Email"))
    (Some (str "checkout")) = str "QA_CHECKOUT_EMAIL" /\
  generateEnvVarName (str "bob@corp.io") email (Some (str "Admin Email"))
    (Some (str "user")) = str "QA_ADMIN_EMAIL" /\
  generateEnvVarName (str "ADMIN-pw1!") password None
    (Some (str "checkout")) = str "QA_ADMIN_PASSWORD".
Proof.
  split; [|split].
  - apply (generateEnvVarName_checkout_and_admin (str "bob@corp.io")
             (Some (str "Email"))); [reflexivity|].
    intros fc [= <-]. reflexivity.
  - apply (generateEnvVarName_checkout_and_admin (str "bob@corp.io")
             (Some (str "Admin Email"))).
    right. eexists. split; reflexivity.
  - apply (generateEnvVarName_checkout_and_admin (str "ADMIN-pw1!") None).
    left. reflexivity.
Defined.

(** Which role prefixes give an admin name. *)
Lemma plain_name_admin type rp :
  adminName (match type with
             | email => str "QA_" ++ rp ++ str "_EMAIL"
             | password => str "QA_" ++ rp ++ str "_PASSWORD"
             end) ->
  rp = str "ADMIN".
Proof.
  intros [H|H]; destruct type; simpl in H; injection H as H.
  - change (rp ++ str "_EMAIL" = str "ADMIN" ++ str "_EMAIL") in H.
    by apply app_inv_tail in H.
  - apply (f_equal (@rev ascii)) in H. rewrite rev_app_distr in H.
    simpl in H. discriminate H.
  - apply (f_equal (@rev ascii)) in H. rewrite rev_app_distr in H.
    simpl in H. discriminate H.
  - change (rp ++ str "_PASSWORD" = str "ADMIN" ++ str "_PASSWORD") in H.
    by apply app_inv_tail in H.
Qed.

Lemma rolePrefixOf_admin roleName :
  rolePrefixOf roleName = str "ADMIN" ->
  exists r, roleName = Some r /\ toUpperCase r = str "ADMIN".
Proof.
  destruct roleName as [[|c r]|]; simpl; [discriminate| |discriminate].
  intros H. by exists (c :: r).
Qed.

End NamingFacts.

(** ** Detection *)

Module DetectFacts.
Import RegexFacts NamingFacts DedupFacts.

Lemma fillLoop_allMatches fuel fp roleName : forall p s acc,
  fillLoop fuel fp roleName p s acc
  = (fun ms => acc ++ pushes (ptype fp) roleName ms) <$>
      allMatches fuel (pattern fp) p s.
Proof.
  induction fuel as [|fuel IH]; intros p s acc; simpl; [done|].
  destruct (search (pattern fp) p s) as [[i e]|]; simpl.
  - rewrite IH. destruct (allMatches fuel (pattern fp) (pos e) (rest e)); simpl; [|done].
    f_equal. unfold pushes. simpl.
    destruct (fillStep (ptype fp) roleName e); simpl; by rewrite <- app_assoc.
  - by rewrite app_nil_r.
Qed.

Lemma forEachPattern_cons fp fps playwrightCode roleName acc :
  forEachPattern (fp :: fps) playwrightCode roleName acc
  = fillLoop (S (length playwrightCode)) fp roleName 0 playwrightCode acc
      ≫= forEachPattern fps playwrightCode roleName.
Proof. reflexivity. Qed.

Lemma emailPattern_nonempty : 1 <= minlen emailPattern.
Proof. vm_compute. lia. Qed.

Lemma passwordPattern_nonempty : 1 <= minlen passwordPattern.
Proof. vm_compute. lia. Qed.

(** [detectEnvVars] returns: the two loops end, and the result is the
    de-duplication of the pushes of the first pattern followed by the
    pushes of the second. *)
Lemma detectEnvVars_structure playwrightCode roleName :
  exists ms_e ms_p,
    allMatches (S (length playwrightCode)) emailPattern 0 playwrightCode = Some ms_e /\
    allMatches (S (length playwrightCode)) passwordPattern 0 playwrightCode = Some ms_p /\
    StronglySorted lt (map fst ms_e) /\
    StronglySorted lt (map fst ms_p) /\
    detectEnvVars playwrightCode roleName
      = Some (deduplicateEnvVars
                (pushes email roleName ms_e ++ pushes password roleName ms_p)).
Proof.
  destruct (allMatches_total emailPattern emailPattern_nonempty
              (S (length playwrightCode)) playwrightCode 0)
    as (ms_e & He & _ & Hse); [lia|].
  destruct (allMatches_total passwordPattern passwordPattern_nonempty
              (S (length playwrightCode)) playwrightCode 0)
    as (ms_p & Hp & _ & Hsp); [lia|].
  exists ms_e, ms_p. repeat (split; [done|]).
  unfold detectEnvVars, fillPatterns.
  rewrite forEachPattern_cons, fillLoop_allMatches. cbn [pattern ptype].
  rewrite He. cbn [fmap option_fmap option_map mbind option_bind].
  rewrite forEachPattern_cons, fillLoop_allMatches. cbn [pattern ptype].
  rewrite Hp. done.
Qed.

Lemma fillStep_type type roleName st e :
  fillStep type roleName st = Some e -> EnvVars.type e = type.
Proof.
  unfold fillStep. destruct (caps st !! 2); [|done].
  destruct (_ || _); [done|]. by intros [= <-].
Qed.

Lemma pushes_type type roleName ms :
  Forall (fun e => EnvVars.type e = type) (pushes type roleName ms).
Proof.
  apply Forall_forall. intros e He. unfold pushes in He.
  apply list_elem_of_omap in He as (im & _ & Hf).
  by apply fillStep_type in Hf.
Qed.

Lemma sublist_Forall {A} (P : A -> Prop) (l k : list A) :
  sublist l k -> Forall P k -> Forall P l.
Proof.
  intros Hs Hk. apply Forall_forall. intros x Hx.
  rewrite Forall_forall in Hk. apply Hk. by eapply elem_of_sublist.
Qed.

(** C2, as amended.  [detectEnvVars] returns, and its output is grouped by
    pattern: first the entries kept from the matches of the email/username
    pattern, then those kept from the matches of the password pattern;
    within each group the entries follow the matches of that pattern, whose
    indices in the transcript increase. *)
Theorem detectEnvVars_order (playwrightCode : text) (roleName : option text) :
  exists ms_e ms_p out_e out_p,
    allMatches (S (length playwrightCode)) emailPattern 0 playwrightCode = Some ms_e /\
    allMatches (S (length playwrightCode)) passwordPattern 0 playwrightCode = Some ms_p /\
    StronglySorted lt (map fst ms_e) /\
    StronglySorted lt (map fst ms_p) /\
    detectEnvVars playwrightCode roleName = Some (out_e ++ out_p) /\
    out_e ++ out_p
      = deduplicateEnvVars
          (pushes email roleName ms_e ++ pushes password roleName ms_p) /\
    sublist out_e (pushes email roleName ms_e) /\
    sublist out_p (pushes password roleName ms_p) /\
    Forall (fun e => type e = email) out_e /\
    Forall (fun e => type e = password) out_p.
Proof.
  destruct (detectEnvVars_structure playwrightCode roleName)
    as (ms_e & ms_p & He & Hp & Hse & Hsp & Hd).
  pose proof (dedup_sublist
    (pushes email roleName ms_e ++ pushes password roleName ms_p)) as Hsub.
  apply sublist_app_r in Hsub as (out_e & out_p & Hout & Hsube & Hsubp).
  exists ms_e, ms_p, out_e, out_p. rewrite <- Hout.
  repeat (split; [done|]). split.
  - eapply sublist_Forall; [exact Hsube|apply pushes_type].
  - eapply sublist_Forall; [exact Hsubp|apply pushes_type].
Qed.

Lemma passwordFirst_matches :
  exists st_e st_p,
    allMatches (S (length passwordFirst)) emailPattern 0 passwordFirst
      = Some [(81, st_e)] /\
    allMatches (S (length passwordFirst)) passwordPattern 0 passwordFirst
      = Some [(10, st_p)] /\
    caps st_e !! 1 = Some (str "Email") /\
    caps st_p !! 1 = Some (str "Password").
Proof.
  do 2 eexists.
  split; [vm_compute; reflexivity|]. split; [vm_compute; reflexivity|].
  split; vm_compute; reflexivity.
Qed.

Lemma passwordFirst_producedAt roleName e i st :
  producedAt passwordFirst roleName e i st ->
  (i = 81 /\ type e = email /\ caps st !! 1 = Some (str "Email")) \/
  (i = 10 /\ type e = password /\ caps st !! 1 = Some (str "Password")).
Proof.
  destruct passwordFirst_matches as (st_e & st_p & He & Hp & Hce & Hcp).
  intros (fp & ms & Hfp & Hms & Hin & Hstep).
  apply fillStep_type in Hstep.
  unfold fillPatterns in Hfp.
  apply elem_of_cons in Hfp as [->|Hfp];
    [|apply list_elem_of_singleton in Hfp as ->]; cbn [pattern ptype] in *.
  - rewrite He in Hms. injection Hms as <-. clear He Hp.
    apply list_elem_of_singleton in Hin. injection Hin as -> ->.
    left. auto.
  - rewrite Hp in Hms. injection Hms as <-. clear He Hp.
    apply list_elem_of_singleton in Hin. injection Hin as -> ->.
    right. auto.
Qed.

(** C2 as the specification states it fails: in this transcript the
    password field is filled first, and the output lists the email entry
    first. *)
Lemma first_match_order_counterexample :
  detectEnvVars passwordFirst (Some (str "user"))
    = Some [aliceCorp "QA_USER_EMAIL"; secretAs "QA_USER_PASSWORD"] /\
  ¬ firstMatchOrder passwordFirst (Some (str "user"))
      [aliceCorp "QA_USER_EMAIL"; secretAs "QA_USER_PASSWORD"].
Proof.
  split; [vm_compute; reflexivity|].
  intros H.
  destruct (H 0 1 (aliceCorp "QA_USER_EMAIL") (secretAs "QA_USER_PASSWORD"))
    as (i1 & st1 & i2 & st2 & H1 & H2 & Hlt); [lia|reflexivity|reflexivity|].
  apply passwordFirst_producedAt in H1 as [(-> & _)|(_ & Ht & _)];
    [|discriminate Ht].
  apply passwordFirst_producedAt in H2 as [(_ & Ht & _)|(-> & _)];
    [discriminate Ht|].
  lia.
Qed.

Lemma fillStep_Some type roleName st e :
  fillStep type roleName st = Some e ->
  exists v,
    caps st !! 2 = Some v /\
    isCommonTestData v = false /\
    e = mkEnvVar (generateEnvVarName v type (caps st !! 1) roleName) v type.
Proof.
  unfold fillStep. destruct (caps st !! 2) as [v|]; [|done].
  destruct (isLikelySelector v); [done|]. simpl.
  destruct (isCommonTestData v) eqn:Hc; [done|].
  intros [= <-]. by exists v.
Qed.

(** A value that mentions admin is common test data. *)
Lemma isCommonTestData_admin v :
  isCommonTestData v = false -> mentionsAdmin v = false.
Proof.
  unfold isCommonTestData, mentionsAdmin. intros H.
  destruct (includes (str "admin") (toLowerCase v)) eqn:E; [|done].
  rewrite <- H. symmetry. apply List.existsb_exists.
  exists (str "admin"). split; [|exact E].
  unfold commonTestData. simpl. tauto.
Qed.

Lemma detected_produced playwrightCode roleName out e :
  detectEnvVars playwrightCode roleName = Some out -> e ∈ out ->
  exists i st, producedAt playwrightCode roleName e i st.
Proof.
  intros Hd He.
  destruct (detectEnvVars_structure playwrightCode roleName)
    as (ms_e & ms_p & Hme & Hmp & _ & _ & Hd').
  rewrite Hd in Hd'. injection Hd' as ->.
  eapply elem_of_sublist in He; [|apply dedup_sublist].
  apply elem_of_app in He as [He|He]; unfold pushes in He;
    apply list_elem_of_omap in He as ([i st] & Hin & Hstep); exists i, st.
  - exists (mkFillPattern emailPattern email), ms_e.
    split; [apply list_elem_of_here|]. auto.
  - exists (mkFillPattern passwordPattern password), ms_p.
    split; [apply list_elem_of_further, list_elem_of_here|]. auto.
Qed.

(** C10, as amended.  A variable that [detectEnvVars] emits has a value
    that does not mention admin, so the value-based override of the namer
    is not reached from detection; and it is pushed for a match of one of
    the two patterns such that, if its name is QA_ADMIN_EMAIL or
    QA_ADMIN_PASSWORD, the field context of that match mentions admin or
    the role name is ADMIN in upper case. *)
Theorem detected_admin_names (playwrightCode : text) (roleName : option text)
    (out : list EnvVar) (e : EnvVar) :
  detectEnvVars playwrightCode roleName = Some out ->
  e ∈ out ->
  mentionsAdmin (value e) = false /\
  exists i st,
    producedAt playwrightCode roleName e i st /\
    (adminName (name e) ->
     (exists fc, caps st !! 1 = Some fc /\ mentionsAdmin fc = true) \/
     (exists r, roleName = Some r /\ toUpperCase r = str "ADMIN")).
Proof.
  intros Hd He.
  destruct (detected_produced _ _ _ _ Hd He) as (i & st & Hp).
  pose proof Hp as (fp & ms & _ & _ & _ & Hstep).
  apply fillStep_Some in Hstep as (v & Hv & Hc & ->).
  apply isCommonTestData_admin in Hc. simpl. split; [done|].
  exists i, st. split; [done|]. intros Hadm.
  destruct (caps st !! 1) as [fc|] eqn:Hfc.
  - destruct (mentionsAdmin fc) eqn:Hm; [left; by exists fc|].
    right. apply rolePrefixOf_admin, (plain_name_admin (ptype fp)).
    rewrite generateEnvVarName_plain in Hadm; [done|done|].
    by intros fc' [= <-].
  - right. apply rolePrefixOf_admin, (plain_name_admin (ptype fp)).
    rewrite generateEnvVarName_plain in Hadm; done.
Qed.

Lemma detected_admin_names_witness :
  mentionsAdmin (str "alice@corp.io") = false /\
  exists i st,
    producedAt passwordFirst (Some (str "admin")) (aliceCorp "QA_ADMIN_EMAIL") i st /\
    (adminName (str "QA_ADMIN_EMAIL") ->
     (exists fc, caps st !! 1 = Some fc /\ mentionsAdmin fc = true) \/
     (exists r, Some (str "admin") = Some r /\ toUpperCase r = str "ADMIN")).
Proof.
  apply (detected_admin_names passwordFirst (Some (str "admin"))
           [aliceCorp "QA_ADMIN_EMAIL"; secretAs "QA_ADMIN_PASSWORD"]
           (aliceCorp "QA_ADMIN_EMAIL")).
  - vm_compute. reflexivity.
  - apply list_elem_of_here.
Defined.

(** C10 as stated fails: with role admin the email variable of this
    transcript is named QA_ADMIN_EMAIL, and no match that produces it has
    a field context that mentions admin. *)
Lemma detected_admin_names_counterexample :
  detectEnvVars passwordFirst (Some (str "admin"))
    = Some [aliceCorp "QA_ADMIN_EMAIL"; secretAs "QA_ADMIN_PASSWORD"] /\
  adminName (name (aliceCorp "QA_ADMIN_EMAIL")) /\
  ¬ (exists i st fc,
       producedAt passwordFirst (Some (str "admin"))
         (aliceCorp "QA_ADMIN_EMAIL") i st /\
       caps st !! 1 = Some fc /\ mentionsAdmin fc = true).
Proof.
  split; [vm_compute; reflexivity|]. split; [by left|].
  intros (i & st & fc & Hp & Hfc & Hm).
  apply passwordFirst_producedAt in Hp as [(_ & _ & Hc)|(_ & _ & Hc)];
    rewrite Hc in Hfc; injection Hfc as <-; vm_compute in Hm; discriminate Hm.
Qed.

(** A value that contains a placeholder token is never emitted, whatever
    the transcript. *)
Lemma placeholder_never_detected playwrightCode roleName out e :
  detectEnvVars playwrightCode roleName = Some out -> e ∈ out ->
  isCommonTestData (value e) = false.
Proof.
  intros Hd He.
  destruct (detected_produced _ _ _ _ Hd He) as (i & st & fp & ms & _ & _ & _ & Hstep).
  by apply fillStep_Some in Hstep as (v & _ & Hc & ->).
Qed.

(** C1, as amended.  For the recorded login of role user, the email literal
    contains the placeholder token example and is discarded, so
    [detectEnvVars] returns one credential, the password, named
    QA_USER_PASSWORD; indeed no transcript makes it emit that email value.
    The namer gives QA_USER_EMAIL and QA_USER_PASSWORD for the two fields,
    and [replaceWithEnvVars] with these two variables replaces both quoted
    literals by references to the process environment; with the detected
    list it replaces the password only. *)
Theorem login_scenario :
  detectEnvVars loginTranscript (Some (str "user")) = Some [secretUser] /\
  isCommonTestData (str "alice@example.com") = true /\
  (forall playwrightCode roleName out e,
     detectEnvVars playwrightCode roleName = Some out -> e ∈ out ->
     value e <> str "alice@example.com") /\
  generateEnvVarName (str "alice@example.com") email (Some (str "Email"))
    (Some (str "user")) = str "QA_USER_EMAIL" /\
  generateEnvVarName (str "s3cr3t!") password (Some (str "Password"))
    (Some (str "user")) = str "QA_USER_PASSWORD" /\
  replaceWithEnvVars loginTranscript [aliceExample; secretUser]
    = Some loginRedacted /\
  replaceWithEnvVars loginTranscript [secretUser] = Some loginPasswordRedacted.
Proof.
  do 2 (split; [vm_compute; reflexivity|]).
  split.
  { intros playwrightCode roleName out e Hd He Hv.
    pose proof (placeholder_never_detected _ _ _ _ Hd He) as Hc.
    rewrite Hv in Hc. vm_compute in Hc. discriminate Hc. }
  do 3 (split; [vm_compute; reflexivity|]). vm_compute; reflexivity.
Qed.

(** C1 as the specification states it fails: the output is not the pair of
    an email and a password credential. *)
Lemma login_scenario_counterexample :
  detectEnvVars loginTranscript (Some (str "user"))
    <> Some [aliceExample; secretUser].
Proof. vm_compute. discriminate. Qed.

End DetectFacts.

(** ** Replacement *)

Module ReplaceFacts.
Import RegexFacts DedupFacts.

Lemma includes_cons p c t :
  includes p (c :: t) = startsWith p (c :: t) || includes p t.
Proof. reflexivity. Qed.

Lemma includes_app_r p a b : includes p b = true -> includes p (a ++ b) = true.
Proof.
  intros H. induction a as [|c a IH]; simpl; [done|].
  rewrite IH. apply orb_true_r.
Qed.

Lemma includes_startsWith p t : startsWith p t = true -> includes p t = true.
Proof. destruct t; simpl; by intros ->. Qed.

Lemma includes_middle p a b : includes p (a ++ p ++ b) = true.
Proof. apply includes_app_r, includes_startsWith, startsWith_app. Qed.

(** A template without a dollar sign is its own expansion. *)
Lemma getSubstitution_plain matched subject position captures template :
  includes (str "$") template = false ->
  getSubstitution matched subject position captures template = template.
Proof.
  induction template as [|c t IH]; [done|].
  rewrite includes_cons. intros H. apply orb_false_iff in H as [Hc Ht].
  simpl in Hc. rewrite andb_true_r in Hc.
  simpl. replace (eqc c "$") with false.
  - simpl. by rewrite IH.
  - symmetry. apply not_true_is_false. intros Heq. apply eqc_true in Heq.
    subst c. by rewrite eqc_refl in Hc.
Qed.

Lemma mstate_eta st : MState (pos st) (rest st) (caps st) = st.
Proof. by destruct st. Qed.

(** Literal text matches exactly itself. *)
Lemma m_lit v : forall st k,
  m (lit v) st k
  = if startsWith v (rest st)
    then k (MState (pos st + length v) (drop (length v) (rest st)) (caps st))
    else None.
Proof.
  induction v as [|c v IH]; intros st k; simpl.
  - by rewrite Nat.add_0_r, mstate_eta.
  - destruct (rest st) as [|x s']; [done|].
    rewrite (eqc_sym c x). destruct (eqc x c); [|done]. simpl.
    rewrite IH. simpl. by rewrite Nat.add_succ_r.
Qed.

Lemma startsWith_app_l a b t :
  startsWith (a ++ b) t = startsWith a t && startsWith b (drop (length a) t).
Proof.
  revert t. induction a as [|c a IH]; intros t; simpl; [done|].
  destruct t as [|x t]; [done|]. simpl. by rewrite IH, andb_assoc.
Qed.

(** The pattern built for a value matches at a position exactly when the
    text there is the value between two equal quote characters. *)
Lemma matchAt_quoted v p s :
  matchAt (quotedPattern v) p s
  = match s with
    | q :: s' =>
        if quote q && startsWith (v ++ [q]) s'
        then Some (MState (p + length v + 2) (drop (length v + 1) s')
                     (<[1 := [q]]> ∅))
        else None
    | [] => None
    end.
Proof.
  unfold matchAt, quotedPattern. cbn [seqs m rest pos caps].
  destruct s as [|q s']; [done|].
  destruct (quote q); [|done]. cbn [andb pos rest caps].
  rewrite m_lit. cbn [pos rest caps].
  rewrite startsWith_app_l.
  destruct (startsWith v s'); [|done]. cbn [andb m caps rest pos].
  replace (S p - p) with 1 by lia.
  change (take 1 (q :: s')) with [q].
  rewrite lookup_insert_eq.
  destruct (startsWith [q] (drop (length v) s')); [|done].
  f_equal. f_equal; [simpl; lia|]. by rewrite drop_drop.
Qed.

Lemma search_ge r : forall s p i e, search r p s = Some (i, e) -> p <= i.
Proof.
  intros s p i e H. apply search_spec in H as (? & ? & _ & -> & _). lia.
Qed.

(** A position at which the pattern does not match is copied. *)
Lemma replaceLoop_skip1 fuel r groups template subject p c s :
  matchAt r p (c :: s) = None ->
  replaceLoop (S fuel) r groups template subject p (c :: s)
  = cons c <$> replaceLoop (S fuel) r groups template subject (S p) s.
Proof.
  intros Hm. cbn [replaceLoop search]. rewrite Hm.
  destruct (search r (S p) s) as [[i e]|] eqn:E; [|done].
  pose proof (search_ge _ _ _ _ _ E) as Hle.
  replace (i - p) with (S (i - S p)) by lia. cbn [firstn skipn].
  destruct (pos e =? i).
  - destruct (rest e); [done|].
    by destruct (replaceLoop fuel r groups template subject (S i) l).
  - by destruct (replaceLoop fuel r groups template subject (pos e) (rest e)).
Qed.

Lemma replaceLoop_nil fuel r groups template subject p :
  matchAt r p [] = None ->
  replaceLoop (S fuel) r groups template subject p [] = Some [].
Proof. intros Hm. cbn [replaceLoop search]. by rewrite Hm. Qed.

Lemma getSubstitution_escape matched subject position :
  getSubstitution matched subject position [] (str "\$&")
  = "\"%char :: matched ++ [].
Proof. reflexivity. Qed.

Lemma escapeRegex_loop subject : forall s fuel p,
  length s < fuel ->
  replaceLoop fuel (Cls (oneOf syntaxChars)) 0 (str "\$&") subject p s
  = Some (flat_map escapeChar s).
Proof.
  induction s as [|c s IH]; intros fuel p Hf;
    (destruct fuel as [|fuel]; [simpl in Hf; lia|]).
  - by apply replaceLoop_nil.
  - simpl in Hf. unfold escapeChar at 1. cbn [flat_map].
    destruct (oneOf syntaxChars c) eqn:Hc.
    + cbn [replaceLoop search]. unfold matchAt. cbn [m rest pos caps].
      rewrite Hc. cbn [pos rest caps fmap list_fmap seq].
      rewrite Nat.sub_diag. replace (S p - p) with 1 by lia.
      change (take 1 (drop 0 (c :: s))) with [c].
      rewrite getSubstitution_escape.
      replace (S p =? p) with false by (symmetry; apply Nat.eqb_neq; lia).
      rewrite IH by lia. by rewrite app_nil_r.
    + rewrite replaceLoop_skip1.
      * rewrite IH by lia. done.
      * unfold matchAt. cbn [m rest]. by rewrite Hc.
Qed.

(** [escapeRegex] puts a backslash before every syntax character. *)
Lemma escapeRegex_spec v : escapeRegex v = Some (flat_map escapeChar v).
Proof. apply escapeRegex_loop. lia. Qed.

(** The escaped value reads back as the literal value. *)
Lemma parseAtoms_escape v : parseAtoms (flat_map escapeChar v) = Some (lit v).
Proof.
  induction v as [|c v IH]; [done|].
  cbn [flat_map]. unfold escapeChar at 1.
  destruct (oneOf syntaxChars c) eqn:Hc.
  - cbn [app parseAtoms]. rewrite eqc_refl, Hc, IH. done.
  - cbn [app parseAtoms].
    destruct (eqc c "\") eqn:E1.
    { apply eqc_true in E1. subst c. discriminate Hc. }
    destruct (eqc c ".") eqn:E2.
    { apply eqc_true in E2. subst c. discriminate Hc. }
    rewrite Hc, IH. done.
Qed.

Lemma quotedRegExp_escape v :
  escapeRegex v ≫= quotedRegExp = Some (quotedPattern v).
Proof.
  rewrite escapeRegex_spec. cbn [mbind option_bind]. unfold quotedRegExp.
  by rewrite parseAtoms_escape.
Qed.

Lemma replaceStep_spec code e :
  replaceStep code e
  = replaceGlobal (quotedPattern (value e)) 1 (reference (name e)) code.
Proof.
  unfold replaceStep. rewrite escapeRegex_spec. cbn [mbind option_bind].
  unfold quotedRegExp. rewrite parseAtoms_escape. done.
Qed.

(** *** Quote-free text *)

Lemma quoteFree_app a b : quoteFree (a ++ b) = quoteFree a && quoteFree b.
Proof. apply forallb_app. Qed.

Lemma quoteFree_cons c a : quoteFree (c :: a) = notQuote c && quoteFree a.
Proof. reflexivity. Qed.

Lemma notQuote_quote c : quote c = true -> notQuote c = false.
Proof. unfold notQuote, noneOf, quote. by intros ->. Qed.

Lemma quoteFree_reference n : quoteFree n = true -> quoteFree (reference n) = true.
Proof. intros H. unfold reference. rewrite quoteFree_app, H. reflexivity. Qed.

(** Quote-free text holds no quote character. *)
Lemma quoteFree_no_quote a b q y :
  quoteFree a = true -> quote q = true -> a = b ++ q :: y -> False.
Proof.
  intros Ha Hq ->. rewrite quoteFree_app, quoteFree_cons in Ha.
  rewrite (notQuote_quote _ Hq), andb_false_r in Ha. discriminate Ha.
Qed.

(** The first quote character of a text determines what precedes it. *)
Lemma first_quote a : forall b q q' x y,
  quoteFree a = true -> quoteFree b = true ->
  quote q = true -> quote q' = true ->
  a ++ q' :: x = b ++ q :: y -> a = b.
Proof.
  induction a as [|c a IH]; intros b q q' x y Ha Hb Hq Hq' H.
  - destruct b as [|c' b]; [done|]. simpl in H. injection H as <- _.
    rewrite quoteFree_cons, (notQuote_quote _ Hq') in Hb. discriminate Hb.
  - destruct b as [|c' b]; simpl in H.
    + injection H as -> _.
      rewrite quoteFree_cons, (notQuote_quote _ Hq) in Ha. discriminate Ha.
    + injection H as -> H.
      rewrite quoteFree_cons in Ha, Hb.
      apply andb_true_iff in Ha as [_ Ha]. apply andb_true_iff in Hb as [_ Hb].
      f_equal. exact (IH b q q' x y Ha Hb Hq Hq' H).
Qed.

Lemma startsWith_quoted v q t :
  startsWith (v ++ [q]) t = true -> exists u, t = v ++ q :: u.
Proof.
  intros H. apply startsWith_spec in H as [u ->]. exists u.
  by rewrite <- app_assoc.
Qed.

Lemma renderSegments_cons tok c segs :
  renderSegments ((tok, c) :: segs) = renderToken tok ++ c ++ renderSegments segs.
Proof. unfold renderSegments. simpl. by rewrite <- app_assoc. Qed.

(** After the closing quote of a literal the pattern does not match: the
    text up to the next literal is the code after the literal, possibly
    followed by references and more code. *)
Lemma gap_no_match v q :
  quoteFree v = true -> quote q = true ->
  includes (str "process.env.") v = false ->
  forall segs g,
    quoteFree g = true -> g <> v -> forallb wfSegment segs = true ->
    startsWith (v ++ [q]) (g ++ renderSegments segs) = false.
Proof.
  intros Hv Hq Hpe. induction segs as [|[tok c] segs IH]; intros g Hg Hne Hwf;
    apply not_true_is_false; intros H.
  - apply startsWith_quoted in H as [u H].
    cbn [renderSegments flat_map] in H. rewrite app_nil_r in H.
    by eapply (quoteFree_no_quote g).
  - cbn [forallb] in Hwf. apply andb_true_iff in Hwf as [Hsg Hwf].
    unfold wfSegment in Hsg. cbn [fst snd] in Hsg.
    apply andb_true_iff in Hsg as [Htok Hc].
    rewrite renderSegments_cons in H. destruct tok as [q' s|n]; cbn [wfToken] in Htok.
    + apply andb_true_iff in Htok as [Hq' Hs].
      apply startsWith_quoted in H as [u H]. cbn [renderToken] in H.
      simpl in H. apply Hne. exact (first_quote g v q q' _ _ Hg Hv Hq Hq' H).
    + cbn [renderToken] in H. rewrite !app_assoc in H.
      rewrite <- (app_assoc g) in H.
      rewrite IH in H; [discriminate H| | |done].
      * rewrite !quoteFree_app, Hg, Hc, (quoteFree_reference _ Htok). done.
      * intros Heq. rewrite <- Heq in Hpe. unfold reference in Hpe.
        rewrite <- !app_assoc in Hpe. rewrite includes_middle in Hpe.
        discriminate Hpe.
Qed.

(** Quote-free text is copied. *)
Lemma replaceLoop_skip fuel v groups template subject pre : forall p s,
  quoteFree pre = true ->
  replaceLoop (S fuel) (quotedPattern v) groups template subject p (pre ++ s)
  = app pre <$>
      replaceLoop (S fuel) (quotedPattern v) groups template subject
        (p + length pre) s.
Proof.
  induction pre as [|c pre IH]; intros p s Hpre.
  - cbn [app length]. rewrite Nat.add_0_r.
    by destruct (replaceLoop (S fuel) (quotedPattern v) groups template
                   subject p s).
  - rewrite quoteFree_cons in Hpre. apply andb_true_iff in Hpre as [Hc Hpre].
    rewrite <- app_comm_cons, replaceLoop_skip1.
    + rewrite IH by done. cbn [length]. rewrite Nat.add_succ_r.
      change (S p + length pre) with (S (p + length pre)).
      by destruct (replaceLoop (S fuel) (quotedPattern v) groups template
                     subject (S (p + length pre)) s).
    + rewrite matchAt_quoted. unfold notQuote, noneOf in Hc. unfold quote.
      by destruct (oneOf _ c).
Qed.

Lemma fmap_Some_app {A} (pre : list A) (o : option (list A)) x :
  o = Some x -> app pre <$> o = Some (pre ++ x).
Proof. by intros ->. Qed.

Lemma redact_cons envVars tok c segs :
  redact envVars ((tok, c) :: segs)
  = (redactToken envVars tok, c) :: redact envVars segs.
Proof. reflexivity. Qed.

(** One round of [replaceWithEnvVars] on a transcript of tokens. *)
Lemma replaceLoop_render e :
  quoteFree (value e) = true ->
  includes (str "$") (name e) = false ->
  includes (str "process.env.") (value e) = false ->
  forall segs c0 fuel p subject,
    quoteFree c0 = true ->
    forallb wfSegment segs = true ->
    forallb (fun sg : segment => negb (bool_decide (sg.2 = value e))) segs = true ->
    length segs < fuel ->
    replaceLoop fuel (quotedPattern (value e)) 1 (reference (name e)) subject p
      (c0 ++ renderSegments segs)
    = Some (c0 ++ renderSegments (redact [e] segs)).
Proof.
  intros Hv Hd Hpe.
  assert (includes (str "$") (reference (name e)) = false) as Hd'.
  { unfold reference. simpl. exact Hd. }
  induction segs as [|[tok c] segs IH]; intros c0 fuel p subject Hc0 Hwf Hne Hf;
    (destruct fuel as [|fuel]; [simpl in Hf; lia|]);
    rewrite replaceLoop_skip by done; apply fmap_Some_app.
  - apply replaceLoop_nil. by rewrite matchAt_quoted.
  - cbn [forallb] in Hwf, Hne. cbn [length] in Hf.
    apply andb_true_iff in Hwf as [Hsg Hwf].
    apply andb_true_iff in Hne as [Hcv Hne].
    unfold wfSegment in Hsg. cbn [fst snd] in Hsg, Hcv.
    apply andb_true_iff in Hsg as [Htok Hc].
    apply negb_true_iff, bool_decide_eq_false in Hcv.
    rewrite renderSegments_cons, redact_cons, renderSegments_cons.
    destruct tok as [q s|n]; cbn [wfToken] in Htok.
    + apply andb_true_iff in Htok as [Hq Hs].
      cbn [redactToken List.find]. destruct (decide (value e = s)) as [Heq|Hneq].
      * rewrite (bool_decide_eq_true_2 _ Heq). subst s.
        cbn [renderToken]. rewrite <- app_comm_cons.
        cbn [replaceLoop search]. rewrite matchAt_quoted, Hq, startsWith_app.
        cbn [andb pos rest caps].
        rewrite getSubstitution_plain by done.
        replace (p + length c0 + length (value e) + 2 =? p + length c0)
          with false by (symmetry; apply Nat.eqb_neq; lia).
        rewrite Nat.sub_diag. cbn [firstn app].
        replace (length (value e) + 1) with (length (value e ++ [q]))
          by (rewrite length_app; reflexivity).
        rewrite drop_app_length.
        rewrite (IH c fuel) by (done || lia). done.
      * rewrite (bool_decide_eq_false_2 _ Hneq).
        cbn [renderToken]. rewrite <- app_comm_cons, <- app_assoc.
        rewrite replaceLoop_skip1.
        2: { rewrite matchAt_quoted, Hq. cbn [andb].
             destruct (startsWith (value e ++ [q]) (s ++ [q] ++ c ++ renderSegments segs))
               eqn:E; [|done].
             apply startsWith_quoted in E as [u E]. exfalso. apply Hneq.
             exact (first_quote _ _ _ _ _ _ Hv Hs Hq Hq (eq_sym E)). }
        rewrite replaceLoop_skip by done.
        cbn [app]. rewrite replaceLoop_skip1.
        2: { rewrite matchAt_quoted, Hq. cbn [andb].
             rewrite gap_no_match; done. }
        rewrite (IH c (S fuel)) by (done || lia). cbn [fmap option_fmap option_map].
        by rewrite <- app_assoc.
    + cbn [redactToken renderToken].
      rewrite replaceLoop_skip by (by apply quoteFree_reference).
      rewrite (IH c (S fuel)) by (done || lia). done.
Qed.

Lemma length_renderToken tok : 1 <= length (renderToken tok).
Proof. destruct tok; simpl; lia. Qed.

Lemma length_renderSegments segs : length segs <= length (renderSegments segs).
Proof.
  induction segs as [|[tok c] segs IH]; [done|].
  rewrite renderSegments_cons, !length_app. simpl.
  pose proof (length_renderToken tok). lia.
Qed.

Lemma redact_nil segs : redact [] segs = segs.
Proof.
  unfold redact. induction segs as [|[[q s|n] c] segs IH]; simpl;
    by rewrite ?IH.
Qed.

Lemma redactToken_compose e es tok :
  redactToken es (redactToken [e] tok) = redactToken (e :: es) tok.
Proof.
  destruct tok as [q s|n]; [|done]. cbn [redactToken List.find].
  by destruct (bool_decide (value e = s)).
Qed.

Lemma redact_compose e es segs :
  redact es (redact [e] segs) = redact (e :: es) segs.
Proof.
  unfold redact. rewrite List.map_map. apply List.map_ext.
  intros [tok c]. cbn [fst snd]. by rewrite redactToken_compose.
Qed.

Lemma wfSegment_redact e segs :
  quoteFree (name e) = true ->
  forallb wfSegment segs = true ->
  forallb wfSegment (redact [e] segs) = true.
Proof.
  intros Hn. induction segs as [|[tok c] segs IH]; [done|].
  rewrite redact_cons. cbn [forallb]. intros H.
  apply andb_true_iff in H as [Hsg Hwf]. rewrite IH by done.
  rewrite andb_true_r. unfold wfSegment in *. cbn [fst snd] in *.
  apply andb_true_iff in Hsg as [Htok ->]. rewrite andb_true_r.
  destruct tok as [q s|n]; [|done]. cbn [redactToken List.find].
  by destruct (bool_decide (value e = s)).
Qed.

Lemma codes_redact v envVars segs :
  forallb (fun sg : segment => negb (bool_decide (sg.2 = v))) (redact envVars segs)
  = forallb (fun sg : segment => negb (bool_decide (sg.2 = v))) segs.
Proof.
  induction segs as [|[tok c] segs IH]; [done|].
  rewrite redact_cons. cbn [forallb fst snd]. by rewrite IH.
Qed.

Lemma redactable_redact e segs e' :
  redactable (redact [e] segs) e' = redactable segs e'.
Proof.
  unfold redactable. f_equal. apply codes_redact.
Qed.

(** The rewriting on a transcript of tokens. *)
Lemma replaceWithEnvVars_render : forall envVars segs c0,
  wfTranscript c0 segs = true ->
  forallb (redactable segs) envVars = true ->
  replaceWithEnvVars (render c0 segs) envVars
  = Some (render c0 (redact envVars segs)).
Proof.
  induction envVars as [|e es IH]; intros segs c0 Hwf Hr.
  - by rewrite redact_nil.
  - cbn [forallb] in Hr. apply andb_true_iff in Hr as [He Hes].
    unfold wfTranscript in Hwf. apply andb_true_iff in Hwf as [Hc0 Hsegs].
    unfold redactable in He.
    apply andb_true_iff in He as [He Hcodes].
    apply andb_true_iff in He as [He Hpe]. apply negb_true_iff in Hpe.
    apply andb_true_iff in He as [He Hd]. apply negb_true_iff in Hd.
    apply andb_true_iff in He as [Hv Hn].
    cbn [replaceWithEnvVars]. rewrite replaceStep_spec.
    unfold replaceGlobal, render.
    rewrite (replaceLoop_render e Hv Hd Hpe); [|done|done|done|].
    2: { rewrite length_app. pose proof (length_renderSegments segs). lia. }
    cbn [mbind option_bind]. fold (render c0 (redact [e] segs)).
    rewrite IH.
    + by rewrite redact_compose.
    + unfold wfTranscript. rewrite Hc0. by apply wfSegment_redact.
    + clear -Hes. induction es as [|e' es IHes]; [done|].
      cbn [forallb] in *. apply andb_true_iff in Hes as [H1 H2].
      rewrite redactable_redact, H1. by apply IHes.
Qed.

(** No literal with a listed value is left. *)
Lemma redact_no_quoted envVars segs e q c :
  e ∈ envVars -> (Quoted q (value e), c) ∉ redact envVars segs.
Proof.
  intros He Hin. unfold redact in Hin.
  apply list_elem_of_In, List.in_map_iff in Hin as ([tok c'] & Heq & _).
  cbn [fst snd] in Heq. injection Heq as Htok _.
  destruct tok as [q' s|n]; [|discriminate Htok]. cbn [redactToken] in Htok.
  destruct (List.find _ envVars) eqn:Hf; [discriminate Htok|].
  injection Htok as _ ->.
  apply list_elem_of_In in He.
  pose proof (List.find_none _ _ Hf e He) as Hb. cbn beta in Hb.
  by rewrite bool_decide_eq_true_2 in Hb.
Qed.

Lemma NoDup_map_inj {A B} (f : A -> B) (l : list A) x y :
  NoDup (map f l) -> x ∈ l -> y ∈ l -> f x = f y -> x = y.
Proof.
  induction l as [|a l IH]; intros Hnd Hx Hy Hf; [by apply elem_of_nil in Hx|].
  cbn [map] in Hnd. apply NoDup_cons in Hnd as [Ha Hnd].
  apply elem_of_cons in Hx as [->|Hx]; apply elem_of_cons in Hy as [->|Hy].
  - done.
  - exfalso. apply Ha. rewrite Hf. apply list_elem_of_In, List.in_map.
    by apply list_elem_of_In.
  - exfalso. apply Ha. rewrite <- Hf. apply list_elem_of_In, List.in_map.
    by apply list_elem_of_In.
  - by apply IH.
Qed.

Lemma redactToken_isEnvRef envVars e tok :
  NoDup (map name envVars) -> NoDup (map value envVars) -> e ∈ envVars ->
  isEnvRef (name e) (redactToken envVars tok)
  = isEnvRef (name e) tok || isQuotedWith (value e) tok.
Proof.
  intros Hn Hv He. destruct tok as [q s|n]; [|by rewrite orb_false_r].
  cbn [redactToken isEnvRef isQuotedWith orb].
  destruct (List.find _ envVars) as [e'|] eqn:Hf.
  - apply List.find_some in Hf as [He' Hs]. apply list_elem_of_In in He'.
    apply bool_decide_eq_true in Hs. subst s. cbn [isEnvRef].
    apply bool_decide_ext. split; intros Heq.
    + by rewrite (NoDup_map_inj name envVars e' e Hn He' He Heq).
    + by rewrite (NoDup_map_inj value envVars e' e Hv He' He Heq).
  - cbn [isEnvRef]. symmetry. apply bool_decide_eq_false. intros ->.
    apply list_elem_of_In in He.
    pose proof (List.find_none _ _ Hf e He) as Hb. cbn beta in Hb.
    by rewrite bool_decide_eq_true_2 in Hb.
Qed.

(** Each literal with the value of a listed variable has become one
    reference to that variable. *)
Lemma redact_count envVars e segs :
  NoDup (map name envVars) -> NoDup (map value envVars) -> e ∈ envVars ->
  countTokens (isEnvRef (name e)) (redact envVars segs)
  = countTokens (isEnvRef (name e)) segs
    + countTokens (isQuotedWith (value e)) segs.
Proof.
  intros Hn Hv He. unfold countTokens.
  induction segs as [|[tok c] segs IH]; [done|].
  rewrite redact_cons. cbn [List.filter fst].
  rewrite (redactToken_isEnvRef envVars e tok Hn Hv He).
  destruct tok as [q s|n]; cbn [isEnvRef isQuotedWith orb].
  - destruct (bool_decide (s = value e)); cbn [length]; lia.
  - rewrite orb_false_r. destruct (bool_decide (n = name e)); cbn [length]; lia.
Qed.

Lemma matchAt_quoted_iff v p s :
  is_Some (matchAt (quotedPattern v) p s) <->
  exists q r, quote q = true /\ s = q :: v ++ q :: r.
Proof.
  rewrite matchAt_quoted. destruct s as [|q s'].
  - split; [by intros [? ?]|by intros (? & ? & _ & ?)].
  - destruct (quote q) eqn:Hq; cbn [andb].
    + destruct (startsWith (v ++ [q]) s') eqn:E.
      * split; [|by eexists]. intros _.
        apply startsWith_quoted in E as [u ->]. by exists q, u.
      * split; [by intros [? ?]|]. intros (q' & r & _ & [= <- ->]).
        replace (v ++ q :: r) with ((v ++ [q]) ++ r) in E
          by (by rewrite <- app_assoc).
        by rewrite startsWith_app in E.
    + split; [by intros [? ?]|]. intros (q' & r & Hq' & [= <- ->]). congruence.
Qed.

(** *** No value is left between quotes *)

Lemma countOcc_cons p c t :
  countOcc p (c :: t) = (if startsWith p (c :: t) then 1 else 0) + countOcc p t.
Proof. reflexivity. Qed.

Lemma eqc_quote_notQuote q c : quote q = true -> notQuote c = true -> eqc q c = false.
Proof.
  intros Hq Hc. apply not_true_is_false. intros H. apply eqc_true in H as ->.
  rewrite (notQuote_quote _ Hq) in Hc. discriminate Hc.
Qed.

Lemma countOcc_skip q w pre s :
  quote q = true -> quoteFree pre = true ->
  countOcc (q :: w) (pre ++ s) = countOcc (q :: w) s.
Proof.
  intros Hq. induction pre as [|c pre IH]; [done|].
  rewrite quoteFree_cons. intros H. apply andb_true_iff in H as [Hc Hpre].
  rewrite <- app_comm_cons, countOcc_cons. cbn [startsWith].
  by rewrite (eqc_quote_notQuote _ _ Hq Hc), IH.
Qed.

Lemma quoted_absent v q :
  quoteFree v = true -> quote q = true ->
  includes (str "process.env.") v = false ->
  forall segs c0,
    quoteFree c0 = true ->
    forallb wfSegment segs = true ->
    forallb (fun sg : segment => negb (bool_decide (sg.2 = v))) segs = true ->
    forallb (fun sg : segment => negb (isQuotedWith v sg.1)) segs = true ->
    countOcc (q :: v ++ [q]) (c0 ++ renderSegments segs) = 0.
Proof.
  intros Hv Hq Hpe.
  induction segs as [|[tok c] segs IH]; intros c0 Hc0 Hwf Hne Hnq;
    rewrite countOcc_skip by done.
  - reflexivity.
  - cbn [forallb] in Hwf, Hne, Hnq.
    apply andb_true_iff in Hwf as [Hsg Hwf].
    apply andb_true_iff in Hne as [Hcv Hne].
    apply andb_true_iff in Hnq as [Htv Hnq].
    unfold wfSegment in Hsg. cbn [fst snd] in Hsg, Hcv, Htv.
    apply andb_true_iff in Hsg as [Htok Hc].
    apply negb_true_iff, bool_decide_eq_false in Hcv.
    rewrite renderSegments_cons.
    destruct tok as [q' s|n]; cbn [wfToken isQuotedWith] in Htok, Htv.
    + apply andb_true_iff in Htok as [Hq' Hs].
      apply negb_true_iff, bool_decide_eq_false in Htv.
      cbn [renderToken]. rewrite <- app_comm_cons, <- app_assoc, countOcc_cons.
      cbn [startsWith].
      replace (eqc q q' && startsWith (v ++ [q]) (s ++ [q'] ++ c ++ renderSegments segs))
        with false.
      2: { symmetry. apply not_true_is_false. intros H.
           apply andb_true_iff in H as [Hqq H]. apply eqc_true in Hqq as <-.
           apply startsWith_quoted in H as [u H]. apply Htv.
           exact (first_quote _ _ _ _ _ _ Hs Hv Hq Hq H). }
      rewrite countOcc_skip by done. cbn [app]. rewrite countOcc_cons.
      cbn [startsWith]. rewrite gap_no_match by done.
      rewrite andb_false_r. by apply IH.
    + cbn [renderToken].
      rewrite countOcc_skip by (done || by apply quoteFree_reference).
      by apply IH.
Qed.

Lemma wfSegment_redact_all : forall envVars segs,
  forallb (fun e => quoteFree (name e)) envVars = true ->
  forallb wfSegment segs = true ->
  forallb wfSegment (redact envVars segs) = true.
Proof.
  induction envVars as [|e es IH]; intros segs Hn Hwf.
  - by rewrite redact_nil.
  - cbn [forallb] in Hn. apply andb_true_iff in Hn as [He Hes].
    rewrite <- redact_compose. apply IH; [done|]. by apply wfSegment_redact.
Qed.

Lemma redact_no_quoted_b envVars e segs :
  e ∈ envVars ->
  forallb (fun sg : segment => negb (isQuotedWith (value e) sg.1))
    (redact envVars segs) = true.
Proof.
  intros He. induction segs as [|[tok c] segs IH]; [done|].
  rewrite redact_cons. cbn [forallb fst]. rewrite IH, andb_true_r.
  destruct tok as [q s|n]; [|done]. cbn [redactToken].
  destruct (List.find _ envVars) eqn:Hf; [done|]. cbn [isQuotedWith].
  apply negb_true_iff, bool_decide_eq_false. intros ->.
  apply list_elem_of_In in He.
  pose proof (List.find_none _ _ Hf e He) as Hb. cbn beta in Hb.
  by rewrite bool_decide_eq_true_2 in Hb.
Qed.

Lemma redactable_names segs envVars :
  forallb (redactable segs) envVars = true ->
  forallb (fun e => quoteFree (name e)) envVars = true.
Proof.
  induction envVars as [|e es IH]; [done|]. cbn [forallb]. intros H.
  apply andb_true_iff in H as [He Hes]. rewrite IH by done.
  unfold redactable in He. rewrite !andb_true_iff in He.
  destruct He as ((((_ & ->) & _) & _) & _). done.
Qed.

(** In the rewritten transcript no listed value stands between two equal
    quote characters. *)
Lemma redact_quotedOcc c0 segs envVars e :
  wfTranscript c0 segs = true ->
  forallb (redactable segs) envVars = true ->
  e ∈ envVars ->
  quotedOcc (value e) (render c0 (redact envVars segs)) = 0.
Proof.
  intros Hwf Hr He.
  unfold wfTranscript in Hwf. apply andb_true_iff in Hwf as [Hc0 Hsegs].
  pose proof (redactable_names _ _ Hr) as Hnames.
  rewrite forallb_forall in Hr. apply list_elem_of_In in He as He'.
  specialize (Hr e He'). unfold redactable in Hr. rewrite !andb_true_iff in Hr.
  destruct Hr as ((((Hv & _) & _) & Hpe) & Hcodes).
  apply negb_true_iff in Hpe.
  unfold quotedOcc, render.
  rewrite !(quoted_absent (value e)); try done;
    try (by apply wfSegment_redact_all); try (by rewrite codes_redact);
    by apply redact_no_quoted_b.
Qed.

(** *** Any text, by its quote characters *)

Lemma notQuote_negb c : notQuote c = negb (quote c).
Proof. reflexivity. Qed.

Lemma renderItems_cons m c items :
  renderItems ((m, c) :: items) = renderMark m ++ c ++ renderItems items.
Proof. unfold renderItems. simpl. by rewrite <- app_assoc. Qed.

Lemma renderPieces_cons q g ps :
  renderPieces ((q, g) :: ps) = q :: g ++ renderPieces ps.
Proof. reflexivity. Qed.

Lemma splitQuotes_spec t :
  t = (splitQuotes t).1 ++ renderPieces (splitQuotes t).2 /\
  quoteFree (splitQuotes t).1 = true /\
  forallb wfPiece (splitQuotes t).2 = true.
Proof.
  induction t as [|c t (IH1 & IH2 & IH3)]; [done|]. simpl.
  destruct (splitQuotes t) as [g ps]. cbn [fst snd] in *.
  destruct (quote c) eqn:Hq; cbn [fst snd].
  - split; [|split; [done|]].
    + rewrite renderPieces_cons. cbn [app]. by f_equal.
    + cbn [forallb]. unfold wfPiece at 1. cbn [fst snd]. by rewrite Hq, IH2, IH3.
  - split; [|split; [|done]].
    + cbn [app]. by f_equal.
    + by rewrite quoteFree_cons, notQuote_negb, Hq, IH2.
Qed.

Lemma pieces_ind2 (P : list piece -> Prop) :
  P [] -> (forall pc, P [pc]) ->
  (forall pc pc' rest, P rest -> P (pc' :: rest) -> P (pc :: pc' :: rest)) ->
  forall ps, P ps.
Proof.
  intros H0 H1 H2 ps.
  assert (P ps /\ forall pc, P (pc :: ps)) as [H _]; [|exact H].
  induction ps as [|pc' rest [IH1 IH2]]; [by split|].
  split; [apply IH2|]. intros pc. apply H2; [exact IH1|apply IH2].
Qed.

Lemma markPieces_two envVars q g q' g' rest :
  markPieces envVars ((q, g) :: (q', g') :: rest)
  = match (if eqc q q' then valueOf envVars g else None) with
    | Some e => (Lit q e, g') :: markPieces envVars rest
    | None => (Quo q, g) :: markPieces envVars ((q', g') :: rest)
    end.
Proof. reflexivity. Qed.

Lemma valueOf_Some envVars g e :
  valueOf envVars g = Some e -> e ∈ envVars /\ value e = g.
Proof.
  intros H. apply List.find_some in H as [Hin Hv].
  apply bool_decide_eq_true in Hv. split; [by apply list_elem_of_In|done].
Qed.

Lemma valueOf_None envVars g e :
  valueOf envVars g = None -> e ∈ envVars -> value e <> g.
Proof.
  intros H He Hv. apply list_elem_of_In in He.
  pose proof (List.find_none _ _ H e He) as Hb. cbn beta in Hb.
  by rewrite bool_decide_eq_true_2 in Hb.
Qed.

(** The first piece says how the items start. *)
Lemma markPieces_opens envVars q ps :
  opens q (markPieces envVars ps)
  = match ps with
    | (q', _) :: _ => eqc q q'
    | [] => false
    end.
Proof.
  destruct ps as [|[q0 g] [|[q' g'] rest]]; [done|done|].
  rewrite markPieces_two.
  by destruct (if eqc q0 q' then valueOf envVars g else None).
Qed.

Lemma markPieces_render envVars : forall ps,
  renderItems (markPieces envVars ps) = renderPieces ps.
Proof.
  intros ps.
  induction ps as [|[q g]|[q g] [q' g'] rest IH1 IH2] using pieces_ind2.
  - done.
  - cbn. by rewrite !app_nil_r.
  - rewrite markPieces_two.
    destruct (eqc q q') eqn:Eq.
    + destruct (valueOf envVars g) as [e|] eqn:Ev.
      * apply eqc_true in Eq as <-. apply valueOf_Some in Ev as [_ Hv].
        cbv match.
        rewrite renderItems_cons, IH1, !renderPieces_cons. cbn [renderMark].
        rewrite Hv. cbn [app]. by rewrite <- app_assoc.
      * cbv match. by rewrite renderItems_cons, IH2, !renderPieces_cons.
    + cbv match. by rewrite renderItems_cons, IH2, !renderPieces_cons.
Qed.

Lemma markPieces_wf envVars :
  (forall e, e ∈ envVars -> quoteFree (value e) = true) ->
  forall ps, forallb wfPiece ps = true ->
  forallb wfItem (markPieces envVars ps) = true.
Proof.
  intros Hv ps.
  induction ps as [|[q g]|[q g] [q' g'] rest IH1 IH2] using pieces_ind2; intros H.
  - reflexivity.
  - cbn in *. by rewrite andb_true_r in *.
  - rewrite markPieces_two.
    cbn [forallb] in H. apply andb_true_iff in H as [H1 H].
    pose proof H as H'. apply andb_true_iff in H' as [H2 H3].
    unfold wfPiece in H1, H2. cbn [fst snd] in H1, H2.
    apply andb_true_iff in H1 as [Hq Hg]. apply andb_true_iff in H2 as [Hq' Hg'].
    assert (forallb wfItem ((Quo q, g) :: markPieces envVars ((q', g') :: rest))
            = true) as Hquo.
    { cbn [forallb]. unfold wfItem at 1. cbn [fst snd wfMark].
      by rewrite Hq, Hg, IH2. }
    destruct (eqc q q'); [|exact Hquo].
    destruct (valueOf envVars g) as [e|] eqn:Ev; [|exact Hquo].
    apply valueOf_Some in Ev as [He _].
    cbn [forallb]. unfold wfItem at 1. cbn [fst snd wfMark].
    by rewrite Hq, (Hv e He), Hg', IH1.
Qed.

Lemma markPieces_lit envVars q e g : forall ps,
  (Lit q e, g) ∈ markPieces envVars ps -> e ∈ envVars.
Proof.
  intros ps.
  induction ps as [|[q0 g0]|[q0 g0] [q' g'] rest IH1 IH2] using pieces_ind2.
  - intros H. by apply elem_of_nil in H.
  - intros H. cbn in H. apply list_elem_of_singleton in H. discriminate H.
  - rewrite markPieces_two.
    destruct (if eqc q0 q' then valueOf envVars g0 else None) as [e'|] eqn:E;
      intros H; apply elem_of_cons in H as [H|H]; try (by auto);
      try discriminate H.
    injection H as -> -> ->.
    destruct (eqc q0 q'); [|discriminate E]. by apply valueOf_Some in E as [? _].
Qed.

(** Where no two quoted occurrences of listed values share a quote
    character, every quoted occurrence of a listed value is a marked
    literal. *)
Lemma markPieces_noWindow envVars v :
  (exists e, e ∈ envVars /\ value e = v) ->
  forall ps,
    (forall e q, e ∈ envVars -> quote q = true ->
       includes (q :: value e ++ q :: v ++ [q]) (renderPieces ps) = false) ->
    forallb wfPiece ps = true ->
    noWindow v (markPieces envVars ps) = true.
Proof.
  intros (ev & Hev & Hv) ps.
  induction ps as [|[q g]|[q g] [q' g'] rest IH1 IH2] using pieces_ind2;
    intros Hov Hwf.
  - reflexivity.
  - cbn. by rewrite andb_false_r.
  - rewrite markPieces_two.
    cbn [forallb] in Hwf. apply andb_true_iff in Hwf as [H1 Hwf].
    pose proof Hwf as Hwf'. apply andb_true_iff in Hwf' as [H2 Hwf'].
    unfold wfPiece in H1, H2. cbn [fst snd] in H1, H2.
    apply andb_true_iff in H1 as [Hq _].
    assert (forall e q0, e ∈ envVars -> quote q0 = true ->
              includes (q0 :: value e ++ q0 :: v ++ [q0])
                (renderPieces ((q', g') :: rest)) = false) as Hov2.
    { intros e q0 He Hq0. apply not_true_is_false. intros H.
      specialize (Hov e q0 He Hq0). rewrite renderPieces_cons in Hov.
      pose proof (includes_app_r _ (q :: g) _ H) as H'. cbn [app] in H'.
      congruence. }
    assert (forall e q0, e ∈ envVars -> quote q0 = true ->
              includes (q0 :: value e ++ q0 :: v ++ [q0]) (renderPieces rest)
              = false) as Hov1.
    { intros e q0 He Hq0. apply not_true_is_false. intros H.
      specialize (Hov2 e q0 He Hq0). rewrite renderPieces_cons in Hov2.
      pose proof (includes_app_r _ (q' :: g') _ H) as H'. cbn [app] in H'.
      congruence. }
    destruct (eqc q q') eqn:Eq.
    + destruct (valueOf envVars g) as [e|] eqn:Ev.
      * apply eqc_true in Eq as <-. apply valueOf_Some in Ev as [He Hg].
        cbn [noWindow closing]. rewrite (IH1 Hov1 Hwf'), andb_true_r.
        apply negb_true_iff, not_true_is_false. intros H.
        apply andb_true_iff in H as [Hg' Ho].
        apply bool_decide_eq_true in Hg'. rewrite markPieces_opens in Ho.
        destruct rest as [|[q2 g2] rest]; [discriminate Ho|].
        apply eqc_true in Ho as <-.
        specialize (Hov e q He Hq). rewrite !renderPieces_cons in Hov.
        rewrite <- Hg, Hg' in Hov.
        replace (q :: value e ++ q :: v ++ q :: g2 ++ renderPieces rest)
          with ([] ++ (q :: value e ++ q :: v ++ [q]) ++ g2 ++ renderPieces rest)
          in Hov.
        { rewrite includes_middle in Hov. discriminate Hov. }
        cbn [app]. f_equal. rewrite <- !app_assoc. cbn [app]. f_equal. f_equal.
        by rewrite <- app_assoc.
      * cbn [noWindow closing]. rewrite (IH2 Hov2 Hwf), andb_true_r.
        apply negb_true_iff, not_true_is_false. intros H.
        apply andb_true_iff in H as [Hg _]. apply bool_decide_eq_true in Hg.
        by apply (valueOf_None _ _ ev Ev Hev); rewrite Hv.
    + cbn [noWindow closing]. rewrite (IH2 Hov2 Hwf), andb_true_r.
      apply negb_true_iff, not_true_is_false. intros H.
      apply andb_true_iff in H as [_ Ho]. rewrite markPieces_opens in Ho.
      congruence.
Qed.

(** *** One round on the items *)

(** After a quote character the pattern does not match, unless the text up
    to the next quote character is the value and that quote character is
    the same. *)
Lemma gap_no_window v q :
  quoteFree v = true -> quote q = true ->
  includes (str "process.env.") v = false ->
  forall items g,
    quoteFree g = true -> forallb wfItem items = true ->
    (g = v -> opens q items = false) ->
    startsWith (v ++ [q]) (g ++ renderItems items) = false.
Proof.
  intros Hv Hq Hpe. induction items as [|[mk c] items IH]; intros g Hg Hwf Hno;
    apply not_true_is_false; intros H.
  - apply startsWith_quoted in H as [u H].
    cbn [renderItems flat_map] in H. rewrite app_nil_r in H.
    by eapply (quoteFree_no_quote g).
  - cbn [forallb] in Hwf. apply andb_true_iff in Hwf as [Hit Hwf].
    unfold wfItem in Hit. cbn [fst snd] in Hit.
    apply andb_true_iff in Hit as [Hmk Hc].
    rewrite renderItems_cons in H.
    destruct mk as [q' e|n|q']; cbn [wfMark] in Hmk.
    + apply andb_true_iff in Hmk as [Hq' _].
      apply startsWith_quoted in H as [u H]. cbn [renderMark app] in H.
      pose proof (first_quote g v q q' _ _ Hg Hv Hq Hq' H) as Heq. subst g.
      apply app_inv_head in H. injection H as <- _.
      specialize (Hno eq_refl). cbn [opens] in Hno. by rewrite eqc_refl in Hno.
    + cbn [renderMark] in H. rewrite !app_assoc in H.
      rewrite <- (app_assoc g) in H.
      rewrite IH in H; [discriminate H| |done|].
      * rewrite !quoteFree_app, Hg, Hc, (quoteFree_reference _ Hmk). done.
      * intros Heq. rewrite <- Heq in Hpe. unfold reference in Hpe.
        rewrite <- !app_assoc in Hpe. rewrite includes_middle in Hpe.
        discriminate Hpe.
    + apply startsWith_quoted in H as [u H]. cbn [renderMark app] in H.
      pose proof (first_quote g v q q' _ _ Hg Hv Hq Hmk H) as Heq. subst g.
      apply app_inv_head in H. injection H as <- _.
      specialize (Hno eq_refl). cbn [opens] in Hno. by rewrite eqc_refl in Hno.
Qed.

Lemma noWindow_cons v mk c items :
  noWindow v ((mk, c) :: items) = true ->
  (forall q, closing mk = Some q -> c = v -> opens q items = false) /\
  noWindow v items = true.
Proof.
  cbn [noWindow]. intros H. apply andb_true_iff in H as [H1 H2].
  split; [|done]. intros q Hcl Hc. rewrite Hcl in H1.
  apply negb_true_iff, andb_false_iff in H1 as [H1|H1]; [|done].
  apply bool_decide_eq_false in H1. by destruct H1.
Qed.

Lemma redactItems_cons e mk c items :
  redactItems e ((mk, c) :: items) = (redactMark e mk, c) :: redactItems e items.
Proof. reflexivity. Qed.

(** A quote character that starts no match is copied. *)
Lemma replaceLoop_quote fuel v groups template subject p q s :
  quote q = true ->
  startsWith (v ++ [q]) s = false ->
  replaceLoop (S fuel) (quotedPattern v) groups template subject p (q :: s)
  = cons q <$>
      replaceLoop (S fuel) (quotedPattern v) groups template subject (S p) s.
Proof.
  intros Hq Hs. apply replaceLoop_skip1. by rewrite matchAt_quoted, Hq, Hs.
Qed.

(** One round of [replaceWithEnvVars] on the items of a text. *)
Lemma replaceLoop_items e :
  quoteFree (value e) = true ->
  includes (str "$") (name e) = false ->
  includes (str "process.env.") (value e) = false ->
  forall items c0 fuel p subject,
    quoteFree c0 = true ->
    forallb wfItem items = true ->
    noWindow (value e) items = true ->
    length items < fuel ->
    replaceLoop fuel (quotedPattern (value e)) 1 (reference (name e)) subject p
      (c0 ++ renderItems items)
    = Some (c0 ++ renderItems (redactItems e items)).
Proof.
  intros Hv Hd Hpe.
  assert (includes (str "$") (reference (name e)) = false) as Hd'.
  { unfold reference. simpl. exact Hd. }
  induction items as [|[mk c] items IH]; intros c0 fuel p subject Hc0 Hwf Hno Hf;
    (destruct fuel as [|fuel]; [simpl in Hf; lia|]);
    rewrite replaceLoop_skip by done; apply fmap_Some_app.
  - apply replaceLoop_nil. by rewrite matchAt_quoted.
  - cbn [forallb] in Hwf. cbn [length] in Hf.
    apply andb_true_iff in Hwf as [Hit Hwf].
    apply noWindow_cons in Hno as [Hgap Hno].
    unfold wfItem in Hit. cbn [fst snd] in Hit.
    apply andb_true_iff in Hit as [Hmk Hc].
    rewrite renderItems_cons, redactItems_cons, renderItems_cons.
    destruct mk as [q e'|n|q]; cbn [wfMark] in Hmk.
    + apply andb_true_iff in Hmk as [Hq Hs].
      cbn [redactMark]. destruct (decide (value e' = value e)) as [Heq|Hneq].
      * rewrite (bool_decide_eq_true_2 _ Heq).
        cbn [renderMark]. rewrite Heq, <- app_comm_cons.
        cbn [replaceLoop search]. rewrite matchAt_quoted, Hq.
        rewrite <- !app_assoc, (app_assoc (value e) [q]), startsWith_app.
        cbn [andb pos rest caps].
        rewrite getSubstitution_plain by done.
        replace (p + length c0 + length (value e) + 2 =? p + length c0)
          with false by (symmetry; apply Nat.eqb_neq; lia).
        rewrite Nat.sub_diag. cbn [firstn app].
        replace (length (value e) + 1) with (length (value e ++ [q]))
          by (rewrite length_app; reflexivity).
        rewrite drop_app_length.
        rewrite (IH c fuel) by (done || lia). done.
      * rewrite (bool_decide_eq_false_2 _ Hneq).
        cbn [renderMark]. rewrite <- app_comm_cons, <- app_assoc.
        rewrite replaceLoop_quote; [|done|].
        2: { destruct (startsWith (value e ++ [q])
                         (value e' ++ [q] ++ c ++ renderItems items)) eqn:E; [|done].
             apply startsWith_quoted in E as [u E]. exfalso. apply Hneq.
             exact (first_quote _ _ _ _ _ _ Hs Hv Hq Hq E). }
        rewrite replaceLoop_skip by done.
        cbn [app]. rewrite replaceLoop_quote; [|done|].
        2: { apply gap_no_window; try done. by apply Hgap. }
        rewrite (IH c (S fuel)) by (done || lia). cbn [fmap option_fmap option_map].
        by rewrite <- app_assoc.
    + cbn [redactMark renderMark].
      rewrite replaceLoop_skip by (by apply quoteFree_reference).
      rewrite (IH c (S fuel)) by (done || lia). done.
    + cbn [redactMark renderMark app].
      rewrite replaceLoop_quote; [|done|].
      2: { apply gap_no_window; try done. by apply Hgap. }
      rewrite (IH c (S fuel)) by (done || lia). done.
Qed.

Lemma length_renderMark mk : 1 <= length (renderMark mk).
Proof. destruct mk; simpl; lia. Qed.

Lemma length_renderItems items : length items <= length (renderItems items).
Proof.
  induction items as [|[mk c] items IH]; [done|].
  rewrite renderItems_cons, !length_app. simpl.
  pose proof (length_renderMark mk). lia.
Qed.

Lemma redactItems_wf e items :
  quoteFree (name e) = true ->
  forallb wfItem items = true -> forallb wfItem (redactItems e items) = true.
Proof.
  intros Hn. induction items as [|[mk c] items IH]; [done|].
  rewrite redactItems_cons. cbn [forallb]. intros H.
  apply andb_true_iff in H as [Hit H].
  rewrite (IH H), andb_true_r. unfold wfItem in *. cbn [fst snd] in *.
  apply andb_true_iff in Hit as [Hmk Hc]. rewrite Hc, andb_true_r.
  destruct mk as [q e'|n|q]; cbn [redactMark]; try done.
  by destruct (bool_decide (value e' = value e)).
Qed.

Lemma redactItems_opens e q items :
  opens q (redactItems e items) = true -> opens q items = true.
Proof.
  destruct items as [|[[q' e'|n|q'] c] items]; cbn; try done.
  by destruct (bool_decide (value e' = value e)).
Qed.

Lemma redactItems_noWindow e v items :
  noWindow v items = true -> noWindow v (redactItems e items) = true.
Proof.
  induction items as [|[mk c] items IH]; [done|].
  intros H. apply noWindow_cons in H as [Hgap H].
  rewrite redactItems_cons. cbn [noWindow]. rewrite (IH H), andb_true_r.
  destruct (closing (redactMark e mk)) as [q|] eqn:Hcl; [|done].
  assert (closing mk = Some q) as Hcl'.
  { destruct mk as [q' e'|n|q']; cbn [redactMark] in Hcl; try done.
    by destruct (bool_decide (value e' = value e)). }
  apply negb_true_iff, not_true_is_false. intros Hb.
  apply andb_true_iff in Hb as [Hc Ho]. apply bool_decide_eq_true in Hc.
  apply redactItems_opens in Ho. by rewrite (Hgap q Hcl' Hc) in Ho.
Qed.

(** All rounds. *)
Lemma replaceWithEnvVars_items : forall envVars items c0,
  quoteFree c0 = true ->
  forallb wfItem items = true ->
  (forall e, e ∈ envVars ->
     quoteFree (value e) = true /\ quoteFree (name e) = true /\
     includes (str "$") (name e) = false /\
     includes (str "process.env.") (value e) = false /\
     noWindow (value e) items = true) ->
  replaceWithEnvVars (c0 ++ renderItems items) envVars
  = Some (c0 ++ renderItems
                  (foldl (fun its e => redactItems e its) items envVars)).
Proof.
  induction envVars as [|e es IH]; intros items c0 Hc0 Hwf H; [done|].
  destruct (H e) as (Hv & Hn & Hd & Hpe & Hno); [apply list_elem_of_here|].
  cbn [replaceWithEnvVars foldl]. rewrite replaceStep_spec. unfold replaceGlobal.
  rewrite (replaceLoop_items e Hv Hd Hpe items c0); try done.
  - cbn [mbind option_bind]. apply IH; [done|by apply redactItems_wf|].
    intros e' He'. destruct (H e') as (? & ? & ? & ? & ?);
      [by apply list_elem_of_further|].
    repeat (split; [done|]). by apply redactItems_noWindow.
  - rewrite length_app. pose proof (length_renderItems items). lia.
Qed.

Lemma redactMarks_ref es n :
  foldl (fun mk e => redactMark e mk) (Ref n) es = Ref n.
Proof. by induction es. Qed.

Lemma redactMarks_quo es q :
  foldl (fun mk e => redactMark e mk) (Quo q) es = Quo q.
Proof. by induction es. Qed.

Lemma redactMarks_lit q e : forall es,
  NoDup (map value es) -> e ∈ es ->
  foldl (fun mk e0 => redactMark e0 mk) (Lit q e) es = Ref (name e).
Proof.
  induction es as [|e0 es IH]; intros Hnd He; [by apply elem_of_nil in He|].
  cbn [map] in Hnd. apply NoDup_cons in Hnd as [H0 Hnd].
  cbn [foldl redactMark].
  destruct (decide (value e = value e0)) as [Heq|Hneq].
  - rewrite (bool_decide_eq_true_2 _ Heq), redactMarks_ref.
    apply elem_of_cons in He as [->|He]; [done|].
    exfalso. apply H0. rewrite <- Heq.
    by apply list_elem_of_In, List.in_map, list_elem_of_In.
  - rewrite (bool_decide_eq_false_2 _ Hneq).
    apply elem_of_cons in He as [->|He]; [done|]. by apply IH.
Qed.

Lemma redactItems_all es : forall items,
  foldl (fun its e => redactItems e its) items es
  = map (fun it : item => (foldl (fun mk e => redactMark e mk) it.1 es, it.2))
      items.
Proof.
  induction es as [|e es IH]; intros items; cbn [foldl].
  - induction items as [|[mk c] items IHi]; [done|]. cbn [map fst snd].
    by rewrite <- IHi.
  - rewrite IH. unfold redactItems. rewrite map_map. done.
Qed.

Lemma redactItems_refer es items :
  NoDup (map value es) ->
  (forall q e g, (Lit q e, g) ∈ items -> e ∈ es) ->
  foldl (fun its e => redactItems e its) items es
  = map (fun it : item => (referMark it.1, it.2)) items.
Proof.
  intros Hnd Hin. rewrite redactItems_all.
  induction items as [|[mk c] items IH]; [done|]. cbn [map fst snd].
  rewrite IH.
  - f_equal. f_equal. destruct mk as [q e|n|q]; cbn [referMark].
    + apply redactMarks_lit; [done|]. apply (Hin q e c), list_elem_of_here.
    + apply redactMarks_ref.
    + apply redactMarks_quo.
  - intros q e g H. apply (Hin q e g). by apply list_elem_of_further.
Qed.

(** *** Counting quoted occurrences *)

Lemma countMarks_cons f mk c items :
  countMarks f ((mk, c) :: items)
  = (if f mk then 1 else 0) + countMarks f items.
Proof. unfold countMarks. cbn [List.filter fst]. by destruct (f mk). Qed.

(** The occurrences of a value between two quote characters [q] are the
    marked literals with that value and that quote character. *)
Lemma countOcc_items v q :
  quoteFree v = true -> quote q = true ->
  includes (str "process.env.") v = false ->
  forall items,
    forallb wfItem items = true -> noWindow v items = true ->
    countOcc (q :: v ++ [q]) (renderItems items) = countMarks (isLitAt q v) items.
Proof.
  intros Hv Hq Hpe. induction items as [|[mk c] items IH]; intros Hwf Hno;
    [reflexivity|].
  cbn [forallb] in Hwf. apply andb_true_iff in Hwf as [Hit Hwf].
  apply noWindow_cons in Hno as [Hgap Hno].
  unfold wfItem in Hit. cbn [fst snd] in Hit.
  apply andb_true_iff in Hit as [Hmk Hc].
  assert (countOcc (q :: v ++ [q]) (c ++ renderItems items)
          = countMarks (isLitAt q v) items) as Htail.
  { rewrite countOcc_skip by done. by apply IH. }
  assert (forall q', quote q' = true -> closing mk = Some q' ->
            countOcc (q :: v ++ [q]) (q' :: c ++ renderItems items)
            = countMarks (isLitAt q v) items) as Hclose.
  { intros q' Hq' Hcl. rewrite countOcc_cons, Htail. cbn [startsWith].
    destruct (eqc q q') eqn:E; [|done]. apply eqc_true in E as <-.
    rewrite gap_no_window; try done. intros Heq. by apply Hgap. }
  rewrite renderItems_cons, countMarks_cons.
  destruct mk as [q' e|n|q']; cbn [wfMark] in Hmk; cbn [renderMark isLitAt].
  - apply andb_true_iff in Hmk as [Hq' He].
    rewrite <- app_comm_cons, <- app_assoc, countOcc_cons.
    rewrite countOcc_skip by done. cbn [app].
    rewrite (Hclose q' Hq' eq_refl). f_equal. cbn [startsWith].
    destruct (eqc q q') eqn:E; [|done]. apply eqc_true in E as <-. cbn [andb].
    destruct (decide (value e = v)) as [Heq|Hneq].
    + rewrite (bool_decide_eq_true_2 _ Heq), Heq.
      change (q :: c ++ renderItems items) with ([q] ++ c ++ renderItems items).
      by rewrite app_assoc, startsWith_app.
    + rewrite (bool_decide_eq_false_2 _ Hneq).
      destruct (startsWith (v ++ [q]) (value e ++ q :: c ++ renderItems items))
        eqn:E; [|done].
      apply startsWith_quoted in E as [u E]. exfalso. apply Hneq.
      exact (first_quote _ _ _ _ _ _ He Hv Hq Hq E).
  - rewrite app_assoc, countOcc_skip, IH; try done.
    by rewrite quoteFree_app, (quoteFree_reference _ Hmk), Hc.
  - cbn [app]. by rewrite (Hclose q' Hmk eq_refl).
Qed.

Lemma quote_cases q : quote q = true -> q = sq \/ q = dq \/ q = bq.
Proof.
  unfold quote, oneOf. intros H. apply bool_decide_eq_true in H.
  repeat (apply elem_of_cons in H as [H|H]; [auto|]). by apply elem_of_nil in H.
Qed.

Lemma isLitAt_sum v mk :
  wfMark mk = true ->
  (if isLitAt sq v mk then 1 else 0) + (if isLitAt dq v mk then 1 else 0) +
  (if isLitAt bq v mk then 1 else 0)
  = if isLitOf v mk then 1 else 0.
Proof.
  destruct mk as [q e|n|q]; try done. cbn [wfMark isLitAt isLitOf]. intros H.
  apply andb_true_iff in H as [Hq _].
  destruct (bool_decide (value e = v)); rewrite ?andb_false_r, ?andb_true_r;
    [|done].
  destruct (quote_cases q Hq) as [-> | [-> | ->]]; reflexivity.
Qed.

(** The occurrences of a value between two equal quote characters are the
    marked literals with that value. *)
Lemma quotedOcc_items v c0 items :
  quoteFree v = true -> includes (str "process.env.") v = false ->
  quoteFree c0 = true ->
  forallb wfItem items = true -> noWindow v items = true ->
  quotedOcc v (c0 ++ renderItems items) = countMarks (isLitOf v) items.
Proof.
  intros Hv Hpe Hc0 Hwf Hno. unfold quotedOcc.
  rewrite !countOcc_skip by done. rewrite !countOcc_items by done.
  clear Hno. induction items as [|[mk c] items IH]; [done|].
  cbn [forallb] in Hwf. apply andb_true_iff in Hwf as [Hit Hwf].
  unfold wfItem in Hit. cbn [fst snd] in Hit.
  apply andb_true_iff in Hit as [Hmk _].
  rewrite !countMarks_cons, <- (IH Hwf), <- (isLitAt_sum v mk Hmk). lia.
Qed.

Lemma redactAll_wf es : forall items,
  (forall e, e ∈ es -> quoteFree (name e) = true) ->
  forallb wfItem items = true ->
  forallb wfItem (foldl (fun its e => redactItems e its) items es) = true.
Proof.
  induction es as [|e es IH]; intros items Hn Hwf; [done|]. cbn [foldl].
  apply IH.
  - intros e' He'. apply Hn. by apply list_elem_of_further.
  - apply redactItems_wf; [|done]. apply Hn, list_elem_of_here.
Qed.

Lemma redactAll_noWindow v es : forall items,
  noWindow v items = true ->
  noWindow v (foldl (fun its e => redactItems e its) items es) = true.
Proof.
  induction es as [|e es IH]; intros items H; [done|]. cbn [foldl].
  by apply IH, redactItems_noWindow.
Qed.

Lemma countMarks_refer v items :
  countMarks (isLitOf v) (map (fun it : item => (referMark it.1, it.2)) items) = 0.
Proof.
  induction items as [|[mk c] items IH]; [done|]. cbn [map fst snd].
  rewrite countMarks_cons, IH. by destruct mk.
Qed.

(** *** Occurrences *)

Lemma occurrencesOf_cons mk c items :
  occurrencesOf ((mk, c) :: items)
  = match mk with
    | Lit q e =>
        ([], (q, e, c ++ (occurrencesOf items).1) :: (occurrencesOf items).2)
    | Ref _ | Quo _ =>
        (renderMark mk ++ c ++ (occurrencesOf items).1, (occurrencesOf items).2)
    end.
Proof. cbn [occurrencesOf]. by destruct (occurrencesOf items), mk. Qed.

Lemma occurrencesOf_literals items :
  renderItems items
  = withLiterals (occurrencesOf items).1 (occurrencesOf items).2.
Proof.
  induction items as [|[mk c] items IH]; [done|].
  rewrite renderItems_cons, IH, occurrencesOf_cons. unfold withLiterals.
  destruct mk as [q e|n|q]; cbn [fst snd flat_map renderMark app];
    by rewrite <- ?app_assoc.
Qed.

Lemma occurrencesOf_references items :
  renderItems (map (fun it : item => (referMark it.1, it.2)) items)
  = withReferences (occurrencesOf items).1 (occurrencesOf items).2.
Proof.
  induction items as [|[mk c] items IH]; [done|]. cbn [map fst snd].
  rewrite renderItems_cons, IH, occurrencesOf_cons. unfold withReferences.
  destruct mk as [q e|n|q]; cbn [fst snd flat_map renderMark referMark app];
    by rewrite <- ?app_assoc.
Qed.

Lemma occurrencesOf_elem items q e t :
  (q, e, t) ∈ (occurrencesOf items).2 -> exists g, (Lit q e, g) ∈ items.
Proof.
  induction items as [|[mk c] items IH]; [intros H; by apply elem_of_nil in H|].
  rewrite occurrencesOf_cons. destruct mk as [q' e'|n|q']; cbn [snd]; intros H.
  - apply elem_of_cons in H as [H|H].
    + injection H as -> -> _. exists c. apply list_elem_of_here.
    + destruct (IH H) as [g Hg]. exists g. by apply list_elem_of_further.
  - destruct (IH H) as [g Hg]. exists g. by apply list_elem_of_further.
  - destruct (IH H) as [g Hg]. exists g. by apply list_elem_of_further.
Qed.

Lemma occurrencesOf_count es e items :
  NoDup (map value es) -> e ∈ es ->
  (forall q e' g, (Lit q e', g) ∈ items -> e' ∈ es) ->
  length (List.filter (isOccurrenceOf e) (occurrencesOf items).2)
  = countMarks (isLitOf (value e)) items.
Proof.
  intros Hnd He. induction items as [|[mk c] items IH]; intros Hin; [done|].
  rewrite occurrencesOf_cons, countMarks_cons.
  assert (length (List.filter (isOccurrenceOf e) (occurrencesOf items).2)
          = countMarks (isLitOf (value e)) items) as IH'.
  { apply IH. intros q e' g H. apply (Hin q e' g). by apply list_elem_of_further. }
  destruct mk as [q e'|n|q]; cbn [snd isLitOf]; [|done|done].
  cbn [List.filter]. unfold isOccurrenceOf at 1. cbn [fst snd].
  assert (e' ∈ es) as He' by (apply (Hin q e' c), list_elem_of_here).
  destruct (decide (e' = e)) as [->|Hne].
  - rewrite !bool_decide_eq_true_2 by done. cbn [length]. by rewrite IH'.
  - rewrite (bool_decide_eq_false_2 (e' = e)) by done.
    rewrite bool_decide_eq_false_2; [done|]. intros Hv. apply Hne.
    by apply (NoDup_map_inj value es).
Qed.

Lemma wfItem_lit items q e g :
  forallb wfItem items = true -> (Lit q e, g) ∈ items -> quote q = true.
Proof.
  intros Hwf Hin. rewrite forallb_forall in Hwf.
  apply list_elem_of_In in Hin. specialize (Hwf _ Hin).
  unfold wfItem in Hwf. cbn in Hwf. by repeat (apply andb_true_iff in Hwf as [Hwf _]).
Qed.



Lemma passwordTranscript_rewritten :
  replaceWithEnvVars passwordTranscript [dollarVar] = Some passwordUnredacted.
Proof. vm_compute. reflexivity. Qed.

Lemma passwordTranscript_quoteVar :
  replaceWithEnvVars passwordTranscript [quoteVar] = Some passwordUnredacted.
Proof. vm_compute. reflexivity. Qed.

Lemma sharedQuote_rewritten :
  replaceWithEnvVars sharedQuote [varA] = Some (str "process.env.Aa'").
Proof. vm_compute. reflexivity. Qed.

Lemma nestedQuotes_rewritten :
  replaceWithEnvVars nestedQuotes [varRef; varX] = Some (str "'process.env.N1'").
Proof. vm_compute. reflexivity. Qed.


End ReplaceFacts.

(** * Further properties *)

(** ** More on the matcher *)

Module RegexMore.
Import RegexFacts.

(** The characters a starred class consumes belong to the class. *)
Lemma starGreedy_consumed f k e : forall s p cs,
  starGreedy f k p cs s = Some e ->
  exists u s', s = u ++ s' /\ forallb f u = true /\
               k (MState (p + length u) s' cs) = Some e.
Proof.
  induction s as [|c s IH]; intros p cs H; simpl in H.
  - exists [], []. simpl. by rewrite Nat.add_0_r.
  - destruct (f c) eqn:Hf.
    + destruct (starGreedy f k (S p) cs s) as [e'|] eqn:E.
      * injection H as ->. destruct (IH _ _ E) as (u & s' & -> & Hu & Hk).
        exists (c :: u), s'. simpl. rewrite Hf, Hu.
        by rewrite Nat.add_succ_r.
      * exists [], (c :: s). simpl. by rewrite Nat.add_0_r.
    + exists [], (c :: s). simpl. by rewrite Nat.add_0_r.
Qed.

(** Greedy repetition over a text of the class takes all of it when the
    continuation accepts the end. *)
Lemma starGreedy_all f k e : forall s p cs,
  forallb f s = true ->
  k (MState (p + length s) [] cs) = Some e ->
  starGreedy f k p cs s = Some e.
Proof.
  induction s as [|c s IH]; intros p cs Hs Hk; simpl in *.
  - by rewrite Nat.add_0_r in Hk.
  - apply andb_true_iff in Hs as [-> Hs].
    rewrite (IH (S p) cs Hs); [done|]. by rewrite Nat.add_succ_r in Hk.
Qed.

Lemma m_Plus f st k e :
  m (Plus f) st k = Some e ->
  exists u s', u <> [] /\ forallb f u = true /\ rest st = u ++ s' /\
               k (MState (pos st + length u) s' (caps st)) = Some e.
Proof.
  unfold Plus. cbn [m]. destruct (rest st) as [|x s] eqn:Hr; [done|].
  destruct (f x) eqn:Hx; [|done]. cbn [pos rest caps]. intros H.
  apply starGreedy_consumed in H as (u & s' & -> & Hu & Hk).
  exists (x :: u), s'. simpl. rewrite Hx, Hu.
  split; [done|]. split; [done|]. split; [done|]. by rewrite Nat.add_succ_r.
Qed.

(** The tail of a sequence is matched from a state further on. *)
Lemma m_seqs_app a b : forall st k e,
  m (seqs (a ++ b)) st k = Some e ->
  exists st', advances 0 st st' /\ m (seqs b) st' k = Some e.
Proof.
  induction a as [|r a IH]; intros st k e H.
  - exists st. split; [apply advances_refl|done].
  - cbn [app seqs m] in H. apply m_cont in H as (st1 & Ha & H).
    apply IH in H as (st2 & Hb & H). exists st2. split; [|done].
    eapply advances_weaken; [|exact (advances_trans _ _ _ _ _ Ha Hb)]. lia.
Qed.

Lemma search_matchAt r : forall s p i e,
  search r p s = Some (i, e) ->
  exists skipped s1,
    s = skipped ++ s1 /\ i = p + length skipped /\ matchAt r i s1 = Some e.
Proof.
  induction s as [|c s IH]; intros p i e H; simpl in H.
  - destruct (matchAt r p []) as [e'|] eqn:E; [|done].
    injection H as <- <-. exists [], []. simpl. by rewrite Nat.add_0_r.
  - destruct (matchAt r p (c :: s)) as [e'|] eqn:E.
    + injection H as <- <-. exists [], (c :: s). simpl. by rewrite Nat.add_0_r.
    + apply IH in H as (skipped & s1 & -> & -> & H).
      exists (c :: skipped), s1. simpl. by rewrite Nat.add_succ_r.
Qed.

Lemma search_none r : forall s p,
  (forall pre s1 i, s = pre ++ s1 -> matchAt r i s1 = None) ->
  search r p s = None.
Proof.
  induction s as [|c s IH]; intros p H; simpl.
  - by rewrite (H [] [] p eq_refl).
  - rewrite (H [] (c :: s) p eq_refl). apply IH.
    intros pre s1 i ->. by apply (H (c :: pre) s1 i).
Qed.

(** Every result of the [exec] sequence is a match of the pattern on a
    suffix of the text. *)
Lemma allMatches_elem r : forall fuel s p ms i e,
  allMatches fuel r p s = Some ms -> (i, e) ∈ ms ->
  exists pre s1, s = pre ++ s1 /\ matchAt r i s1 = Some e.
Proof.
  induction fuel as [|fuel IH]; intros s p ms i e H Hin; [done|].
  simpl in H. destruct (search r p s) as [[i0 e0]|] eqn:E.
  - destruct (allMatches fuel r (pos e0) (rest e0)) as [ms'|] eqn:E'; [|done].
    injection H as <-. apply elem_of_cons in Hin as [[= -> ->]|Hin].
    + apply search_matchAt in E as (skipped & s1 & -> & _ & Hm). by exists skipped, s1.
    + destruct (IH _ _ _ _ _ E' Hin) as (pre & s1 & Hs & Hm).
      apply search_spec in E as (skipped & u & -> & _). rewrite Hs.
      exists (skipped ++ u ++ pre), s1. by rewrite <- !app_assoc.
  - injection H as <-. by apply elem_of_nil in Hin.
Qed.

(** A loop over a pattern that matches nowhere ends at once. *)
Lemma allMatches_none fuel r p s :
  search r p s = None -> allMatches (S fuel) r p s = Some [].
Proof. intros H. simpl. by rewrite H. Qed.

End RegexMore.

(** ** More on detection *)

Module DetectMore.
Import RegexFacts RegexMore NamingFacts DedupFacts DetectFacts ReplaceFacts.
Import EnvVarsExtra.

Lemma fillStep_inv type roleName st e :
  fillStep type roleName st = Some e ->
  exists v,
    caps st !! 2 = Some v /\
    isLikelySelector v = false /\
    isCommonTestData v = false /\
    e = mkEnvVar (generateEnvVarName v type (caps st !! 1) roleName) v type.
Proof.
  unfold fillStep. destruct (caps st !! 2) as [v|]; [|done].
  destruct (isLikelySelector v) eqn:Hs; [done|]. simpl.
  destruct (isCommonTestData v) eqn:Hc; [done|].
  intros [= <-]. by exists v.
Qed.

(** Group 2 of both patterns holds a non-empty text without quote
    characters. *)
Lemma tail_capture g p s e :
  matchAt (seqs (locatorHead ++ g :: locatorTail)) p s = Some e ->
  exists v, caps e !! 2 = Some v /\ v <> [] /\ quoteFree v = true.
Proof.
  unfold matchAt. intros H.
  replace (locatorHead ++ g :: locatorTail)
    with ((locatorHead ++
             [g; Cls quote; Star true space; lit (str "})"); Star false anyChar;
              lit (str ".fill("); Cls quote])
          ++ [Grp 2 (Plus notQuote); Cls quote; Chr ")"]) in H
    by (unfold locatorTail; rewrite <- app_assoc; reflexivity).
  apply m_seqs_app in H as (st1 & _ & H). cbn [seqs m] in H.
  apply m_Plus in H as (u & s' & Hne & Hu & Hr & H).
  cbn [pos rest caps] in H.
  destruct s' as [|x s']; [done|]. destruct (quote x); [|done].
  destruct s' as [|y s']; [done|]. destruct (eqc y ")"); [|done].
  injection H as <-. cbn [caps]. exists u.
  rewrite Hr, Nat.add_sub', take_app_length, lookup_insert_eq. done.
Qed.

Lemma fill_capture fp p s e :
  fp ∈ fillPatterns -> matchAt (pattern fp) p s = Some e ->
  exists v, caps e !! 2 = Some v /\ v <> [] /\ quoteFree v = true.
Proof.
  unfold fillPatterns. intros Hfp.
  apply elem_of_cons in Hfp as [->|Hfp];
    [|apply list_elem_of_singleton in Hfp as ->]; apply tail_capture.
Qed.

Lemma generateEnvVarName_possible v type fc roleName :
  generateEnvVarName v type fc roleName ∈ possibleNames roleName.
Proof.
  unfold generateEnvVarName, possibleNames.
  destruct type; destruct (_ || _); set_unfold; tauto.
Qed.

(** Every pushed variable comes from a match of a fill pattern and passed
    both filters. *)
Lemma detected_facts playwrightCode roleName out e :
  detectEnvVars playwrightCode roleName = Some out -> e ∈ out ->
  value e <> [] /\ quoteFree (value e) = true /\
  isLikelySelector (value e) = false /\ isCommonTestData (value e) = false /\
  name e ∈ possibleNames roleName.
Proof.
  intros Hd He.
  destruct (detected_produced _ _ _ _ Hd He) as (i & st & fp & ms & Hfp & Hms & Hin & Hstep).
  destruct (allMatches_elem _ _ _ _ _ _ _ Hms Hin) as (pre & s1 & _ & Hm).
  destruct (fill_capture _ _ _ _ Hfp Hm) as (v & Hv & Hne & Hq).
  apply fillStep_inv in Hstep as (v' & Hv' & Hs & Hc & ->).
  rewrite Hv in Hv'. injection Hv' as <-. cbn [value name].
  repeat (split; [done|]). apply generateEnvVarName_possible.
Qed.

(** X2.  What [detectEnvVars] emits: each value is a non-empty text
    without quote characters that is neither selector-like nor placeholder
    data, and each name is one of the four names of the role. *)
Theorem detected_invariant (playwrightCode : text) (roleName : option text)
    (out : list EnvVar) (e : EnvVar) :
  detectEnvVars playwrightCode roleName = Some out -> e ∈ out ->
  value e <> [] /\ quoteFree (value e) = true /\
  isLikelySelector (value e) = false /\ isCommonTestData (value e) = false /\
  name e ∈ possibleNames roleName.
Proof. apply detected_facts. Qed.

Lemma detected_invariant_witness :
  value (aliceCorp "QA_USER_EMAIL") <> [] /\
  quoteFree (value (aliceCorp "QA_USER_EMAIL")) = true /\
  isLikelySelector (value (aliceCorp "QA_USER_EMAIL")) = false /\
  isCommonTestData (value (aliceCorp "QA_USER_EMAIL")) = false /\
  name (aliceCorp "QA_USER_EMAIL") ∈ possibleNames (Some (str "user")).
Proof.
  apply (detected_invariant passwordFirst (Some (str "user"))
           [aliceCorp "QA_USER_EMAIL"; secretAs "QA_USER_PASSWORD"]).
  - vm_compute. reflexivity.
  - apply list_elem_of_here.
Defined.

(** X3.  The output of [detectEnvVars] is de-duplicated: names are pairwise
    distinct, values are pairwise distinct, de-duplicating it again changes
    nothing, and it holds at most four variables, whatever the number of
    fields the transcript fills. *)
Theorem detected_distinct (playwrightCode : text) (roleName : option text) :
  exists out,
    detectEnvVars playwrightCode roleName = Some out /\
    NoDup (extractEnvVarNames out) /\ NoDup (map value out) /\
    deduplicateEnvVars out = out /\ length out <= 4.
Proof.
  destruct (detectEnvVars_structure playwrightCode roleName)
    as (ms_e & ms_p & _ & _ & _ & _ & Hd).
  eexists. split; [exact Hd|].
  pose proof (dedup_NoDup (pushes email roleName ms_e ++ pushes password roleName ms_p))
    as [Hn Hv].
  split; [exact Hn|]. split; [exact Hv|].
  split; [apply dedup_fixed; apply dedup_NoDup|].
  rewrite <- (length_map name).
  change 4 with (length (possibleNames roleName)).
  apply submseteq_length, NoDup_submseteq; [exact Hn|].
  intros n Hin. apply list_elem_of_In, List.in_map_iff in Hin as (e & <- & He).
  apply list_elem_of_In in He.
  by destruct (detected_facts _ _ _ _ Hd He) as (_ & _ & _ & _ & H).
Qed.

Lemma upperChar_idem c : upperChar (upperChar c) = upperChar c.
Proof. ascii_cases c. Qed.

Lemma toUpperCase_idem t : toUpperCase (toUpperCase t) = toUpperCase t.
Proof.
  unfold toUpperCase. rewrite List.map_map. apply List.map_ext, upperChar_idem.
Qed.

Lemma generateEnvVarName_prefix v type fc r1 r2 :
  rolePrefixOf r1 = rolePrefixOf r2 ->
  generateEnvVarName v type fc r1 = generateEnvVarName v type fc r2.
Proof. unfold generateEnvVarName. by intros ->. Qed.

Lemma detectEnvVars_prefix playwrightCode r1 r2 :
  rolePrefixOf r1 = rolePrefixOf r2 ->
  detectEnvVars playwrightCode r1 = detectEnvVars playwrightCode r2.
Proof.
  intros Hr.
  destruct (detectEnvVars_structure playwrightCode r1)
    as (ms_e & ms_p & He & Hp & _ & _ & ->).
  destruct (detectEnvVars_structure playwrightCode r2)
    as (ms_e' & ms_p' & He' & Hp' & _ & _ & ->).
  rewrite He in He'. rewrite Hp in Hp'. injection He' as <-. injection Hp' as <-.
  assert (forall type ms, pushes type r1 ms = pushes type r2 ms) as Hpush.
  { intros type ms. unfold pushes. apply list_omap_ext.
    induction ms as [|[i st] ms IH]; constructor; [|exact IH].
    unfold fillStep. cbn [snd]. destruct (caps st !! 2) as [v|]; [|constructor].
    by rewrite (generateEnvVarName_prefix _ _ _ r1 r2 Hr); destruct (_ || _); constructor. }
  by rewrite !Hpush.
Qed.

Lemma rolePrefixOf_upper r1 r2 :
  toUpperCase r1 = toUpperCase r2 ->
  rolePrefixOf (Some r1) = rolePrefixOf (Some r2).
Proof.
  destruct r1 as [|c1 r1], r2 as [|c2 r2]; simpl; done.
Qed.

(** X4.  Role names count up to letter case, and an absent or empty role
    name behaves as the role user: [detectEnvVars] gives the same result. *)
Theorem detectEnvVars_role_case (playwrightCode : text) (r1 r2 : text) :
  toUpperCase r1 = toUpperCase r2 ->
  detectEnvVars playwrightCode (Some r1) = detectEnvVars playwrightCode (Some r2) /\
  detectEnvVars playwrightCode (Some r1)
    = detectEnvVars playwrightCode (Some (toUpperCase r1)) /\
  detectEnvVars playwrightCode None
    = detectEnvVars playwrightCode (Some (str "user")) /\
  detectEnvVars playwrightCode (Some [])
    = detectEnvVars playwrightCode (Some (str "user")).
Proof.
  intros H. split; [by apply detectEnvVars_prefix, rolePrefixOf_upper|].
  split.
  - apply detectEnvVars_prefix, rolePrefixOf_upper. by rewrite toUpperCase_idem.
  - split; by apply detectEnvVars_prefix.
Qed.

Lemma detectEnvVars_role_case_witness :
  detectEnvVars passwordFirst (Some (str "Admin"))
    = detectEnvVars passwordFirst (Some (str "aDMIN")).
Proof.
  destruct (detectEnvVars_role_case passwordFirst (str "Admin") (str "aDMIN"))
    as [H _]; [vm_compute; reflexivity|exact H].
Defined.

(** Both patterns need a role locator and a fill call in the text. *)
Lemma pattern_needs g p s e :
  matchAt (seqs (locatorHead ++ g :: locatorTail)) p s = Some e ->
  includes (str ".getByRole(") s = true /\ includes (str ".fill(") s = true.
Proof.
  unfold matchAt. intros H. split.
  - unfold locatorHead in H. cbn [app seqs] in H.
    change (m (Seq (lit (str ".getByRole(")) ?r) ?st ?k)
      with (m (lit (str ".getByRole(")) st (fun st' => m r st' k)) in H.
    cbn [m] in H. rewrite m_lit in H. cbn [rest] in H.
    destruct (startsWith (str ".getByRole(") s) eqn:E; [|done].
    by apply includes_startsWith.
  - replace (locatorHead ++ g :: locatorTail)
      with ((locatorHead ++ [g; Cls quote; Star true space; lit (str "})");
                             Star false anyChar])
            ++ lit (str ".fill(") :: [Cls quote; Grp 2 (Plus notQuote); Cls quote; Chr ")"]) in H
      by (unfold locatorTail; rewrite <- app_assoc; reflexivity).
    apply m_seqs_app in H as (st1 & (u & Hu & _) & H). cbn [rest] in Hu.
    cbn [seqs m] in H. rewrite m_lit in H.
    destruct (startsWith (str ".fill(") (rest st1)) eqn:E; [|done].
    apply startsWith_spec in E as [w E]. rewrite Hu, E. apply includes_middle.
Qed.

Lemma no_match_without token fp playwrightCode :
  fp ∈ fillPatterns ->
  (token = str ".getByRole(" \/ token = str ".fill(") ->
  includes token playwrightCode = false ->
  allMatches (S (length playwrightCode)) (pattern fp) 0 playwrightCode = Some [].
Proof.
  intros Hfp Htok Hinc. apply allMatches_none, search_none.
  intros pre s1 i ->. destruct (matchAt (pattern fp) i s1) as [e|] eqn:E; [|done].
  exfalso.
  assert (includes (str ".getByRole(") s1 = true /\ includes (str ".fill(") s1 = true)
    as [H1 H2].
  { unfold fillPatterns in Hfp.
    apply elem_of_cons in Hfp as [->|Hfp];
      [|apply list_elem_of_singleton in Hfp as ->]; by eapply pattern_needs. }
  destruct Htok as [-> | ->].
  - by rewrite (includes_app_r _ pre _ H1) in Hinc.
  - by rewrite (includes_app_r _ pre _ H2) in Hinc.
Qed.

(** X5.  A transcript without a role locator, or without a fill call,
    yields no variable: fields located in another way are not seen. *)
Theorem detectEnvVars_needs_locator (playwrightCode : text)
    (roleName : option text) :
  includes (str ".getByRole(") playwrightCode = false \/
  includes (str ".fill(") playwrightCode = false ->
  detectEnvVars playwrightCode roleName = Some [].
Proof.
  intros H.
  assert (exists token, (token = str ".getByRole(" \/ token = str ".fill(") /\
                        includes token playwrightCode = false)
    as (token & Htok & Hinc).
  { destruct H as [H|H]; eexists; (split; [|exact H]); auto. }
  destruct (detectEnvVars_structure playwrightCode roleName)
    as (ms_e & ms_p & He & Hp & _ & _ & ->).
  rewrite (no_match_without token (mkFillPattern emailPattern email)) in He;
    [|apply list_elem_of_here|done|done].
  rewrite (no_match_without token (mkFillPattern passwordPattern password)) in Hp;
    [|apply list_elem_of_further, list_elem_of_here|done|done].
  injection He as <-. injection Hp as <-. reflexivity.
Qed.

Lemma detectEnvVars_needs_locator_witness :
  detectEnvVars labelTranscript (Some (str "user")) = Some [].
Proof.
  apply (detectEnvVars_needs_locator labelTranscript (Some (str "user"))).
  left. vm_compute. reflexivity.
Defined.

Lemma bare_selector v : bareIdentifier v = true -> isLikelySelector v = true.
Proof.
  destruct v as [|c t]; [done|]. cbn [bareIdentifier]. intros H.
  apply andb_true_iff in H as [Hc Ht].
  unfold isLikelySelector. apply List.existsb_exists.
  exists (seqs [Bol; Cls alpha; Star true alnum; Eol]).
  split; [unfold selectorPatterns; simpl; tauto|].
  unfold test. cbn [search]. unfold matchAt. cbn [seqs m pos rest caps Nat.eqb].
  rewrite Hc. cbn [pos rest caps].
  erewrite starGreedy_all; [done|exact Ht|]. reflexivity.
Qed.

(** X1.  A value made of a letter followed by letters and digits is taken
    for an element selector, so [detectEnvVars] never emits such a value:
    a password without a special character is not detected. *)
Theorem bare_identifier_never_detected (v : text) :
  bareIdentifier v = true ->
  isLikelySelector v = true /\
  forall playwrightCode roleName out e,
    detectEnvVars playwrightCode roleName = Some out -> e ∈ out -> value e <> v.
Proof.
  intros Hb. pose proof (bare_selector v Hb) as Hs. split; [done|].
  intros playwrightCode roleName out e Hd He Heq. subst v.
  destruct (detected_facts _ _ _ _ Hd He) as (_ & _ & Hs' & _).
  rewrite Hs in Hs'. discriminate Hs'.
Qed.

Lemma bare_identifier_never_detected_witness :
  isLikelySelector (str "hunter2") = true /\
  forall playwrightCode roleName out e,
    detectEnvVars playwrightCode roleName = Some out -> e ∈ out ->
    value e <> str "hunter2".
Proof.
  apply (bare_identifier_never_detected (str "hunter2")). vm_compute. reflexivity.
Defined.

(** *** Role names the login command accepts *)

Lemma validateRoleName_shape r :
  validateRoleName r = true ->
  exists c t, r = c :: t /\ alpha c = true /\ forallb roleChar t = true.
Proof.
  unfold validateRoleName, test.
  destruct (search roleNamePattern 0 r) as [[i e]|] eqn:E; [|done]. intros _.
  apply search_matchAt in E as (skipped & s1 & -> & -> & H).
  unfold matchAt, roleNamePattern in H. cbn [seqs m pos rest caps] in H.
  destruct skipped as [|x skipped]; [|done]. cbn [length Nat.add Nat.eqb app] in *.
  destruct s1 as [|c t]; [done|]. destruct (alpha c) eqn:Hc; [|done].
  cbn [pos rest caps] in H.
  apply starGreedy_consumed in H as (u & s' & -> & Hu & H).
  cbn [m rest] in H. destruct s' as [|y s']; [|done].
  exists c, u. by rewrite app_nil_r.
Qed.

Lemma roleChar_upper_safe c : implb (roleChar c) (safeChar (upperChar c)) = true.
Proof. ascii_cases c. Qed.

Lemma alpha_roleChar c : implb (alpha c) (roleChar c) = true.
Proof. ascii_cases c. Qed.

Lemma safe_quoteFree t : forallb safeChar t = true -> quoteFree t = true.
Proof.
  induction t as [|c t IH]; [done|]. cbn [forallb]. intros H.
  apply andb_true_iff in H as [Hc Ht]. rewrite quoteFree_cons, IH by done.
  unfold safeChar in Hc. apply andb_true_iff in Hc as [-> _]. done.
Qed.

Lemma safe_no_dollar t : forallb safeChar t = true -> includes (str "$") t = false.
Proof.
  induction t as [|c t IH]; [done|]. cbn [forallb]. intros H.
  apply andb_true_iff in H as [Hc Ht]. rewrite includes_cons, IH by done.
  unfold safeChar in Hc. apply andb_true_iff in Hc as [_ Hc].
  apply negb_true_iff in Hc. simpl. by rewrite Hc.
Qed.

Lemma valid_role_prefix_safe r :
  validateRoleName r = true -> forallb safeChar (rolePrefixOf (Some r)) = true.
Proof.
  intros H. apply validateRoleName_shape in H as (c & t & -> & Hc & Ht).
  cbn [rolePrefixOf]. unfold toUpperCase. rewrite forallb_forall.
  intros x Hx. apply List.in_map_iff in Hx as (y & <- & Hy).
  assert (roleChar y = true) as Hy'.
  { destruct Hy as [<-|Hy].
    - pose proof (alpha_roleChar c) as Hi. by rewrite Hc in Hi.
    - rewrite forallb_forall in Ht. by apply Ht. }
  pose proof (roleChar_upper_safe y) as Hi. by rewrite Hy' in Hi.
Qed.

Lemma valid_role_name_safe r v type fc :
  validateRoleName r = true ->
  forallb safeChar (generateEnvVarName v type fc (Some r)) = true.
Proof.
  intros H. apply valid_role_prefix_safe in H.
  unfold generateEnvVarName. destruct type; destruct (_ || _); try reflexivity;
    rewrite !forallb_app, H; reflexivity.
Qed.

(** X6.  With a role name that [validateRoleName] accepts, every name the
    namer gives holds neither a quote character nor a dollar sign; so a
    variable that [detectEnvVars] emits for such a role has a name and a
    value without quote characters and a name that the replacement does
    not expand. *)
Theorem valid_role_names_plain (r : text) :
  validateRoleName r = true ->
  (forall v type fc,
     quoteFree (generateEnvVarName v type fc (Some r)) = true /\
     includes (str "$") (generateEnvVarName v type fc (Some r)) = false) /\
  (forall playwrightCode out e,
     detectEnvVars playwrightCode (Some r) = Some out -> e ∈ out ->
     quoteFree (value e) = true /\ quoteFree (name e) = true /\
     includes (str "$") (name e) = false).
Proof.
  intros Hr. split.
  - intros v type fc. pose proof (valid_role_name_safe r v type fc Hr) as H.
    split; [by apply safe_quoteFree|by apply safe_no_dollar].
  - intros playwrightCode out e Hd He.
    destruct (detected_facts _ _ _ _ Hd He) as (_ & Hq & _).
    split; [done|].
    destruct (detected_produced _ _ _ _ Hd He) as (i & st & fp & ms & _ & _ & _ & Hstep).
    apply fillStep_inv in Hstep as (v & _ & _ & _ & ->). cbn [name].
    pose proof (valid_role_name_safe r v (ptype fp) (caps st !! 1) Hr) as H.
    split; [by apply safe_quoteFree|by apply safe_no_dollar].
Qed.

Lemma valid_role_names_plain_witness :
  quoteFree (generateEnvVarName (str "pw1!") password None (Some (str "qa-team_2"))) = true /\
  includes (str "$")
    (generateEnvVarName (str "pw1!") password None (Some (str "qa-team_2"))) = false.
Proof.
  destruct (valid_role_names_plain (str "qa-team_2")) as [H _];
    [vm_compute; reflexivity|]. apply H.
Defined.

(** *** Validation *)

Lemma validate_foldl l : forall acc,
  foldl validateStep acc l
  = mkValidated (valid acc ++ List.filter wellFormed l)
      (invalid acc ++ List.filter (fun e => negb (wellFormed e)) l).
Proof.
  induction l as [|e l IH]; intros [va inv]; simpl.
  - by rewrite !app_nil_r.
  - rewrite IH. unfold validateStep, wellFormed. simpl.
    destruct (truthy (name e) && truthy (value e)); simpl;
      by rewrite <- ?app_assoc.
Qed.

(** X7.  [validateEnvVars] sorts the entries into those with a non-empty
    name and value and the others, each list in the order of the input, so
    that no entry is lost or repeated; and whatever [detectEnvVars] emits
    is valid. *)
Theorem validateEnvVars_partition (envVars : list EnvVar) :
  valid (validateEnvVars envVars) = List.filter wellFormed envVars /\
  invalid (validateEnvVars envVars)
    = List.filter (fun e => negb (wellFormed e)) envVars /\
  valid (validateEnvVars envVars) ++ invalid (validateEnvVars envVars)
    ≡ₚ envVars /\
  (forall playwrightCode roleName,
     detectEnvVars playwrightCode roleName = Some envVars ->
     validateEnvVars envVars = mkValidated envVars []).
Proof.
  unfold validateEnvVars. rewrite validate_foldl. cbn [valid invalid app].
  split; [done|]. split; [done|]. split.
  - induction envVars as [|e l IH]; [done|]. simpl.
    destruct (wellFormed e); simpl.
    + by constructor.
    + rewrite <- Permutation_middle. by constructor.
  - intros playwrightCode roleName Hd.
    assert (forall e, e ∈ envVars -> wellFormed e = true) as Hall.
    { intros e He.
      destruct (detected_facts _ _ _ _ Hd He) as (Hv & _ & _ & _ & Hn).
      unfold wellFormed. destruct (value e); [done|].
      unfold possibleNames in Hn.
      repeat (apply elem_of_cons in Hn as [Hn|Hn]; [rewrite Hn; reflexivity|]).
      by apply elem_of_nil in Hn. }
    clear Hd. f_equal.
    + induction envVars as [|e l IH]; [done|]. simpl.
      rewrite (Hall e) by apply list_elem_of_here. f_equal. apply IH.
      intros e' He'. apply Hall. by apply list_elem_of_further.
    + induction envVars as [|e l IH]; [done|]. simpl.
      rewrite (Hall e) by apply list_elem_of_here. simpl. apply IH.
      intros e' He'. apply Hall. by apply list_elem_of_further.
Qed.

End DetectMore.

(** ** More on replacement *)

Module ReplaceMore.
Import RegexFacts RegexMore DedupFacts ReplaceFacts.

(** The replacement loop ends within as many rounds as the subject has
    characters, plus one. *)
Lemma replaceLoop_total r groups template subject : forall fuel s p,
  length s < fuel ->
  is_Some (replaceLoop fuel r groups template subject p s).
Proof.
  induction fuel as [|fuel IH]; intros s p Hf; [lia|].
  cbn [replaceLoop]. destruct (search r p s) as [[i e]|] eqn:E; [|by eexists].
  apply search_spec in E as (skipped & u & Hs & _ & Hp & _).
  apply (f_equal length) in Hs. rewrite !length_app in Hs.
  destruct (pos e =? i) eqn:Hpi.
  - destruct (rest e) as [|c s'] eqn:Hr; [by eexists|]. simpl in Hs.
    apply fmap_is_Some, IH. lia.
  - apply Nat.eqb_neq in Hpi. apply fmap_is_Some, IH. lia.
Qed.

Lemma replaceStep_total code e : is_Some (replaceStep code e).
Proof. rewrite replaceStep_spec. apply replaceLoop_total. lia. Qed.

(** X8.  [replaceWithEnvVars] and [escapeRegex] return on every input:
    their replacement loops end. *)
Theorem replaceWithEnvVars_total (code : text) (envVars : list EnvVar) :
  is_Some (replaceWithEnvVars code envVars) /\
  (forall v, is_Some (escapeRegex v)).
Proof.
  split.
  - revert code. induction envVars as [|e es IH]; intros code; [by eexists|].
    cbn [replaceWithEnvVars]. destruct (replaceStep_total code e) as [c ->].
    apply IH.
  - intros v. rewrite escapeRegex_spec. by eexists.
Qed.

(** X9.  A text without a quote character is returned as it is, whatever
    the variables: a value that is not between quotes is never replaced. *)
Theorem replaceWithEnvVars_no_quotes (code : text) (envVars : list EnvVar) :
  quoteFree code = true ->
  replaceWithEnvVars code envVars = Some code.
Proof.
  intros Hq. induction envVars as [|e es IH]; [done|].
  cbn [replaceWithEnvVars]. rewrite replaceStep_spec. unfold replaceGlobal.
  rewrite <- (app_nil_r code) at 3. rewrite replaceLoop_skip by done.
  rewrite replaceLoop_nil by (by rewrite matchAt_quoted).
  cbn [fmap option_fmap option_map mbind option_bind]. by rewrite app_nil_r.
Qed.

Lemma replaceWithEnvVars_no_quotes_witness :
  replaceWithEnvVars (str "login(s3cr3t!, s3cr3t!)") [secretUser]
  = Some (str "login(s3cr3t!, s3cr3t!)").
Proof.
  apply (replaceWithEnvVars_no_quotes (str "login(s3cr3t!, s3cr3t!)") [secretUser]).
  vm_compute. reflexivity.
Defined.

Lemma redactToken_idem envVars tok :
  redactToken envVars (redactToken envVars tok) = redactToken envVars tok.
Proof.
  destruct tok as [q s|n]; [|done]. cbn [redactToken].
  destruct (List.find _ envVars) eqn:Hf; [done|]. cbn [redactToken].
  by rewrite Hf.
Qed.

Lemma redact_idem envVars segs :
  redact envVars (redact envVars segs) = redact envVars segs.
Proof.
  unfold redact. rewrite List.map_map. apply List.map_ext.
  intros [tok c]. cbn [fst snd]. by rewrite redactToken_idem.
Qed.

Lemma redactable_redact_all envVars segs e :
  redactable (redact envVars segs) e = redactable segs e.
Proof. unfold redactable. f_equal. apply codes_redact. Qed.

Lemma forallb_redactable_redact envVars segs es :
  forallb (redactable (redact envVars segs)) es = forallb (redactable segs) es.
Proof.
  induction es as [|e es IH]; [done|]. cbn [forallb].
  by rewrite redactable_redact_all, IH.
Qed.

Lemma wfTranscript_redact c0 segs envVars :
  wfTranscript c0 segs = true ->
  forallb (redactable segs) envVars = true ->
  wfTranscript c0 (redact envVars segs) = true.
Proof.
  unfold wfTranscript. intros H Hr. apply andb_true_iff in H as [-> Hw].
  cbn [andb]. apply wfSegment_redact_all; [|done].
  by eapply redactable_names.
Qed.

(** X10.  On a transcript of tokens, under the conditions of the
    rewriting, [replaceWithEnvVars] is idempotent: applied to its own
    output it returns that output. *)
Theorem replaceWithEnvVars_idempotent (c0 : text) (segs : list segment)
    (envVars : list EnvVar) :
  wfTranscript c0 segs = true ->
  forallb (redactable segs) envVars = true ->
  exists out,
    replaceWithEnvVars (render c0 segs) envVars = Some out /\
    replaceWithEnvVars out envVars = Some out.
Proof.
  intros Hwf Hr. exists (render c0 (redact envVars segs)).
  split; [by apply replaceWithEnvVars_render|].
  rewrite replaceWithEnvVars_render.
  - by rewrite redact_idem.
  - by apply wfTranscript_redact.
  - by rewrite forallb_redactable_redact.
Qed.

Lemma replaceWithEnvVars_idempotent_witness :
  exists out,
    replaceWithEnvVars (render loginCode0 loginSegments) [aliceExample; secretUser]
      = Some out /\
    replaceWithEnvVars out [aliceExample; secretUser] = Some out.
Proof.
  apply (replaceWithEnvVars_idempotent loginCode0 loginSegments
           [aliceExample; secretUser]); vm_compute; reflexivity.
Defined.

Lemma find_value_perm (l l' : list EnvVar) s :
  NoDup (map value l) -> l ≡ₚ l' ->
  List.find (fun e => bool_decide (value e = s)) l
  = List.find (fun e => bool_decide (value e = s)) l'.
Proof.
  intros Hnd Hp.
  destruct (List.find _ l) as [e|] eqn:Hf;
    destruct (List.find _ l') as [e'|] eqn:Hf'; [| | |done].
  - apply List.find_some in Hf as [He Hs], Hf' as [He' Hs'].
    apply bool_decide_eq_true in Hs, Hs'. apply list_elem_of_In in He, He'.
    rewrite <- Hp in He'. f_equal.
    apply (NoDup_map_inj value l e e' Hnd He He'). congruence.
  - apply List.find_some in Hf as [He Hs]. apply list_elem_of_In in He.
    rewrite Hp in He. apply list_elem_of_In in He.
    pose proof (List.find_none _ _ Hf' e He) as Hb. cbn beta in Hb. congruence.
  - apply List.find_some in Hf' as [He Hs]. apply list_elem_of_In in He.
    rewrite <- Hp in He. apply list_elem_of_In in He.
    pose proof (List.find_none _ _ Hf e' He) as Hb. cbn beta in Hb. congruence.
Qed.

Lemma redact_perm (l l' : list EnvVar) segs :
  NoDup (map value l) -> l ≡ₚ l' -> redact l segs = redact l' segs.
Proof.
  intros Hnd Hp. unfold redact. apply List.map_ext. intros [[q s|n] c]; [|done].
  cbn [fst snd redactToken]. by rewrite (find_value_perm l l' s Hnd Hp).
Qed.

(** X11.  For variables with pairwise distinct values, the order of the
    list does not matter: on a transcript of tokens, under the conditions
    of the rewriting, two orderings of the list give the same text. *)
Theorem replaceWithEnvVars_order (c0 : text) (segs : list segment)
    (envVars envVars' : list EnvVar) :
  wfTranscript c0 segs = true ->
  forallb (redactable segs) envVars = true ->
  NoDup (map value envVars) ->
  envVars ≡ₚ envVars' ->
  replaceWithEnvVars (render c0 segs) envVars'
  = replaceWithEnvVars (render c0 segs) envVars.
Proof.
  intros Hwf Hr Hnd Hp.
  rewrite !replaceWithEnvVars_render; [by rewrite (redact_perm _ _ _ Hnd Hp)|done|done|done|].
  rewrite forallb_forall in Hr. apply forallb_forall. intros e He.
  apply Hr. apply list_elem_of_In. rewrite Hp. by apply list_elem_of_In.
Qed.

Lemma replaceWithEnvVars_order_witness :
  replaceWithEnvVars (render loginCode0 loginSegments) [secretUser; aliceExample]
  = replaceWithEnvVars (render loginCode0 loginSegments) [aliceExample; secretUser].
Proof.
  apply (replaceWithEnvVars_order loginCode0 loginSegments
           [aliceExample; secretUser] [secretUser; aliceExample]).
  - vm_compute. reflexivity.
  - vm_compute. reflexivity.
  - apply NoDup_cons. split; [|apply NoDup_singleton].
    intros H. apply list_elem_of_singleton in H. discriminate H.
  - apply Permutation_swap.
Defined.

(** X12.  [escapeRegex] puts a backslash before each of the fourteen
    syntax characters and changes nothing else: a text without syntax
    characters comes back as it is, and the result is at most twice as
    long as the text. *)
Theorem escapeRegex_backslashes (v : text) :
  escapeRegex v = Some (flat_map escapeChar v) /\
  (forallb (fun c => negb (oneOf syntaxChars c)) v = true ->
   escapeRegex v = Some v) /\
  length v <= length (flat_map escapeChar v) <= 2 * length v.
Proof.
  split; [apply escapeRegex_spec|]. split.
  - intros H. rewrite escapeRegex_spec. f_equal.
    induction v as [|c v IH]; [done|]. cbn [forallb] in H.
    apply andb_true_iff in H as [Hc Hv]. apply negb_true_iff in Hc.
    cbn [flat_map]. unfold escapeChar at 1. rewrite Hc. simpl. by rewrite IH.
  - induction v as [|c v IH]; [simpl; lia|].
    cbn [flat_map]. rewrite length_app. unfold escapeChar at 1 3.
    destruct (oneOf syntaxChars c); simpl in *; lia.
Qed.

End ReplaceMore.

(** ** More on the role registry *)

Module RegistryFacts.
Import Config ConfigFacts Registry.

Lemma find_added_same n (l : list Role) r :
  name r = n ->
  List.find (nameIs n) (List.filter (nameIsNot n) l ++ [r]) = Some r.
Proof.
  intros Hr. induction l as [|x l IH]; simpl.
  - unfold nameIs. by rewrite bool_decide_eq_true_2.
  - unfold nameIsNot at 1. destruct (decide (name x = n)) as [Hx|Hx].
    + rewrite bool_decide_eq_false_2 by (intros H; by apply H). exact IH.
    + rewrite bool_decide_eq_true_2 by done. simpl.
      unfold nameIs at 1. by rewrite bool_decide_eq_false_2.
Qed.

Lemma find_filter_other n m (l : list Role) :
  n <> m ->
  List.find (nameIs n) (List.filter (nameIsNot m) l) = List.find (nameIs n) l.
Proof.
  intros Hnm. induction l as [|x l IH]; simpl; [done|].
  unfold nameIsNot at 1, nameIs at 2.
  destruct (decide (name x = m)) as [Hx|Hx].
  - rewrite bool_decide_eq_false_2 by (intros H; by apply H).
    rewrite bool_decide_eq_false_2 by congruence. exact IH.
  - rewrite bool_decide_eq_true_2 by done. simpl. unfold nameIs at 1.
    destruct (bool_decide (name x = n)); [done|exact IH].
Qed.

Lemma find_app_other n (l : list Role) r :
  name r <> n ->
  List.find (nameIs n) (l ++ [r]) = List.find (nameIs n) l.
Proof.
  intros Hr. induction l as [|x l IH]; simpl.
  - unfold nameIs. by rewrite bool_decide_eq_false_2.
  - destruct (nameIs n x); [done|exact IH].
Qed.

Lemma find_filter_same n (l : list Role) :
  List.find (nameIs n) (List.filter (nameIsNot n) l) = None.
Proof.
  induction l as [|x l IH]; simpl; [done|].
  unfold nameIsNot at 1. destruct (decide (name x = n)) as [Hx|Hx].
  - by rewrite bool_decide_eq_false_2 by (intros H; by apply H).
  - rewrite bool_decide_eq_true_2 by done. simpl. unfold nameIs at 1.
    by rewrite bool_decide_eq_false_2.
Qed.

(** X13.  After [addRole role], a later process finds the role under its
    name, and under any other name what was found before.  The process
    that made the call does not see the change: its [getRole] answers from
    the configuration as first imported, so under every name, that of the
    new role too, it returns what it returned before the call. *)
Theorem getRole_after_addRole (config : QADirectorConfig) (role : Role)
    (roleName : text) :
  (let/a _ := addRole role in let/a _ := newProcess in getRole (name role))
    (start (Document config))
    = (Ok (Some role),
       holding (Document (added config role)) (added config role)) /\
  (roleName <> name role ->
   fst ((let/a _ := addRole role in let/a _ := newProcess in getRole roleName)
          (start (Document config)))
     = fst (getRole roleName (start (Document config)))) /\
  fst ((let/a _ := addRole role in getRole roleName) (start (Document config)))
    = fst (getRole roleName (start (Document config))).
Proof.
  split; [|split].
  - unfold await. rewrite addRole_start. cbn. by rewrite find_added_same.
  - intros Hne. unfold await. rewrite addRole_start. cbn.
    rewrite find_app_other by done. by rewrite find_filter_other.
  - reflexivity.
Qed.

Lemma removeRole_start config n :
  removeRole n (start (Document config))
  = (Ok tt, holding (Document (removed config n)) config).
Proof. reflexivity. Qed.

Lemma removeRole_holding config first n :
  removeRole n (holding (Document config) first)
  = (Ok tt, holding (Document (removed first n)) first).
Proof. reflexivity. Qed.

(** X14.  After [removeRole n], a later process finds nothing under [n]
    and, under another name, what was found before; the process that made
    the call still finds under every name what it found before, the
    removed role too.  Removing the same name again, in the same process
    or in a later one, leaves the document as the first call left it. *)
Theorem getRole_after_removeRole (config : QADirectorConfig) (n m : text) :
  (let/a _ := removeRole n in let/a _ := newProcess in getRole n)
    (start (Document config))
    = (Ok None, holding (Document (removed config n)) (removed config n)) /\
  (m <> n ->
   fst ((let/a _ := removeRole n in let/a _ := newProcess in getRole m)
          (start (Document config)))
     = fst (getRole m (start (Document config)))) /\
  fst ((let/a _ := removeRole n in getRole m) (start (Document config)))
    = fst (getRole m (start (Document config))) /\
  (let/a _ := removeRole n in removeRole n) (start (Document config))
    = removeRole n (start (Document config)) /\
  (let/a _ := removeRole n in let/a _ := newProcess in removeRole n)
    (start (Document config))
    = (Ok tt, holding (Document (removed config n)) (removed config n)).
Proof.
  split; [|split; [|split; [|split]]].
  - unfold await. rewrite removeRole_start. cbn. by rewrite find_filter_same.
  - intros Hne. unfold await. rewrite removeRole_start. cbn.
    by rewrite find_filter_other.
  - reflexivity.
  - reflexivity.
  - unfold await. rewrite removeRole_start. cbn [newProcess holding file].
    rewrite removeRole_start. unfold removed. cbn.
    by rewrite filter_nameIsNot_idem.
Qed.

(** X15.  Adding a role whose name is new and then removing that name, in
    the same process or in a later one, gives back the configuration. *)
Theorem addRole_then_removeRole (config : QADirectorConfig) (role : Role) :
  name role ∉ map name (roles config) ->
  (let/a _ := addRole role in removeRole (name role)) (start (Document config))
    = (Ok tt, holding (Document config) config) /\
  (let/a _ := addRole role in let/a _ := newProcess in removeRole (name role))
    (start (Document config))
    = (Ok tt, holding (Document config) (added config role)).
Proof.
  intros Hn. split.
  - unfold await. rewrite addRole_start, removeRole_holding.
    unfold removed. rewrite filter_nameIsNot_absent by done.
    by rewrite setRoles_same.
  - unfold await. rewrite addRole_start. cbn [newProcess holding file].
    rewrite removeRole_start. unfold removed, added. cbn.
    rewrite List.filter_app, filter_nameIsNot_idem. cbn [List.filter].
    replace (nameIsNot (name role) role) with false
      by (symmetry; apply bool_decide_eq_false_2; intros H; by apply H).
    rewrite app_nil_r, filter_nameIsNot_absent by done.
    by destruct config.
Qed.

Lemma addRole_then_removeRole_witness :
  (let/a _ := addRole (mkRole (str "guest") (str "auth/guest.json") None None None)
   in removeRole (str "guest")) (start (Document sampleConfig))
  = (Ok tt, holding (Document sampleConfig) sampleConfig).
Proof.
  apply (addRole_then_removeRole sampleConfig
           (mkRole (str "guest") (str "auth/guest.json") None None None)).
  vm_compute. intros H.
  repeat (apply elem_of_cons in H as [H|H]; [discriminate H|]).
  by apply elem_of_nil in H.
Defined.

Lemma names_filter n (l : list Role) x :
  x ∈ map name (List.filter (nameIsNot n) l) -> x ∈ map name l /\ x <> n.
Proof.
  intros H. apply list_elem_of_In, List.in_map_iff in H as (r & <- & Hr).
  apply List.filter_In in Hr as [Hr Hb]. unfold nameIsNot in Hb.
  apply bool_decide_eq_true in Hb. split; [|done].
  by apply list_elem_of_In, List.in_map.
Qed.

Lemma NoDup_names_filter n (l : list Role) :
  NoDup (map name l) -> NoDup (map name (List.filter (nameIsNot n) l)).
Proof.
  induction l as [|r l IH]; simpl; [done|]. intros H.
  apply NoDup_cons in H as [Hr Hl]. destruct (nameIsNot n r); [|by apply IH].
  simpl. apply NoDup_cons. split; [|by apply IH].
  intros Hin. by apply names_filter in Hin as [Hin _].
Qed.

(** X16.  [addRole] and [removeRole] keep role names unique: if no two
    roles of the configuration share a name, the same holds of the
    configuration they save. *)
Theorem registry_keeps_names_unique (config : QADirectorConfig) (role : Role)
    (roleName : text) :
  NoDup (map name (roles config)) ->
  (exists config',
     addRole role (start (Document config))
       = (Ok tt, holding (Document config') config) /\
     NoDup (map name (roles config'))) /\
  (exists config',
     removeRole roleName (start (Document config))
       = (Ok tt, holding (Document config') config) /\
     NoDup (map name (roles config'))).
Proof.
  intros Hnd. split.
  - exists (added config role). split; [apply addRole_start|].
    unfold added. cbn. rewrite map_app. apply NoDup_app.
    split; [by apply NoDup_names_filter|]. split; [|apply NoDup_singleton].
    intros x Hx Hx'. apply list_elem_of_singleton in Hx'. subst x.
    by apply names_filter in Hx as [_ Hx].
  - exists (removed config roleName). split; [apply removeRole_start|].
    by apply NoDup_names_filter.
Qed.

Lemma registry_keeps_names_unique_witness :
  exists config',
    addRole (mkRole (str "user") (str "auth/new.json") None None None)
      (start (Document sampleConfig))
      = (Ok tt, holding (Document config') sampleConfig) /\
    NoDup (map name (roles config')).
Proof.
  apply (registry_keeps_names_unique sampleConfig
           (mkRole (str "user") (str "auth/new.json") None None None) (str "user")).
  apply NoDup_cons. split; [|apply NoDup_singleton].
  intros H. apply list_elem_of_singleton in H. discriminate H.
Defined.

(** X17.  A configuration file that cannot be loaded counts as missing:
    [addRole], [removeRole] and [updateConfig] throw the not-found error
    and leave the file as it is, [getRoles] returns the empty list and
    [getRole] returns null without an error.  [configExists] still answers
    true for such a file. *)
Theorem unusable_configuration (f : ConfigFile) (role : Role) (roleName : text)
    (updates : PartialConfig) :
  unusable f ->
  exists p,
    file p = f /\
    addRole role (start f) = (Throw notFound, p) /\
    removeRole roleName (start f) = (Throw notFound, p) /\
    updateConfig updates (start f) = (Throw notFound, p) /\
    getRoles (start f) = (Ok [], p) /\
    getRole roleName (start f) = (Ok None, p) /\
    (f <> NoFile -> configExists (start f) = (Ok true, start f)).
Proof.
  intros [-> | [-> | ->]].
  - exists (start NoFile). repeat split; try reflexivity. by intros [].
  - exists (start Unbuildable). repeat split; reflexivity.
  - exists (mkProcess Invalid (Some None)). repeat split; reflexivity.
Qed.

Lemma unusable_configuration_witness :
  exists p,
    file p = Invalid /\
    addRole (mkRole (str "user") (str "auth/new.json") None None None)
      (start Invalid) = (Throw notFound, p) /\
    configExists (start Invalid) = (Ok true, start Invalid).
Proof.
  destruct (unusable_configuration Invalid
              (mkRole (str "user") (str "auth/new.json") None None None)
              (str "user") (mkPartial None None None None None None None None))
    as (p & Hp & H1 & _ & _ & _ & _ & H6); [right; by right|].
  exists p. split; [exact Hp|]. split; [exact H1|]. by apply H6.
Defined.

Lemma spread_idem config updates :
  spread (spread config updates) updates = spread config updates.
Proof.
  destruct updates as [[] [] [] [] [] [] [] []]; reflexivity.
Qed.


(** X26.  Two roles of different names added by one process: the second
    call works from the configuration as first imported, so the document
    it writes holds the second role and not the first.  Added by two
    processes, both roles are in the document. *)
Theorem addRole_twice (config : QADirectorConfig) (r1 r2 : Role) :
  name r1 <> name r2 ->
  name r1 ∉ map name (roles config) ->
  (let/a _ := addRole r1 in addRole r2) (start (Document config))
    = (Ok tt, holding (Document (added config r2)) config) /\
  (r1 ∉ roles (added config r2)) /\
  (let/a _ := addRole r1 in let/a _ := newProcess in addRole r2)
    (start (Document config))
    = (Ok tt, holding (Document (added (added config r1) r2)) (added config r1)) /\
  (r1 ∈ roles (added (added config r1) r2)) /\
  (r2 ∈ roles (added (added config r1) r2)).
Proof.
  intros Hne Hnew. split; [|split; [|split; [|split]]].
  - unfold await. by rewrite addRole_start, addRole_holding.
  - unfold added. cbn. intros H. apply elem_of_app in H as [H|H].
    + apply list_elem_of_In, List.filter_In in H as [H _].
      apply Hnew. apply list_elem_of_In, List.in_map. exact H.
    + apply list_elem_of_singleton in H. by subst r2.
  - unfold await. rewrite addRole_start. cbn [newProcess holding file].
    by rewrite addRole_start.
  - unfold added. cbn. apply elem_of_app. left.
    apply list_elem_of_In, List.filter_In. split.
    + apply in_or_app. right. by left.
    + unfold nameIsNot. by apply bool_decide_eq_true_2.
  - unfold added. cbn. apply elem_of_app. right. apply list_elem_of_here.
Qed.

Lemma addRole_twice_witness :
  let r1 := mkRole (str "guest") (str "auth/guest.json") None None None in
  let r2 := mkRole (str "editor") (str "auth/editor.json") None None None in
  (let/a _ := addRole r1 in addRole r2) (start (Document sampleConfig))
    = (Ok tt, holding (Document (added sampleConfig r2)) sampleConfig) /\
  r1 ∉ roles (added sampleConfig r2).
Proof.
  intros r1 r2.
  destruct (addRole_twice sampleConfig r1 r2) as (H1 & H2 & _).
  - discriminate.
  - vm_compute. intros H.
    repeat (apply elem_of_cons in H as [H|H]; [discriminate H|]).
    by apply elem_of_nil in H.
  - split; [exact H1|exact H2].
Defined.

End RegistryFacts.

(** ** Environment files *)

Module FilesFacts.
Import RegexFacts ReplaceFacts Config Files.

Lemma includes_spec p t :
  includes p t = true <-> exists a b, t = a ++ p ++ b.
Proof.
  split.
  - induction t as [|c t IH].
    + simpl. rewrite orb_false_r. intros H. apply startsWith_spec in H as [u ->].
      by exists [], u.
    + rewrite includes_cons. intros H. apply orb_true_iff in H as [H|H].
      * apply startsWith_spec in H as [u ->]. by exists [], u.
      * destruct (IH H) as (a & b & ->). by exists (c :: a), b.
  - intros (a & b & ->). apply includes_middle.
Qed.

Lemma includes_app_l p a b : includes p a = true -> includes p (a ++ b) = true.
Proof.
  intros H. apply includes_spec in H as (x & y & ->).
  rewrite <- !app_assoc. apply includes_middle.
Qed.

Lemma example_path_differs config : examplePathOf config <> envDir config.
Proof.
  unfold examplePathOf. intros H. apply (f_equal length) in H.
  rewrite length_app in H. simpl in H. lia.
Qed.

(** The loop only appends. *)
Lemma envFiles_grow actualValues envVars : forall st,
  exists a b,
    foldl (envFilesStep actualValues) st envVars = (st.1 ++ a, st.2 ++ b).
Proof.
  induction envVars as [|n envVars IH]; intros [e x].
  - exists [], []. simpl. by rewrite !app_nil_r.
  - cbn [foldl]. destruct (IH (envFilesStep actualValues (e, x) n)) as (a & b & ->).
    unfold envFilesStep. cbn [fst snd].
    destruct (includes n e), (includes n x); cbn [fst snd];
      rewrite <- ?app_assoc; by eexists _, _.
Qed.

(** After the loop every name occurs in both contents. *)
Lemma envFiles_present actualValues envVars : forall st n,
  n ∈ envVars ->
  includes n (foldl (envFilesStep actualValues) st envVars).1 = true /\
  includes n (foldl (envFilesStep actualValues) st envVars).2 = true.
Proof.
  induction envVars as [|n0 envVars IH]; intros [e x] n Hn;
    [by apply elem_of_nil in Hn|].
  cbn [foldl]. apply elem_of_cons in Hn as [->|Hn]; [|by apply IH].
  destruct (envFiles_grow actualValues envVars (envFilesStep actualValues (e, x) n0))
    as (a & b & ->). cbn [fst snd].
  unfold envFilesStep. cbn [fst snd]. split; apply includes_app_l.
  - destruct (includes n0 e) eqn:E; [done|]. apply includes_middle.
  - destruct (includes n0 x) eqn:E; [done|]. apply includes_middle.
Qed.

(** Contents that hold every name are left as they are. *)
Lemma envFiles_fixed actualValues envVars : forall st,
  (forall n, n ∈ envVars -> includes n st.1 = true /\ includes n st.2 = true) ->
  foldl (envFilesStep actualValues) st envVars = st.
Proof.
  induction envVars as [|n envVars IH]; intros [e x] H; [done|].
  cbn [foldl]. destruct (H n) as [He Hx]; [apply list_elem_of_here|].
  cbn [fst snd] in He, Hx. unfold envFilesStep at 2. rewrite He, Hx.
  apply IH. intros n' Hn'. apply H. by apply list_elem_of_further.
Qed.

Lemma readEnvFiles_both config fs e x :
  fs !! envDir config = Some e -> fs !! examplePathOf config = Some x ->
  readEnvFiles config fs = (e, x).
Proof. unfold readEnvFiles. by intros -> ->. Qed.

(** X19.  When both environment files exist, [updateEnvFiles] only
    appends to them: each keeps its content as a prefix, and no other file
    is touched. *)
Theorem updateEnvFiles_appends (config : QADirectorConfig) (envVars : list text)
    (actualValues : option (gmap text text)) (fs : gmap text text) (e x : text) :
  fs !! envDir config = Some e ->
  fs !! examplePathOf config = Some x ->
  exists a b,
    updateEnvFiles config envVars actualValues fs
    = <[examplePathOf config := x ++ b]> (<[envDir config := e ++ a]> fs).
Proof.
  intros He Hx. unfold updateEnvFiles. rewrite (readEnvFiles_both _ _ _ _ He Hx).
  destruct (envFiles_grow actualValues envVars (e, x)) as (a & b & ->).
  by exists a, b.
Qed.

Lemma updateEnvFiles_appends_witness :
  exists a b,
    updateEnvFiles sampleConfig [str "QA_USER_EMAIL"] None
      (createEnvFiles sampleConfig None ∅)
    = <[examplePathOf sampleConfig := envTemplate ++ b]>
        (<[envDir sampleConfig := envTemplate ++ a]>
           (createEnvFiles sampleConfig None ∅)).
Proof.
  apply (updateEnvFiles_appends sampleConfig [str "QA_USER_EMAIL"] None
           (createEnvFiles sampleConfig None ∅) envTemplate envTemplate).
  - vm_compute. reflexivity.
  - vm_compute. reflexivity.
Defined.

Lemma updateEnvFiles_lookup config envVars actualValues fs :
  updateEnvFiles config envVars actualValues fs !! envDir config
    = Some (foldl (envFilesStep actualValues) (readEnvFiles config fs) envVars).1 /\
  updateEnvFiles config envVars actualValues fs !! examplePathOf config
    = Some (foldl (envFilesStep actualValues) (readEnvFiles config fs) envVars).2.
Proof.
  unfold updateEnvFiles.
  destruct (foldl (envFilesStep actualValues) (readEnvFiles config fs) envVars)
    as [e x]. cbn [fst snd]. split.
  - rewrite lookup_insert_ne by apply example_path_differs.
    apply lookup_insert_eq.
  - apply lookup_insert_eq.
Qed.

(** X20.  After [updateEnvFiles] both files exist and every requested name
    occurs in each of them, whether or not the files existed before. *)
Theorem updateEnvFiles_names_present (config : QADirectorConfig)
    (envVars : list text) (actualValues : option (gmap text text))
    (fs : gmap text text) (n : text) :
  n ∈ envVars ->
  exists e x,
    updateEnvFiles config envVars actualValues fs !! envDir config = Some e /\
    updateEnvFiles config envVars actualValues fs !! examplePathOf config = Some x /\
    includes n e = true /\ includes n x = true.
Proof.
  intros Hn. destruct (updateEnvFiles_lookup config envVars actualValues fs)
    as [-> ->].
  do 2 eexists. split; [done|]. split; [done|]. by apply envFiles_present.
Qed.

Lemma updateEnvFiles_names_present_witness :
  exists e x,
    updateEnvFiles sampleConfig [str "QA_USER_EMAIL"] None ∅
      !! envDir sampleConfig = Some e /\
    updateEnvFiles sampleConfig [str "QA_USER_EMAIL"] None ∅
      !! examplePathOf sampleConfig = Some x /\
    includes (str "QA_USER_EMAIL") e = true /\
    includes (str "QA_USER_EMAIL") x = true.
Proof.
  apply (updateEnvFiles_names_present sampleConfig [str "QA_USER_EMAIL"] None ∅).
  apply list_elem_of_here.
Defined.

(** X21.  [updateEnvFiles] is idempotent: a second run with the same names
    changes nothing, since each name already occurs. *)
Theorem updateEnvFiles_idempotent (config : QADirectorConfig)
    (envVars : list text) (actualValues actualValues' : option (gmap text text))
    (fs : gmap text text) :
  updateEnvFiles config envVars actualValues'
    (updateEnvFiles config envVars actualValues fs)
  = updateEnvFiles config envVars actualValues fs.
Proof.
  destruct (updateEnvFiles_lookup config envVars actualValues fs) as [He Hx].
  set (fs1 := updateEnvFiles config envVars actualValues fs) in *.
  unfold updateEnvFiles at 1. rewrite (readEnvFiles_both _ _ _ _ He Hx).
  rewrite envFiles_fixed.
  - rewrite (insert_id fs1 _ _ He). by rewrite (insert_id fs1 _ _ Hx).
  - intros n Hn. cbn [fst snd]. by apply envFiles_present.
Qed.

(** X22.  When the example file is missing, the content of the
    environment file is not read: both files are written from the
    template, so what the environment file held before is lost. *)
Theorem updateEnvFiles_without_example (config : QADirectorConfig)
    (envVars : list text) (actualValues : option (gmap text text))
    (fs : gmap text text) (content : text) :
  fs !! examplePathOf config = None ->
  updateEnvFiles config envVars actualValues (<[envDir config := content]> fs)
  = updateEnvFiles config envVars actualValues (delete (envDir config) fs) /\
  updateEnvFiles config envVars actualValues (<[envDir config := content]> fs)
    !! envDir config
  = Some (foldl (envFilesStep actualValues) (envTemplate, envTemplate) envVars).1.
Proof.
  intros Hx.
  assert (forall fs', fs' !! examplePathOf config = None ->
            readEnvFiles config fs' = (envTemplate, envTemplate)) as Hread.
  { intros fs' H. unfold readEnvFiles. rewrite H. by destruct (fs' !! envDir config). }
  assert (<[envDir config := content]> fs !! examplePathOf config = None) as H1.
  { rewrite lookup_insert_ne; [done|]. intros H. by apply (example_path_differs config). }
  assert (delete (envDir config) fs !! examplePathOf config = None) as H2.
  { rewrite lookup_delete_ne; [done|]. intros H. by apply (example_path_differs config). }
  split.
  - unfold updateEnvFiles. rewrite (Hread _ H1), (Hread _ H2).
    destruct (foldl _ _ envVars) as [e x].
    by rewrite insert_insert_eq, insert_delete_eq.
  - destruct (updateEnvFiles_lookup config envVars actualValues
                (<[envDir config := content]> fs)) as [-> _].
    by rewrite (Hread _ H1).
Qed.

Lemma updateEnvFiles_without_example_witness :
  updateEnvFiles sampleConfig [str "QA_USER_EMAIL"] None
    (<[envDir sampleConfig := str "SECRET=1"]> ∅)
  = updateEnvFiles sampleConfig [str "QA_USER_EMAIL"] None
      (delete (envDir sampleConfig) ∅).
Proof.
  apply (updateEnvFiles_without_example sampleConfig [str "QA_USER_EMAIL"] None
           ∅ (str "SECRET=1")).
  apply lookup_empty.
Defined.

(** *** Lines *)

Lemma splitOn_nonnil sep t : splitOn sep t <> [].
Proof.
  destruct t as [|c t]; simpl; [done|].
  destruct (eqc c sep); [done|]. by destruct (splitOn sep t).
Qed.

Lemma join_split sep t : joinWith sep (splitOn sep t) = t.
Proof.
  induction t as [|c t IH]; [done|]. simpl.
  destruct (splitOn sep t) as [|l ls] eqn:S; [by apply splitOn_nonnil in S|].
  destruct (eqc c sep) eqn:E.
  - apply eqc_true in E as ->. by rewrite <- IH.
  - rewrite <- IH. by destruct ls.
Qed.

Lemma splitOn_app_sep sep a b :
  splitOn sep (a ++ sep :: b) = splitOn sep a ++ splitOn sep b.
Proof.
  induction a as [|c a IH].
  - simpl. by rewrite eqc_refl.
  - simpl. rewrite IH. destruct (eqc c sep); [done|].
    destruct (splitOn sep a) as [|l ls] eqn:S; [by apply splitOn_nonnil in S|].
    done.
Qed.

Lemma splitOn_plain sep l : sep ∉ l -> splitOn sep l = [l].
Proof.
  induction l as [|c l IH]; intros H; [done|]. simpl.
  destruct (eqc c sep) eqn:E.
  - apply eqc_true in E as ->. destruct H. apply list_elem_of_here.
  - rewrite IH; [done|]. intros H'. apply H. by apply list_elem_of_further.
Qed.

Lemma splitOn_lines_plain sep t : Forall (fun l => sep ∉ l) (splitOn sep t).
Proof.
  induction t as [|c t IH]; simpl.
  - constructor; [|constructor]. apply not_elem_of_nil.
  - destruct (eqc c sep) eqn:E.
    + constructor; [apply not_elem_of_nil|done].
    + destruct (splitOn sep t) as [|l ls] eqn:S; [by apply splitOn_nonnil in S|].
      inversion IH as [|? ? Hl Hls]; subst. constructor; [|done].
      intros H. apply elem_of_cons in H as [->|H]; [|done].
      by rewrite eqc_refl in E.
Qed.

Lemma split_join sep ls :
  ls <> [] -> Forall (fun l => sep ∉ l) ls ->
  splitOn sep (joinWith sep ls) = ls.
Proof.
  induction ls as [|l ls IH]; [done|]. intros _ H.
  inversion H as [|? ? Hl Hls]; subst. destruct ls as [|l' ls].
  - simpl. by apply splitOn_plain.
  - change (joinWith sep (l :: l' :: ls)) with (l ++ sep :: joinWith sep (l' :: ls)).
    rewrite splitOn_app_sep, (splitOn_plain _ _ Hl), IH; done.
Qed.

Lemma join_elem_infix sep ls l :
  In l ls -> exists a b, joinWith sep ls = a ++ l ++ b.
Proof.
  induction ls as [|l1 ls IH]; [done|]. intros [->|H].
  - destruct ls as [|l2 ls].
    + exists [], []. simpl. by rewrite app_nil_r.
    + exists [], (sep :: joinWith sep (l2 :: ls)). done.
  - destruct ls as [|l2 ls]; [done|].
    destruct (IH H) as (a & b & E).
    exists (l1 ++ sep :: a), b.
    change (joinWith sep (l1 :: l2 :: ls)) with (l1 ++ sep :: joinWith sep (l2 :: ls)).
    rewrite E. by rewrite <- app_assoc.
Qed.

Lemma filter_length_eq {A} (f : A -> bool) l :
  length (List.filter f l) = length l -> List.filter f l = l.
Proof.
  induction l as [|a l IH]; [done|]. simpl. destruct (f a); simpl; intros H.
  - f_equal. apply IH. lia.
  - pose proof (List.filter_length_le f l). lia.
Qed.

Lemma filter_all {A} (f : A -> bool) l :
  Forall (fun a => f a = true) l -> List.filter f l = l.
Proof.
  induction 1 as [|a l Ha _ IH]; [done|]. simpl. by rewrite Ha, IH.
Qed.

Lemma filter_none {A} (f : A -> bool) l :
  Forall (fun a => f a = false) l -> List.filter f l = [].
Proof.
  induction 1 as [|a l Ha _ IH]; [done|]. simpl. by rewrite Ha, IH.
Qed.

Lemma filter_twice {A} (f g : A -> bool) l :
  List.filter f (List.filter g l) = List.filter (fun a => g a && f a) l.
Proof.
  induction l as [|a l IH]; [done|]. simpl.
  destruct (g a); simpl; [destruct (f a)|]; by rewrite ?IH.
Qed.

Lemma keepsLine_nil n : keepsLine n [] = true.
Proof. unfold keepsLine. by destruct n. Qed.

Lemma keepsAll_nil envVars : keepsAll envVars [] = true.
Proof.
  unfold keepsAll. apply forallb_forall. intros n _. apply keepsLine_nil.
Qed.

Lemma withoutLines_none content : withoutLines [] content = content.
Proof.
  unfold withoutLines. rewrite filter_all; [apply join_split|].
  apply Forall_forall. done.
Qed.

(** *** The removal loop *)

Lemma removeStep_fst content m n :
  (removeStep (content, m) n).1 = withoutLines [n] content.
Proof.
  unfold withoutLines, removeStep.
  assert (List.filter (keepsAll [n]) (splitOn newline content)
          = List.filter (keepsLine n) (splitOn newline content)) as ->.
  { apply List.filter_ext. intros l. unfold keepsAll. simpl. apply andb_true_r. }
  destruct (Nat.eqb_spec (length (List.filter (keepsLine n) (splitOn newline content)))
              (length (splitOn newline content))) as [E|E]; cbn [fst]; [|done].
  by rewrite (filter_length_eq _ _ E), join_split.
Qed.

(** The sequence of passes, each splitting the text anew, keeps the lines
    that a single pass with all names keeps. *)
Lemma withoutLines_cons n envVars content :
  withoutLines envVars (withoutLines [n] content)
  = withoutLines (n :: envVars) content.
Proof.
  unfold withoutLines at 2.
  destruct (List.filter (keepsAll [n]) (splitOn newline content)) as [|l ls] eqn:E.
  - unfold withoutLines. simpl joinWith. simpl splitOn. simpl List.filter.
    rewrite keepsAll_nil. simpl.
    rewrite filter_none; [done|].
    apply Forall_forall. intros l Hl. apply list_elem_of_In in Hl.
    assert (~ In l (List.filter (keepsAll [n]) (splitOn newline content))) as Hn
      by (rewrite E; auto).
    rewrite List.filter_In in Hn.
    destruct (keepsAll [n] l) eqn:K; [destruct Hn; by split|].
    unfold keepsAll in *. simpl in *. rewrite andb_true_r in K. by rewrite K.
  - unfold withoutLines. rewrite split_join.
    + rewrite <- E, filter_twice. f_equal. apply List.filter_ext. intros a.
      unfold keepsAll. simpl. by rewrite andb_true_r.
    + done.
    + rewrite <- E. apply Forall_forall. intros a Ha.
      apply list_elem_of_In, List.filter_In in Ha as [Ha _].
      pose proof (splitOn_lines_plain newline content) as H.
      rewrite Forall_forall in H. by apply H, list_elem_of_In.
Qed.

Lemma removeLoop_fst envVars : forall content m,
  (foldl removeStep (content, m) envVars).1 = withoutLines envVars content.
Proof.
  induction envVars as [|n envVars IH]; intros content m.
  - simpl. by rewrite withoutLines_none.
  - cbn [foldl]. pose proof (removeStep_fst content m n) as H.
    destruct (removeStep (content, m) n) as [c1 m1]. cbn [fst] in H. subst c1.
    rewrite IH. apply withoutLines_cons.
Qed.

Lemma removeLoop_flag_set envVars : forall content,
  (foldl removeStep (content, true) envVars).2 = true.
Proof.
  induction envVars as [|n envVars IH]; intros content; [done|].
  cbn [foldl]. unfold removeStep at 2.
  destruct (_ =? _); apply IH.
Qed.

(** The flag stays unset only when the content stays as it was. *)
Lemma removeLoop_flag envVars : forall content,
  (foldl removeStep (content, false) envVars).2 = false ->
  (foldl removeStep (content, false) envVars).1 = content.
Proof.
  induction envVars as [|n envVars IH]; intros content; [done|].
  cbn [foldl]. unfold removeStep at 2 4.
  destruct (_ =? _); [apply IH|].
  rewrite removeLoop_flag_set. discriminate.
Qed.

Lemma removeFromFile_spec envVars fs filePath :
  removeFromFile envVars fs filePath
  = match fs !! filePath with
    | None => fs
    | Some content => <[filePath := withoutLines envVars content]> fs
    end.
Proof.
  unfold removeFromFile. destruct (fs !! filePath) as [content|] eqn:E; [|done].
  pose proof (removeLoop_fst envVars content false) as H1.
  pose proof (removeLoop_flag envVars content) as H2.
  destruct (foldl removeStep (content, false) envVars) as [c' m]. cbn [fst snd] in *.
  subst c'. destruct m; [done|]. rewrite H2 by done. by rewrite insert_id.
Qed.

Lemma removeFromFile_lookup envVars fs filePath p :
  removeFromFile envVars fs filePath !! p
  = if decide (p = filePath) then withoutLines envVars <$> fs !! p else fs !! p.
Proof.
  rewrite removeFromFile_spec. destruct (decide (p = filePath)) as [->|Hp].
  - destruct (fs !! filePath) as [content|] eqn:E; [|by rewrite E].
    by rewrite lookup_insert_eq.
  - destruct (fs !! filePath) as [content|] eqn:E; [|done].
    by rewrite lookup_insert_ne.
Qed.

Lemma removeRoleEnvVars_fold config role fs names :
  envVars role = Some names ->
  removeRoleEnvVars config role fs
  = foldl (removeFromFile names) fs [envDir config; examplePathOf config].
Proof.
  unfold removeRoleEnvVars. intros ->. destruct names as [|v vs]; [|done].
  simpl. rewrite !removeFromFile_spec.
  destruct (fs !! envDir config) as [e|] eqn:He.
  - rewrite withoutLines_none, (insert_id fs _ _ He).
    destruct (fs !! examplePathOf config) as [x|] eqn:Hx; [|done].
    by rewrite withoutLines_none, insert_id.
  - destruct (fs !! examplePathOf config) as [x|] eqn:Hx; [|done].
    by rewrite withoutLines_none, insert_id.
Qed.

Lemma removeRoleEnvVars_lookup config role fs names :
  envVars role = Some names ->
  removeRoleEnvVars config role fs !! envDir config
    = withoutLines names <$> fs !! envDir config /\
  removeRoleEnvVars config role fs !! examplePathOf config
    = withoutLines names <$> fs !! examplePathOf config /\
  forall p, p <> envDir config -> p <> examplePathOf config ->
    removeRoleEnvVars config role fs !! p = fs !! p.
Proof.
  intros H. rewrite (removeRoleEnvVars_fold _ _ _ _ H). cbn [foldl].
  pose proof (example_path_differs config) as Hd.
  split; [|split].
  - rewrite !removeFromFile_lookup.
    destruct (decide (envDir config = examplePathOf config)) as [E|_]; [by destruct Hd|].
    by destruct (decide (envDir config = envDir config)).
  - rewrite !removeFromFile_lookup.
    destruct (decide (examplePathOf config = examplePathOf config)); [|done].
    by destruct (decide (examplePathOf config = envDir config)).
  - intros p H1 H2. rewrite !removeFromFile_lookup.
    destruct (decide (p = examplePathOf config)); [done|].
    by destruct (decide (p = envDir config)).
Qed.

(** X23.  [removeRoleEnvVars] leaves in each of the two environment files
    the lines that none of the role's variables rejects, joined again: the
    passes of the loop, one per variable and each splitting the text anew,
    amount to one filter.  A file that is absent stays absent and no other
    file changes. *)
Theorem removeRoleEnvVars_lines (config : QADirectorConfig) (role : Role)
    (fs : gmap text text) (names : list text) :
  envVars role = Some names ->
  removeRoleEnvVars config role fs !! envDir config
    = withoutLines names <$> fs !! envDir config /\
  removeRoleEnvVars config role fs !! examplePathOf config
    = withoutLines names <$> fs !! examplePathOf config /\
  forall p, p <> envDir config -> p <> examplePathOf config ->
    removeRoleEnvVars config role fs !! p = fs !! p.
Proof. apply removeRoleEnvVars_lookup. Qed.

Lemma removeRoleEnvVars_lines_witness :
  removeRoleEnvVars sampleConfig
    (mkRole (str "user") (str "auth/user.json") None
       (Some [str "QA_USER_EMAIL"]) None)
    (updateEnvFiles sampleConfig [str "QA_USER_EMAIL"] None ∅)
    !! envDir sampleConfig
  = withoutLines [str "QA_USER_EMAIL"]
      <$> updateEnvFiles sampleConfig [str "QA_USER_EMAIL"] None ∅
            !! envDir sampleConfig.
Proof.
  apply (removeRoleEnvVars_lines sampleConfig
           (mkRole (str "user") (str "auth/user.json") None
              (Some [str "QA_USER_EMAIL"]) None)
           (updateEnvFiles sampleConfig [str "QA_USER_EMAIL"] None ∅)
           [str "QA_USER_EMAIL"]).
  reflexivity.
Defined.

Lemma withoutLines_kept names content n line :
  n ∈ names -> In line (splitOn newline (withoutLines names content)) ->
  keepsLine n line = true.
Proof.
  intros Hn. unfold withoutLines.
  destruct (List.filter (keepsAll names) (splitOn newline content)) as [|l ls] eqn:E.
  - simpl. intros [<-|[]]. apply keepsLine_nil.
  - rewrite split_join; [|done|].
    + rewrite <- E. intros H. apply List.filter_In in H as [_ H].
      unfold keepsAll in H. rewrite forallb_forall in H.
      by apply H, list_elem_of_In.
    + rewrite <- E. apply Forall_forall. intros a Ha.
      apply list_elem_of_In, List.filter_In in Ha as [Ha _].
      pose proof (splitOn_lines_plain newline content) as H.
      rewrite Forall_forall in H. by apply H, list_elem_of_In.
Qed.

(** X24.  After [removeRoleEnvVars] no line of either environment file,
    once trimmed, starts with a variable of the role followed by an equals
    sign. *)
Theorem removeRoleEnvVars_no_line (config : QADirectorConfig) (role : Role)
    (fs : gmap text text) (names : list text) (n path content line : text) :
  envVars role = Some names ->
  n ∈ names ->
  path = envDir config \/ path = examplePathOf config ->
  removeRoleEnvVars config role fs !! path = Some content ->
  In line (splitOn newline content) ->
  startsWith (n ++ str "=") (trim line) = false.
Proof.
  intros H Hn Hp Hc Hl.
  destruct (removeRoleEnvVars_lookup config role fs names H) as (He & Hx & _).
  assert (exists c0, content = withoutLines names c0) as [c0 ->].
  { destruct Hp as [-> | ->].
    - rewrite He in Hc. destruct (fs !! envDir config) as [c0|]; [|done].
      exists c0. by injection Hc.
    - rewrite Hx in Hc. destruct (fs !! examplePathOf config) as [c0|]; [|done].
      exists c0. by injection Hc. }
  pose proof (withoutLines_kept names c0 n line Hn Hl) as K.
  unfold keepsLine in K. by apply negb_true_iff in K.
Qed.


Lemma removeRoleEnvVars_no_line_witness :
  startsWith (str "QA_USER_EMAIL" ++ str "=")
    (trim (str "# QA Director Environment Variables")) = false.
Proof.
  apply (removeRoleEnvVars_no_line sampleConfig
           (mkRole (str "user") (str "auth/user.json") None
              (Some [str "QA_USER_EMAIL"]) None)
           (updateEnvFiles sampleConfig [str "QA_USER_EMAIL"] None ∅)
           [str "QA_USER_EMAIL"] (str "QA_USER_EMAIL") (envDir sampleConfig)
           envTemplate (str "# QA Director Environment Variables")).
  - reflexivity.
  - apply list_elem_of_here.
  - left. reflexivity.
  - vm_compute. reflexivity.
  - vm_compute. left. reflexivity.
Defined.

(** *** Adding and removing *)

Lemma trimStart_suffix t : exists a, t = a ++ trimStart t.
Proof.
  induction t as [|c t [a IH]]; [by exists []|]. simpl.
  destruct (space c); [|by exists []]. exists (c :: a). simpl. by f_equal.
Qed.

Lemma trim_infix t : exists a b, t = a ++ trim t ++ b.
Proof.
  destruct (trimStart_suffix t) as [a Ha].
  destruct (trimStart_suffix (rev (trimStart t))) as [b Hb].
  exists a, (rev b). unfold trim.
  apply (f_equal (@rev ascii)) in Hb. rewrite rev_involutive, rev_app_distr in Hb.
  rewrite <- Hb. exact Ha.
Qed.

Lemma trimStart_app_keep u c w :
  space c = false -> trimStart (u ++ c :: w) = trimStart u ++ c :: w.
Proof.
  intros H. induction u as [|a u IH]; simpl; [by rewrite H|].
  by destruct (space a).
Qed.

Lemma trimStart_length t : length (trimStart t) <= length t.
Proof.
  induction t as [|c t IH]; simpl; [lia|]. destruct (space c); simpl; lia.
Qed.

Lemma trimStart_fixed c t : trimStart (c :: t) = c :: t -> space c = false.
Proof.
  simpl. destruct (space c); [|done]. intros H.
  pose proof (trimStart_length t) as L. rewrite H in L. simpl in L. lia.
Qed.

(** A line that starts with the name and an equals sign is rejected. *)
Lemma keepsLine_own n v :
  n <> [] -> trimStart n = n -> keepsLine n (n ++ str "=" ++ v) = false.
Proof.
  intros Hn Ht. destruct n as [|c0 n']; [done|].
  pose proof (trimStart_fixed _ _ Ht) as Hc.
  unfold keepsLine. apply negb_false_iff.
  assert (trim ((c0 :: n') ++ str "=" ++ v)
          = ((c0 :: n') ++ str "=") ++ rev (trimStart (rev v))) as ->.
  { unfold trim. change (trimStart ((c0 :: n') ++ str "=" ++ v))
      with (if space c0 then trimStart (n' ++ str "=" ++ v)
            else (c0 :: n') ++ str "=" ++ v).
    rewrite Hc. change (str "=" ++ v) with ("="%char :: v).
    rewrite rev_app_distr. simpl rev at 1.
    rewrite <- app_assoc. simpl app at 2.
    rewrite trimStart_app_keep by done.
    rewrite rev_app_distr. simpl rev at 1.
    by rewrite rev_app_distr, rev_involutive. }
  apply startsWith_app.
Qed.

(** A line of a content in which the name does not occur is kept. *)
Lemma keepsLine_absent n content line :
  includes n content = false -> In line (splitOn newline content) ->
  keepsLine n line = true.
Proof.
  intros Hn Hl. unfold keepsLine. apply negb_true_iff, not_true_is_false.
  intros H. apply startsWith_spec in H as [u Hu].
  destruct (trim_infix line) as (a & b & Hline). rewrite Hu in Hline.
  destruct (join_elem_infix newline _ _ Hl) as (a' & b' & Hc).
  rewrite join_split in Hc.
  assert (includes n content = true) as Hi; [|congruence].
  apply includes_spec. exists (a' ++ a), (str "=" ++ u ++ b ++ b').
  rewrite Hc, Hline. by rewrite <- !app_assoc.
Qed.

(** The text of a list of lines, each ended by a line feed. *)
Lemma splitOn_block (ls : list text) :
  Forall (fun l => newline ∉ l) ls ->
  splitOn newline (concat (map (fun l => l ++ nl) ls)) = ls ++ [[]].
Proof.
  induction 1 as [|l ls Hl _ IH]; [done|]. simpl.
  unfold nl at 1. rewrite <- app_assoc. simpl app at 2.
  change (ascii_of_nat 10) with newline.
  by rewrite splitOn_app_sep, (splitOn_plain _ _ Hl), IH.
Qed.

Lemma withoutLines_appended names content ls :
  endsLines content ->
  (forall n, n ∈ names -> includes n content = false) ->
  Forall (ownLine names) ls ->
  withoutLines names (content ++ concat (map (fun l => l ++ nl) ls)) = content.
Proof.
  intros He Hn Hls.
  assert (Forall (fun l => newline ∉ l) ls) as Hplain
    by (eapply Forall_impl; [exact Hls|]; by intros l [? _]).
  assert (Forall (fun l => keepsAll names l = false) ls) as Hdrop
    by (eapply Forall_impl; [exact Hls|]; by intros l [_ ?]).
  unfold withoutLines. destruct He as [-> | [c ->]].
  - simpl app. rewrite (splitOn_block _ Hplain), List.filter_app.
    rewrite (filter_none _ _ Hdrop). simpl. by rewrite keepsAll_nil.
  - rewrite <- app_assoc. simpl app at 2.
    rewrite splitOn_app_sep, (splitOn_block _ Hplain), !List.filter_app.
    rewrite (filter_none _ _ Hdrop). simpl List.filter at 2.
    rewrite keepsAll_nil. rewrite filter_all.
    + change ([] ++ [[]]) with (splitOn newline []).
      rewrite <- splitOn_app_sep. apply join_split.
    + apply Forall_forall. intros l Hl. unfold keepsAll.
      apply forallb_forall. intros n Hn'.
      apply (keepsLine_absent n (c ++ [newline])).
      * apply Hn. by apply list_elem_of_In.
      * rewrite splitOn_app_sep. apply in_or_app. left. by apply list_elem_of_In.
Qed.

Lemma lowerChar_newline c : lowerChar c = newline -> c = newline.
Proof.
  destruct c as [[] [] [] [] [] [] [] []]; vm_compute; intros H;
    try reflexivity; discriminate H.
Qed.

Lemma placeholderFor_plain n : newline ∉ n -> newline ∉ placeholderFor n.
Proof.
  intros Hn H. unfold placeholderFor in H.
  apply elem_of_app in H as [H|H].
  - vm_compute in H. repeat (apply elem_of_cons in H as [H|H]; [discriminate H|]).
    by apply elem_of_nil in H.
  - apply elem_of_app in H as [H|H].
    + unfold toLowerCase in H. apply list_elem_of_fmap in H as (c & Hc & Hin).
      symmetry in Hc. apply lowerChar_newline in Hc as ->. by apply Hn.
    + vm_compute in H. repeat (apply elem_of_cons in H as [H|H]; [discriminate H|]).
      by apply elem_of_nil in H.
Qed.


Lemma includes_nil t : includes [] t = true.
Proof. by destruct t. Qed.

Lemma orElse_plain a b :
  (forall v, a = Some v -> newline ∉ v) -> newline ∉ b -> newline ∉ orElse a b.
Proof.
  intros Ha Hb. destruct a as [[|c t]|]; simpl; [done| |done]. by apply Ha.
Qed.

Lemma ownLine_own names n v :
  n ∈ names -> n <> [] -> trimStart n = n -> newline ∉ n -> newline ∉ v ->
  ownLine names (n ++ str "=" ++ v).
Proof.
  intros Hin Hn Ht Hnl Hv. split.
  - intros H. apply elem_of_app in H as [H|H]; [done|].
    apply elem_of_app in H as [H|H]; [|done].
    vm_compute in H. apply elem_of_cons in H as [H|H]; [discriminate H|].
    by apply elem_of_nil in H.
  - destruct (keepsAll names (n ++ str "=" ++ v)) eqn:K; [|done].
    unfold keepsAll in K. rewrite forallb_forall in K.
    apply list_elem_of_In in Hin. specialize (K n Hin).
    by rewrite keepsLine_own in K.
Qed.

(** What the loop of [updateEnvFiles] appends are lines of its own
    variables. *)
Lemma envFiles_lines actualValues names envVars :
  (forall n, n ∈ envVars ->
     n ∈ names /\ n <> [] /\ trimStart n = n /\ newline ∉ n) ->
  (forall n v, actualValues ≫= (fun values => values !! n) = Some v ->
     newline ∉ v) ->
  forall st, exists A B,
    foldl (envFilesStep actualValues) st envVars
    = (st.1 ++ concat (map (fun l => l ++ nl) A),
       st.2 ++ concat (map (fun l => l ++ nl) B)) /\
    Forall (ownLine names) A /\ Forall (ownLine names) B.
Proof.
  intros Hnames Hav. induction envVars as [|n envVars IH]; intros [e x].
  - exists [], []. simpl. by rewrite !app_nil_r.
  - destruct (Hnames n) as (Hin & Hne & Ht & Hnl); [apply list_elem_of_here|].
    cbn [foldl].
    destruct IH with (st := envFilesStep actualValues (e, x) n)
      as (A & B & -> & HA & HB).
    { intros n' Hn'. apply Hnames. by apply list_elem_of_further. }
    unfold envFilesStep. cbn [fst snd].
    set (v := orElse (actualValues ≫= (fun values => values !! n)) (placeholderFor n)).
    assert (ownLine names (n ++ str "=" ++ v)) as Hv.
    { apply ownLine_own; try done. apply orElse_plain; [by apply Hav|].
      by apply placeholderFor_plain. }
    assert (ownLine names (n ++ str "=" ++ placeholderFor n)) as Hp.
    { apply ownLine_own; try done. by apply placeholderFor_plain. }
    exists (if includes n e then A else (n ++ str "=" ++ v) :: A),
           (if includes n x then B else (n ++ str "=" ++ placeholderFor n) :: B).
    split; [|split].
    + f_equal.
      * destruct (includes n e); [done|]. cbn [map concat].
        by rewrite <- !app_assoc.
      * destruct (includes n x); [done|]. cbn [map concat].
        by rewrite <- !app_assoc.
    + destruct (includes n e); [done|]. by constructor.
    + destruct (includes n x); [done|]. by constructor.
Qed.

(** X25.  [removeRoleEnvVars] undoes [updateEnvFiles]: when both files
    exist, are empty or end with a line feed, and hold none of the names,
    adding the names and then removing the variables of a role that lists
    them gives the files back as they were. *)
Theorem removeRoleEnvVars_undoes_updateEnvFiles (config : QADirectorConfig)
    (role : Role) (names : list text) (actualValues : option (gmap text text))
    (fs : gmap text text) (e x : text) :
  envVars role = Some names ->
  fs !! envDir config = Some e ->
  fs !! examplePathOf config = Some x ->
  endsLines e -> endsLines x ->
  (forall n, n ∈ names -> freshName e n /\ freshName x n) ->
  (forall n v, actualValues ≫= (fun values => values !! n) = Some v ->
     newline ∉ v) ->
  removeRoleEnvVars config role (updateEnvFiles config names actualValues fs) = fs.
Proof.
  intros Hrole He Hx Ee Ex Hfresh Hav.
  pose proof (example_path_differs config) as Hd.
  rewrite (removeRoleEnvVars_fold _ _ _ _ Hrole).
  unfold updateEnvFiles. rewrite (readEnvFiles_both _ _ _ _ He Hx).
  destruct (envFiles_lines actualValues names names) with (st := (e, x))
    as (A & B & -> & HA & HB); [|done|].
  { intros n Hn. destruct (Hfresh n Hn) as [(Hi & Ht & Hnl) _].
    split; [done|]. split; [|done]. intros ->. by rewrite includes_nil in Hi. }
  cbn [fst snd foldl]. rewrite !removeFromFile_spec.
  rewrite lookup_insert_ne by done. rewrite lookup_insert_eq.
  rewrite withoutLines_appended; [|done| |done].
  2:{ intros n Hn. by destruct (Hfresh n Hn) as [(Hi & _) _]. }
  rewrite lookup_insert_ne by (intros H; by apply Hd).
  rewrite lookup_insert_eq.
  rewrite withoutLines_appended; [|done| |done].
  2:{ intros n Hn. by destruct (Hfresh n Hn) as [_ (Hi & _)]. }
  apply map_eq. intros k.
  destruct (decide (k = examplePathOf config)) as [->|Hk1].
  { by rewrite lookup_insert_eq. }
  rewrite lookup_insert_ne by done.
  destruct (decide (k = envDir config)) as [->|Hk2].
  { by rewrite lookup_insert_eq. }
  by rewrite !lookup_insert_ne.
Qed.

Lemma removeRoleEnvVars_undoes_updateEnvFiles_witness :
  removeRoleEnvVars sampleConfig
    (mkRole (str "user") (str "auth/user.json") None
       (Some [str "QA_USER_EMAIL"; str "QA_USER_PASSWORD"]) None)
    (updateEnvFiles sampleConfig [str "QA_USER_EMAIL"; str "QA_USER_PASSWORD"]
       None (createEnvFiles sampleConfig None ∅))
  = createEnvFiles sampleConfig None ∅.
Proof.
  assert (endsLines envTemplate) as E.
  { right. exists (envHeader ++ str "ANTHROPIC_API_KEY=your_anthropic_api_key_here").
    vm_compute. reflexivity. }
  assert (forall n, n ∈ [str "QA_USER_EMAIL"; str "QA_USER_PASSWORD"] ->
            freshName envTemplate n) as F.
  { intros n Hn. apply elem_of_cons in Hn as [->|Hn];
      [|apply list_elem_of_singleton in Hn as ->].
    - split; [vm_compute; reflexivity|]. split; [vm_compute; reflexivity|].
      apply (bool_decide_unpack _). vm_compute. exact I.
    - split; [vm_compute; reflexivity|]. split; [vm_compute; reflexivity|].
      apply (bool_decide_unpack _). vm_compute. exact I. }
  apply (removeRoleEnvVars_undoes_updateEnvFiles sampleConfig _
           [str "QA_USER_EMAIL"; str "QA_USER_PASSWORD"] None
           (createEnvFiles sampleConfig None ∅) envTemplate envTemplate).
  - reflexivity.
  - vm_compute. reflexivity.
  - vm_compute. reflexivity.
  - exact E.
  - exact E.
  - intros n Hn. split; by apply F.
  - intros n v H. discriminate H.
Defined.


End FilesFacts.
